(** * Stack stamping (stack_stamp/ss.cpp): a shallow embedding and its properties

    The transform XORs the return address on the stack with a stamp value at
    the entry of a function and before every instruction that leaves it, and
    rewrites the unwind programs accordingly.  The C++ code works on the IR
    of the rewriter's SDK through pointers; here the IR is a record of
    heaps (lists indexed by pointer), the transform object is a record that
    holds the IR, and every method is a function in an error monad whose two
    failures are a fired [assert] (assertions are compiled in) and behaviour
    that C++ leaves undefined.  What the code prints is not modelled. *)

From Stdlib Require Import ZArith NArith String Ascii HexadecimalString Sorted Lia.
From Stdlib Require OrderedTypeEx HexadecimalN HexadecimalPos.
From stdpp Require Import base list strings gmap.

Set Default Proof Using "Type".

(** ** Outcomes of a run *)

Inductive res (A : Type) : Type :=
| Ok (a : A)      (* the call returns [a] *)
| AssertFail      (* an [assert] fired: the process stops *)
| Undefined.      (* undefined behaviour: an invalid iterator or pointer is read *)

Arguments Ok {A} a.
Arguments AssertFail {A}.
Arguments Undefined {A}.

Definition bind {A B} (c : res A) (k : A -> res B) : res B :=
  match c with
  | Ok a => k a
  | AssertFail => AssertFail
  | Undefined => Undefined
  end.

Notation "x <~ c ;; k" := (bind c (fun x => k))
  (at level 60, c at next level, right associativity).

Definition assert (b : bool) : res unit :=
  if b then Ok tt else AssertFail.

(** ** The IR of the SDK, as this transform uses it

    Pointers to instructions, functions and unwind programs are indices into
    the heaps of the IR; a null pointer is [None]. *)

Abbreviation InsnPtr := nat (only parsing).
Abbreviation FuncPtr := nat (only parsing).
Abbreviation EhPtr := nat (only parsing).

(** Modelled from the spec: the instruction decoder
    ([DecodedInstruction_t::factory]) is part of the SDK; the data model of
    the spec gives an instruction "a decoded operation kind (is-return /
    is-call / is-unconditional-branch / other)". *)
Inductive DecodedInstruction_t : Type :=
| KReturn
| KCall
| KUnconditionalBranch
| KOther.

Definition isReturn (di : DecodedInstruction_t) : bool :=
  match di with KReturn => true | _ => false end.

Definition isCall (di : DecodedInstruction_t) : bool :=
  match di with KCall => true | _ => false end.

Definition isUnconditionalBranch (di : DecodedInstruction_t) : bool :=
  match di with KUnconditionalBranch => true | _ => false end.

(** Modelled from the spec: a relocation of the SDK, a typed annotation.
    [reloc_addr] is the address of the object (sets of relocations are sets
    of pointers and compare by address), [getType] its type string. *)
Record Relocation_t : Type := mkReloc {
  reloc_addr : N;
  getType : string
}.

(** A [std::set] of pointers is the list of its elements in iteration order. *)
Abbreviation RelocationSet_t := (list Relocation_t) (only parsing).

(** Modelled from the spec: the indirect-branch targets of an instruction,
    a set of instructions that may be marked complete. *)
Record ICFS_t : Type := mkICFS {
  icfs_targets : list InsnPtr;
  isComplete : bool
}.

(** Modelled from the spec: an instruction of the SDK, with the fields that
    sections 3 and 6 of the spec list. *)
Record Instruction_t : Type := mkInsn {
  decoded : DecodedInstruction_t;
  getDisassembly : string;
  getTarget : option InsnPtr;
  getFallthrough : option InsnPtr;
  getIBTargets : option ICFS_t;
  getRelocations : RelocationSet_t;
  getEhProgram : option EhPtr;
  getFunction : option FuncPtr
}.

(** Modelled from the spec: a function of the SDK.  [getInstructions] is a
    [std::set] of pointers; the list is its iteration order. *)
Record Function_t : Type := mkFunc {
  getName : string;
  getEntryPoint : option InsnPtr;
  getInstructions : list InsnPtr
}.

Abbreviation EhProgramInstruction_t := string (only parsing).
Abbreviation EhProgramListing_t := (list string) (only parsing).

(** Modelled from the spec: an unwind program of the SDK, with its seven
    fields. *)
Record EhProgram_t : Type := mkEhProgram {
  getCodeAlignmentFactor : Z;
  getDataAlignmentFactor : Z;
  getReturnRegNumber : Z;
  getPointerSize : Z;
  getCIEProgram : EhProgramListing_t;
  getFDEProgram : EhProgramListing_t;
  getEhRelocations : RelocationSet_t
}.

(** Modelled from the spec: the program-wide registry of the SDK. *)
Record FileIR_t : Type := mkIR {
  getArchitectureBitWidth : N;
  ir_instructions : list Instruction_t;  (* every instruction of the program *)
  ir_functions : list Function_t;
  ir_eh_programs : list EhProgram_t;     (* the unwind-program objects *)
  getAllEhPrograms : gset EhPtr          (* the program-wide registry *)
}.

(** Reading through a pointer; a pointer to no object is undefined. *)
Definition deref {A} (heap : list A) (p : nat) : res A :=
  match heap !! p with
  | Some x => Ok x
  | None => Undefined
  end.

(** ** ss.hpp: the transform object *)

Abbreviation StampValue_t := N (only parsing).

Record EhProgramPlaceHolder_t : Type := mkPlaceHolder {
  caf : Z;
  daf : Z;
  rr : Z;
  ptrsize : Z;
  cie_program : EhProgramListing_t;
  fde_program : EhProgramListing_t;
  relocs : RelocationSet_t
}.

(** [EhProgramPlaceHolder_t(const EhProgram_t* orig)] *)
Definition placeholder_of (orig : EhProgram_t) : EhProgramPlaceHolder_t :=
  {| caf := getCodeAlignmentFactor orig;
     daf := getDataAlignmentFactor orig;
     rr := getReturnRegNumber orig;
     ptrsize := getPointerSize orig;
     cie_program := getCIEProgram orig;
     fde_program := getFDEProgram orig;
     relocs := getEhRelocations orig |}.

(** [all_eh_pgms] is a [std::map]; it is kept as the list of its entries and
    searched with the equivalence that [operator<] induces (below). *)
Record StackStamp_t : Type := mkStackStamp {
  getFileIR : FileIR_t;
  m_stamp_value : StampValue_t;
  m_verbose : bool;
  all_eh_pgms : list (EhProgramPlaceHolder_t * EhPtr);
  m_instructions_added : Z;
  m_functions_transformed : Z;
  m_functions_not_transformed : Z
}.

(** The constructor: [StampValue_t] is [unsigned int]. *)
Definition StackStamp_new (p_variantIR : FileIR_t) (sv : N) (p_verbose : bool)
  : StackStamp_t :=
  {| getFileIR := p_variantIR;
     m_stamp_value := (sv mod 2 ^ 32)%N;
     m_verbose := p_verbose;
     all_eh_pgms := [];
     m_instructions_added := 0;
     m_functions_transformed := 0;
     m_functions_not_transformed := 0 |}.

Definition set_ir (ir : FileIR_t) (s : StackStamp_t) : StackStamp_t :=
  {| getFileIR := ir;
     m_stamp_value := m_stamp_value s;
     m_verbose := m_verbose s;
     all_eh_pgms := all_eh_pgms s;
     m_instructions_added := m_instructions_added s;
     m_functions_transformed := m_functions_transformed s;
     m_functions_not_transformed := m_functions_not_transformed s |}.

Definition set_cache (c : list (EhProgramPlaceHolder_t * EhPtr)) (s : StackStamp_t)
  : StackStamp_t :=
  {| getFileIR := getFileIR s;
     m_stamp_value := m_stamp_value s;
     m_verbose := m_verbose s;
     all_eh_pgms := c;
     m_instructions_added := m_instructions_added s;
     m_functions_transformed := m_functions_transformed s;
     m_functions_not_transformed := m_functions_not_transformed s |}.

Definition set_instructions_added (n : Z) (s : StackStamp_t) : StackStamp_t :=
  {| getFileIR := getFileIR s;
     m_stamp_value := m_stamp_value s;
     m_verbose := m_verbose s;
     all_eh_pgms := all_eh_pgms s;
     m_instructions_added := n;
     m_functions_transformed := m_functions_transformed s;
     m_functions_not_transformed := m_functions_not_transformed s |}.

Definition set_functions_transformed (n : Z) (s : StackStamp_t) : StackStamp_t :=
  {| getFileIR := getFileIR s;
     m_stamp_value := m_stamp_value s;
     m_verbose := m_verbose s;
     all_eh_pgms := all_eh_pgms s;
     m_instructions_added := m_instructions_added s;
     m_functions_transformed := n;
     m_functions_not_transformed := m_functions_not_transformed s |}.

Definition set_functions_not_transformed (n : Z) (s : StackStamp_t) : StackStamp_t :=
  {| getFileIR := getFileIR s;
     m_stamp_value := m_stamp_value s;
     m_verbose := m_verbose s;
     all_eh_pgms := all_eh_pgms s;
     m_instructions_added := m_instructions_added s;
     m_functions_transformed := m_functions_transformed s;
     m_functions_not_transformed := n |}.

(** [x++] on an [int]: signed overflow is undefined. *)
Definition INT_MAX : Z := 2147483647.

Definition int_incr (x : Z) : res Z :=
  if (x <? INT_MAX)%Z then Ok (x + 1)%Z else Undefined.

(** ** ss.cpp *)

(** [std::find_if]: the position of the first element that satisfies [p];
    the length of the sequence is its [end()]. *)
Fixpoint find_if {A} (p : A -> bool) (l : list A) : nat :=
  match l with
  | [] => 0
  | x :: l' => if p x then 0 else S (find_if p l')
  end.

(** [*it] on an iterator of [l]: only positions before [end(l)] hold an
    element. *)
Definition deref_iter {A} (l : list A) (it : nat) : res A :=
  match l !! it with
  | Some x => Ok x
  | None => Undefined
  end.

(** [findRelocation]: the result is a pointer, [None] for [NULL]. *)
Definition findRelocation (insn : Instruction_t) (type : string)
  : res (option Relocation_t) :=
  let relocs := getRelocations insn in
  let find_it := find_if (fun reloc => String.eqb (getType reloc) type) relocs in
  if Nat.eqb find_it (length relocs)
  then r <~ deref_iter relocs find_it ;; Ok (Some r)
  else Ok None.

(** [get_stamp] *)
Definition get_stamp (s : StackStamp_t) (f : FuncPtr) : StampValue_t :=
  m_stamp_value s.

Definition fix_call_fallthrough_string : string := "fix_call_fallthrough".

(** The two lambdas of the indirect-branch check:
    [target->getFunction()!=f] and [target->getFunction()==f]. *)
Definition target_leaves (ir : FileIR_t) (f : FuncPtr) (target : InsnPtr)
  : res bool :=
  t <~ deref (ir_instructions ir) target ;;
  Ok (negb (bool_decide (getFunction t = Some f))).

Definition target_stays (ir : FileIR_t) (f : FuncPtr) (target : InsnPtr)
  : res bool :=
  t <~ deref (ir_instructions ir) target ;;
  Ok (bool_decide (getFunction t = Some f)).

(** [std::find_if] with a predicate that reads through pointers. *)
Fixpoint find_if_res {A} (p : A -> res bool) (l : list A) : res nat :=
  match l with
  | [] => Ok 0
  | x :: l' =>
      b <~ p x ;;
      if b then Ok 0 else n <~ find_if_res p l' ;; Ok (S n)
  end.

(** [target && target->getFunction() != f] *)
Definition exits_function (ir : FileIR_t) (f : FuncPtr) (target : option InsnPtr)
  : res bool :=
  match target with
  | None => Ok false
  | Some t => target_leaves ir f t
  end.

(** The body of the loop of [can_stamp]: [Ok true] goes on to the next
    instruction, [Ok false] is [return false]. *)
Definition can_stamp_body (ir : FileIR_t) (f : FuncPtr) (insn : InsnPtr)
  : res bool :=
  i <~ deref (ir_instructions ir) insn ;;
  let di := decoded i in
  let target := getTarget i in
  let icfs := getIBTargets i in
  reloc <~ findRelocation i fix_call_fallthrough_string ;;
  if isReturn di then Ok true
  else if isCall di || bool_decide (reloc <> None) then Ok true
  else
    exits <~ exits_function ir f target ;;
    if exits then
      if bool_decide (getFallthrough i <> None) then Ok false else Ok true
    else
      match icfs with
      | Some targets =>
          if isUnconditionalBranch di then
            _ <~ assert (bool_decide (getFallthrough i = None)) ;;
            _ <~ assert (negb (Nat.eqb (length (icfs_targets targets)) 0)) ;;
            leaver <~ find_if_res (target_leaves ir f) (icfs_targets targets) ;;
            stayer <~ find_if_res (target_stays ir f) (icfs_targets targets) ;;
            let might_leave := negb (Nat.eqb leaver (length (icfs_targets targets))) in
            let might_stay := negb (Nat.eqb stayer (length (icfs_targets targets))) in
            let definitely_stays := negb might_leave in
            let definitely_leaves := negb might_stay in
            if definitely_leaves || definitely_stays then Ok true
            else if might_leave || might_stay then Ok false
            else AssertFail
          else Ok true
      | None => Ok true
      end.

Fixpoint can_stamp_loop (ir : FileIR_t) (f : FuncPtr) (insns : list InsnPtr)
  : res bool :=
  match insns with
  | [] => Ok true
  | insn :: rest =>
      ok <~ can_stamp_body ir f insn ;;
      if ok then can_stamp_loop ir f rest else Ok false
  end.

(** [StackStamp_t::can_stamp] *)
Definition can_stamp (s : StackStamp_t) (f : FuncPtr) : res bool :=
  let ir := getFileIR s in
  fn <~ deref (ir_functions ir) f ;;
  if bool_decide (getEntryPoint fn = None) then Ok false
  else if String.eqb (getName fn) "_start" then Ok false
  else if Nat.leb (length (getInstructions fn)) 3 then Ok false
  else can_stamp_loop ir f (getInstructions fn).

(** [hex << v] for an unsigned value: lower-case digits, no padding. *)
Definition hex_string (v : N) : string :=
  NilZero.string_of_uint (N.to_hex_uint v).

Definition add_instruction (i : InsnPtr) (fn : Function_t) : Function_t :=
  {| getName := getName fn;
     getEntryPoint := getEntryPoint fn;
     getInstructions :=
       if bool_decide (i ∈ getInstructions fn) then getInstructions fn
       else getInstructions fn ++ [i] |}.

Definition set_instructions (insns : list Instruction_t) (ir : FileIR_t) : FileIR_t :=
  {| getArchitectureBitWidth := getArchitectureBitWidth ir;
     ir_instructions := insns;
     ir_functions := ir_functions ir;
     ir_eh_programs := ir_eh_programs ir;
     getAllEhPrograms := getAllEhPrograms ir |}.

Definition set_functions (funcs : list Function_t) (ir : FileIR_t) : FileIR_t :=
  {| getArchitectureBitWidth := getArchitectureBitWidth ir;
     ir_instructions := ir_instructions ir;
     ir_functions := funcs;
     ir_eh_programs := ir_eh_programs ir;
     getAllEhPrograms := getAllEhPrograms ir |}.

(** Modelled from the spec: [insertAssemblyBefore] belongs to the SDK and is
    not part of this repository.  The comment in [stamp] and section 4.2 of
    the spec give its contract: the old instruction is copied to a new
    [Instruction_t] (the 'after' instruction, which is returned and joins
    the function of the old one), and the old [Instruction_t] is overwritten
    with the new assembly (the 'before' instruction), falling through to the
    copy.  The text written here is never a control transfer, so the
    overwritten instruction decodes as a plain one without target,
    indirect targets or relocations. *)
Definition insertAssemblyBefore (ir : FileIR_t) (i : InsnPtr) (assembly : string)
  : res (FileIR_t * InsnPtr) :=
  old <~ deref (ir_instructions ir) i ;;
  let after := length (ir_instructions ir) in
  let before :=
    {| decoded := KOther;
       getDisassembly := assembly;
       getTarget := None;
       getFallthrough := Some after;
       getIBTargets := None;
       getRelocations := [];
       getEhProgram := getEhProgram old;
       getFunction := getFunction old |} in
  let insns' := <[i := before]> (ir_instructions ir) ++ [old] in
  match getFunction old with
  | None => Ok (set_instructions insns' ir, after)
  | Some g =>
      _ <~ deref (ir_functions ir) g ;;
      Ok (set_functions (alter (add_instruction after) g (ir_functions ir))
            (set_instructions insns' ir), after)
  end.

(** [StackStamp_t::stamp(f, i)], the overload on one instruction; the
    pointer it returns is its argument [i], and the log lines are not
    modelled. *)
Definition stamp_insn (s : StackStamp_t) (f : FuncPtr) (i : option InsnPtr)
  : res StackStamp_t :=
  match i with
  | None => AssertFail
  | Some i =>
      let spreg :=
        if N.eqb (getArchitectureBitWidth (getFileIR s)) 64 then "rsp" else "esp" in
      let assembly :=
        " xor dword [" +:+ spreg +:+ "], 0x" +:+ hex_string (get_stamp s f) in
      r <~ insertAssemblyBefore (getFileIR s) i assembly ;;
      n <~ int_incr (m_instructions_added s) ;;
      Ok (set_instructions_added n (set_ir (fst r) s))
  end.

(** *** Unwind programs *)

(** [std::lexicographical_compare], the [operator<] of vectors and sets. *)
Fixpoint lexicographical_compare {A} (lt : A -> A -> bool) (l1 l2 : list A) : bool :=
  match l1, l2 with
  | [], [] => false
  | [], _ :: _ => true
  | _ :: _, [] => false
  | x :: l1', y :: l2' =>
      if lt x y then true
      else if lt y x then false
      else lexicographical_compare lt l1' l2'
  end.

Definition listing_lt (a b : EhProgramListing_t) : bool :=
  lexicographical_compare String.ltb a b.

Definition reloc_ptr_lt (a b : Relocation_t) : bool :=
  N.ltb (reloc_addr a) (reloc_addr b).

Definition relocset_lt (a b : RelocationSet_t) : bool :=
  lexicographical_compare reloc_ptr_lt a b.

(** One position of the [operator<] of [std::tuple]. *)
Definition tie_step (a_lt_b b_lt_a rest : bool) : bool :=
  if a_lt_b then true else if b_lt_a then false else rest.

(** [Stamper::operator<] on placeholders. *)
Definition placeholder_lt (a b : EhProgramPlaceHolder_t) : bool :=
  tie_step (caf a <? caf b)%Z (caf b <? caf a)%Z
  (tie_step (daf a <? daf b)%Z (daf b <? daf a)%Z
  (tie_step (rr a <? rr b)%Z (rr b <? rr a)%Z
  (tie_step (ptrsize a <? ptrsize b)%Z (ptrsize b <? ptrsize a)%Z
  (tie_step (listing_lt (cie_program a) (cie_program b))
            (listing_lt (cie_program b) (cie_program a))
  (tie_step (listing_lt (fde_program a) (fde_program b))
            (listing_lt (fde_program b) (fde_program a))
  (tie_step (relocset_lt (relocs a) (relocs b))
            (relocset_lt (relocs b) (relocs a))
            false)))))).

(** Two keys of a [std::map] are the same key when neither is less. *)
Definition placeholder_equiv (a b : EhProgramPlaceHolder_t) : bool :=
  negb (placeholder_lt a b) && negb (placeholder_lt b a).

(** [all_eh_pgms.find(nep)] *)
Fixpoint map_find (k : EhProgramPlaceHolder_t)
  (m : list (EhProgramPlaceHolder_t * EhPtr)) : option EhPtr :=
  match m with
  | [] => None
  | (k', v) :: m' => if placeholder_equiv k k' then Some v else map_find k m'
  end.

(** [all_eh_pgms[nep]=v] *)
Fixpoint map_assign (k : EhProgramPlaceHolder_t) (v : EhPtr)
  (m : list (EhProgramPlaceHolder_t * EhPtr))
  : list (EhProgramPlaceHolder_t * EhPtr) :=
  match m with
  | [] => [(k, v)]
  | (k', v') :: m' =>
      if placeholder_equiv k k' then (k', v) :: m'
      else (k', v') :: map_assign k v m'
  end.

(** Modelled from the spec: the setters of the SDK objects (section 6: the
    direct target and the unwind program of an instruction, the relocations
    of an unwind program and the registry are settable). *)
Definition setEhProgram (p : option EhPtr) (i : Instruction_t) : Instruction_t :=
  {| decoded := decoded i;
     getDisassembly := getDisassembly i;
     getTarget := getTarget i;
     getFallthrough := getFallthrough i;
     getIBTargets := getIBTargets i;
     getRelocations := getRelocations i;
     getEhProgram := p;
     getFunction := getFunction i |}.

Definition setTarget (t : option InsnPtr) (i : Instruction_t) : Instruction_t :=
  {| decoded := decoded i;
     getDisassembly := getDisassembly i;
     getTarget := t;
     getFallthrough := getFallthrough i;
     getIBTargets := getIBTargets i;
     getRelocations := getRelocations i;
     getEhProgram := getEhProgram i;
     getFunction := getFunction i |}.

Definition setRelocations (r : RelocationSet_t) (p : EhProgram_t) : EhProgram_t :=
  {| getCodeAlignmentFactor := getCodeAlignmentFactor p;
     getDataAlignmentFactor := getDataAlignmentFactor p;
     getReturnRegNumber := getReturnRegNumber p;
     getPointerSize := getPointerSize p;
     getCIEProgram := getCIEProgram p;
     getFDEProgram := getFDEProgram p;
     getEhRelocations := r |}.

(** Modelled from the spec: [FileIR_t::addEhProgram] belongs to the SDK.
    Sections 4.4 and 6 of the spec: it constructs a new stored unwind program
    from the alignment factors, the return register, the pointer size and the
    two listings, points the instruction at it and returns a handle to it;
    the new program is live, so it joins the registry. *)
Definition addEhProgram (ir : FileIR_t) (insn : InsnPtr)
  (caf daf rr ptrsize : Z) (cie fde : EhProgramListing_t) : FileIR_t * EhPtr :=
  let p := length (ir_eh_programs ir) in
  ({| getArchitectureBitWidth := getArchitectureBitWidth ir;
      ir_instructions := alter (setEhProgram (Some p)) insn (ir_instructions ir);
      ir_functions := ir_functions ir;
      ir_eh_programs :=
        ir_eh_programs ir ++
        [ {| getCodeAlignmentFactor := caf;
             getDataAlignmentFactor := daf;
             getReturnRegNumber := rr;
             getPointerSize := ptrsize;
             getCIEProgram := cie;
             getFDEProgram := fde;
             getEhRelocations := [] |} ];
      getAllEhPrograms := {[ p ]} ∪ getAllEhPrograms ir |}, p).

Definition set_eh_programs (ehs : list EhProgram_t) (ir : FileIR_t) : FileIR_t :=
  {| getArchitectureBitWidth := getArchitectureBitWidth ir;
     ir_instructions := ir_instructions ir;
     ir_functions := ir_functions ir;
     ir_eh_programs := ehs;
     getAllEhPrograms := getAllEhPrograms ir |}.

(** A [std::string] from a list of byte values. *)
Definition byte_string (bytes : list N) : string :=
  foldr (fun b s => String (ascii_of_N b) s) EmptyString bytes.

(** [string(reinterpret_cast<const char*>(&stamp_value), byte_width)] on a
    little-endian host. *)
Definition stamp_value_bytes (stamp_value : N) (byte_width : N) : list N :=
  map (fun k => (stamp_value / 2 ^ (8 * N.of_nat k)) mod 256)%N
      (seq 0 (N.to_nat byte_width)).

(** The unwind instruction [DW_CFA_val_expression] that [eh_update] builds. *)
Definition dwarf_instruction (bits : N) (stamp_value : N) : EhProgramInstruction_t :=
  let dwarf_instruction_prefix :=
    if N.eqb bits 64
    then byte_string [0x16; 0x10; 0x0D; 0x38; 0x1c; 0x06]%N
    else byte_string [0x16; 0x08; 0x09; 0x34; 0x1c; 0x06]%N in
  let byte_width := (bits / 8)%N in
  let dwarf_instruction_stamp_value :=
    byte_string (stamp_value_bytes stamp_value byte_width) in
  let dwarf_addr_insn := byte_string [0x03]%N +:+ dwarf_instruction_stamp_value in
  let dwarf_instruction_suffix := byte_string [0x27]%N in
  dwarf_instruction_prefix +:+ dwarf_addr_insn +:+ dwarf_instruction_suffix.

(** [fde_pgm.insert(fde_pgm.begin(), dwarf_instruction)] on the FDE program
    of a placeholder. *)
Definition insert_fde (dwarf : EhProgramInstruction_t) (nep : EhProgramPlaceHolder_t)
  : EhProgramPlaceHolder_t :=
  {| caf := caf nep; daf := daf nep; rr := rr nep; ptrsize := ptrsize nep;
     cie_program := cie_program nep;
     fde_program := dwarf :: fde_program nep;
     relocs := relocs nep |}.

(** The body of the loop of [eh_update]. *)
Definition eh_update_body (dwarf : EhProgramInstruction_t)
  (s : StackStamp_t) (insn : InsnPtr) : res StackStamp_t :=
  let ir := getFileIR s in
  i <~ deref (ir_instructions ir) insn ;;
  match getEhProgram i with
  | None => Ok s
  | Some eh_pgm =>
      orig <~ deref (ir_eh_programs ir) eh_pgm ;;
      let nep := insert_fde dwarf (placeholder_of orig) in
      match map_find nep (all_eh_pgms s) with
      | None =>
          let '(ir1, tmp_pgm) :=
            addEhProgram ir insn (caf nep) (daf nep) (rr nep) (ptrsize nep)
              (cie_program nep) (fde_program nep) in
          let ir2 :=
            set_eh_programs
              (alter (setRelocations (relocs nep)) tmp_pgm (ir_eh_programs ir1)) ir1 in
          Ok (set_cache (map_assign nep tmp_pgm (all_eh_pgms s)) (set_ir ir2 s))
      | Some reuse =>
          Ok (set_ir
                (set_instructions
                   (alter (setEhProgram (Some reuse)) insn (ir_instructions ir)) ir) s)
      end
  end.

Fixpoint eh_update_loop (dwarf : EhProgramInstruction_t)
  (s : StackStamp_t) (insns : list InsnPtr) : res StackStamp_t :=
  match insns with
  | [] => Ok s
  | insn :: rest =>
      s' <~ eh_update_body dwarf s insn ;;
      eh_update_loop dwarf s' rest
  end.

(** [StackStamp_t::eh_update]; [sizeof(stamp_value)] is 8. *)
Definition eh_update (s : StackStamp_t) (f : FuncPtr) : res StackStamp_t :=
  let ir := getFileIR s in
  let stamp_value := get_stamp s f in
  let bits := getArchitectureBitWidth ir in
  let byte_width := (bits / 8)%N in
  _ <~ assert (N.eqb byte_width 4 || N.eqb byte_width 8) ;;
  _ <~ assert (N.leb byte_width 8) ;;
  fn <~ deref (ir_functions ir) f ;;
  eh_update_loop (dwarf_instruction bits stamp_value) s (getInstructions fn).

Definition setAllEhPrograms (r : gset EhPtr) (ir : FileIR_t) : FileIR_t :=
  {| getArchitectureBitWidth := getArchitectureBitWidth ir;
     ir_instructions := ir_instructions ir;
     ir_functions := ir_functions ir;
     ir_eh_programs := ir_eh_programs ir;
     getAllEhPrograms := r |}.

(** [StackStamp_t::cleanup_eh_pgms]; the attribute lines are not modelled. *)
Definition cleanup_eh_pgms (s : StackStamp_t) : StackStamp_t :=
  let new_eh_pgms :=
    foldl (fun (acc : gset EhPtr) insn =>
             match getEhProgram insn with
             | Some eh_pgm => {[ eh_pgm ]} ∪ acc
             | None => acc
             end) ∅ (ir_instructions (getFileIR s)) in
  set_ir (setAllEhPrograms new_eh_pgms (getFileIR s)) s.

(** *** Stamping a function *)

(** The body of the first loop of [stamp(f)], over the copy of the
    instructions of [f]. *)
Definition stamp_body (f : FuncPtr) (s : StackStamp_t) (insn : InsnPtr)
  : res StackStamp_t :=
  let ir := getFileIR s in
  i <~ deref (ir_instructions ir) insn ;;
  let di := decoded i in
  let target := getTarget i in
  reloc <~ findRelocation i fix_call_fallthrough_string ;;
  let icfs := getIBTargets i in
  if isReturn di then stamp_insn s f (Some insn)
  else if isCall di || bool_decide (reloc <> None) then Ok s
  else
    exits <~ exits_function ir f target ;;
    if exits then
      _ <~ assert (bool_decide (getFallthrough i = None)) ;;
      stamp_insn s f (Some insn)
    else
      match icfs with
      | Some targets =>
          if isUnconditionalBranch di then
            _ <~ assert (bool_decide (getFallthrough i = None)) ;;
            _ <~ assert (negb (Nat.eqb (length (icfs_targets targets)) 0)) ;;
            leaver <~ find_if_res (target_leaves ir f) (icfs_targets targets) ;;
            stayer <~ find_if_res (target_stays ir f) (icfs_targets targets) ;;
            let might_leave := negb (Nat.eqb leaver (length (icfs_targets targets))) in
            let might_stay := negb (Nat.eqb stayer (length (icfs_targets targets))) in
            let definitely_leaves := negb might_stay in
            fn <~ deref (ir_functions ir) f ;;
            if bool_decide (Some insn = getEntryPoint fn) then
              stamp_insn s f (Some insn)
            else if definitely_leaves || (might_leave && negb (isComplete targets)) then
              stamp_insn s f (Some insn)
            else Ok s
          else Ok s
      | None => Ok s
      end.

Fixpoint stamp_loop (f : FuncPtr) (s : StackStamp_t) (old_f_insns : list InsnPtr)
  : res StackStamp_t :=
  match old_f_insns with
  | [] => Ok s
  | insn :: rest =>
      s' <~ stamp_body f s insn ;;
      stamp_loop f s' rest
  end.

(** The body of the second loop of [stamp(f)]: references to the entry. *)
Definition skip_stamp_body (f : FuncPtr) (s : StackStamp_t) (insn : InsnPtr)
  : res StackStamp_t :=
  let ir := getFileIR s in
  i <~ deref (ir_instructions ir) insn ;;
  fn <~ deref (ir_functions ir) f ;;
  if bool_decide (getTarget i = getEntryPoint fn) then
    let di := decoded i in
    if negb (isCall di) then
      match getEntryPoint fn with
      | None => Undefined
      | Some e =>
          entry <~ deref (ir_instructions ir) e ;;
          Ok (set_ir
                (set_instructions
                   (alter (setTarget (getFallthrough entry)) insn (ir_instructions ir))
                   ir) s)
      end
    else Ok s
  else Ok s.

Fixpoint skip_stamp_loop (f : FuncPtr) (s : StackStamp_t) (old_f_insns : list InsnPtr)
  : res StackStamp_t :=
  match old_f_insns with
  | [] => Ok s
  | insn :: rest =>
      s' <~ skip_stamp_body f s insn ;;
      skip_stamp_loop f s' rest
  end.

(** [StackStamp_t::stamp(f)], the overload on a function. *)
Definition stamp (s : StackStamp_t) (f : FuncPtr) : res StackStamp_t :=
  ok <~ can_stamp s f ;;
  if negb ok then
    n <~ int_incr (m_functions_not_transformed s) ;;
    Ok (set_functions_not_transformed n s)
  else
    fn <~ deref (ir_functions (getFileIR s)) f ;;
    _ <~ assert (bool_decide (getEntryPoint fn <> None)) ;;
    n <~ int_incr (m_functions_transformed s) ;;
    let s0 := set_functions_transformed n s in
    let old_f_insns := getInstructions fn in
    s1 <~ stamp_loop f s0 old_f_insns ;;
    fn1 <~ deref (ir_functions (getFileIR s1)) f ;;
    s2 <~ stamp_insn s1 f (getEntryPoint fn1) ;;
    s3 <~ skip_stamp_loop f s2 old_f_insns ;;
    eh_update s3 f.

(** *** The whole IR *)

(** [nameSorter]: by name, then by pointer. *)
Definition nameSorter (lhs rhs : string * FuncPtr) : bool :=
  tie_step (String.ltb (fst lhs) (fst rhs)) (String.ltb (fst rhs) (fst lhs))
    (tie_step (Nat.ltb (snd lhs) (snd rhs)) (Nat.ltb (snd rhs) (snd lhs)) false).

(** Insertion into a [std::set] ordered by [lt]. *)
Fixpoint set_insert {A} (lt : A -> A -> bool) (x : A) (l : list A) : list A :=
  match l with
  | [] => [x]
  | y :: l' =>
      if lt x y then x :: y :: l'
      else if lt y x then y :: set_insert lt x l'
      else y :: l'
  end.

(** [set<Function_t*, nameSorter>(ALLOF(getFileIR()->getFunctions()))] *)
Definition sorted_funcs (ir : FileIR_t) : list FuncPtr :=
  map snd
    (foldl (fun acc x => set_insert nameSorter x acc) []
       (imap (fun p fn => (getName fn, p)) (ir_functions ir))).

(** [atoi]: white space, an optional sign, decimal digits; a value that does
    not fit an [int] is undefined. *)
Definition isspace (c : ascii) : bool :=
  let n := N_of_ascii c in (N.eqb n 32 || (N.leb 9 n && N.leb n 13)).

Definition isdigit (c : ascii) : bool :=
  let n := N_of_ascii c in (N.leb 48 n && N.leb n 57).

Fixpoint skip_spaces (s : string) : string :=
  match s with
  | String c s' => if isspace c then skip_spaces s' else s
  | EmptyString => s
  end.

Fixpoint digits_value (s : string) (acc : Z) : Z :=
  match s with
  | String c s' =>
      if isdigit c
      then digits_value s' (10 * acc + (Z.of_N (N_of_ascii c) - 48))%Z
      else acc
  | EmptyString => acc
  end.

Definition atoi (s : string) : res Z :=
  let v :=
    match skip_spaces s with
    | String "-"%char s' => (- digits_value s' 0)%Z
    | String "+"%char s' => digits_value s' 0
    | s' => digits_value s' 0
    end in
  if ((- INT_MAX - 1 <=? v) && (v <=? INT_MAX))%Z then Ok v else Undefined.

(** The body of the loop of [execute]; [ss_max_do_transform] is what
    [getenv("SS_MAX_DO_TRANSFORM")] returned. *)
Definition execute_body (ss_max_do_transform : option string)
  (s : StackStamp_t) (func : FuncPtr) : res StackStamp_t :=
  match ss_max_do_transform with
  | Some str =>
      cap <~ atoi str ;;
      if (m_functions_transformed s >? cap)%Z then Ok s else stamp s func
  | None => stamp s func
  end.

Fixpoint execute_loop (ss_max_do_transform : option string)
  (s : StackStamp_t) (funcs : list FuncPtr) : res StackStamp_t :=
  match funcs with
  | [] => Ok s
  | func :: rest =>
      s' <~ execute_body ss_max_do_transform s func ;;
      execute_loop ss_max_do_transform s' rest
  end.

(** [StackStamp_t::execute], for a run without [SELF_VALIDATE] in the
    environment: the three assertions at its end hold trivially then (they
    check the statistics of test runs, one of them a floating-point
    percentage).  The statistics lines are not modelled.  The result is the
    final object and the returned flag. *)
Definition execute (ss_max_do_transform : option string) (s : StackStamp_t)
  : res (StackStamp_t * bool) :=
  s1 <~ execute_loop ss_max_do_transform s (sorted_funcs (getFileIR s)) ;;
  let s2 := cleanup_eh_pgms s1 in
  Ok (s2, (0 <? m_functions_transformed s2)%Z).

(** *** The fixed-call lookup as a parameter

    [can_stamp] and [stamp(f)] use the result of [findRelocation] for one
    test only, [reloc!=NULL], which tells a fixed call.  [findRelocation]
    itself has no defined result on an instruction without the relocation,
    where it reads the end iterator.  What the two functions do with the
    result of the lookup does not depend on how that read comes out, so
    they are given here a second time with the lookup as a parameter: the
    same text, with [lookup] where the source calls [findRelocation].  With
    [findRelocation] for the parameter they are [can_stamp] and [stamp]
    (lemmas [can_stamp_with_findRelocation] and [stamp_with_findRelocation]
    below). *)



Definition can_stamp_body_with
  (lookup : Instruction_t -> string -> res (option Relocation_t))
  (ir : FileIR_t) (f : FuncPtr) (insn : InsnPtr) : res bool :=
  i <~ deref (ir_instructions ir) insn ;;
  let di := decoded i in
  let target := getTarget i in
  let icfs := getIBTargets i in
  reloc <~ lookup i fix_call_fallthrough_string ;;
  if isReturn di then Ok true
  else if isCall di || bool_decide (reloc <> None) then Ok true
  else
    exits <~ exits_function ir f target ;;
    if exits then
      if bool_decide (getFallthrough i <> None) then Ok false else Ok true
    else
      match icfs with
      | Some targets =>
          if isUnconditionalBranch di then
            _ <~ assert (bool_decide (getFallthrough i = None)) ;;
            _ <~ assert (negb (Nat.eqb (length (icfs_targets targets)) 0)) ;;
            leaver <~ find_if_res (target_leaves ir f) (icfs_targets targets) ;;
            stayer <~ find_if_res (target_stays ir f) (icfs_targets targets) ;;
            let might_leave := negb (Nat.eqb leaver (length (icfs_targets targets))) in
            let might_stay := negb (Nat.eqb stayer (length (icfs_targets targets))) in
            let definitely_stays := negb might_leave in
            let definitely_leaves := negb might_stay in
            if definitely_leaves || definitely_stays then Ok true
            else if might_leave || might_stay then Ok false
            else AssertFail
          else Ok true
      | None => Ok true
      end.

Fixpoint can_stamp_loop_with
  (lookup : Instruction_t -> string -> res (option Relocation_t))
  (ir : FileIR_t) (f : FuncPtr) (insns : list InsnPtr) : res bool :=
  match insns with
  | [] => Ok true
  | insn :: rest =>
      ok <~ can_stamp_body_with lookup ir f insn ;;
      if ok then can_stamp_loop_with lookup ir f rest else Ok false
  end.

Definition can_stamp_with
  (lookup : Instruction_t -> string -> res (option Relocation_t))
  (s : StackStamp_t) (f : FuncPtr) : res bool :=
  let ir := getFileIR s in
  fn <~ deref (ir_functions ir) f ;;
  if bool_decide (getEntryPoint fn = None) then Ok false
  else if String.eqb (getName fn) "_start" then Ok false
  else if Nat.leb (length (getInstructions fn)) 3 then Ok false
  else can_stamp_loop_with lookup ir f (getInstructions fn).

Definition stamp_body_with
  (lookup : Instruction_t -> string -> res (option Relocation_t))
  (f : FuncPtr) (s : StackStamp_t) (insn : InsnPtr) : res StackStamp_t :=
  let ir := getFileIR s in
  i <~ deref (ir_instructions ir) insn ;;
  let di := decoded i in
  let target := getTarget i in
  reloc <~ lookup i fix_call_fallthrough_string ;;
  let icfs := getIBTargets i in
  if isReturn di then stamp_insn s f (Some insn)
  else if isCall di || bool_decide (reloc <> None) then Ok s
  else
    exits <~ exits_function ir f target ;;
    if exits then
      _ <~ assert (bool_decide (getFallthrough i = None)) ;;
      stamp_insn s f (Some insn)
    else
      match icfs with
      | Some targets =>
          if isUnconditionalBranch di then
            _ <~ assert (bool_decide (getFallthrough i = None)) ;;
            _ <~ assert (negb (Nat.eqb (length (icfs_targets targets)) 0)) ;;
            leaver <~ find_if_res (target_leaves ir f) (icfs_targets targets) ;;
            stayer <~ find_if_res (target_stays ir f) (icfs_targets targets) ;;
            let might_leave := negb (Nat.eqb leaver (length (icfs_targets targets))) in
            let might_stay := negb (Nat.eqb stayer (length (icfs_targets targets))) in
            let definitely_leaves := negb might_stay in
            fn <~ deref (ir_functions ir) f ;;
            if bool_decide (Some insn = getEntryPoint fn) then
              stamp_insn s f (Some insn)
            else if definitely_leaves || (might_leave && negb (isComplete targets)) then
              stamp_insn s f (Some insn)
            else Ok s
          else Ok s
      | None => Ok s
      end.

Fixpoint stamp_loop_with
  (lookup : Instruction_t -> string -> res (option Relocation_t))
  (f : FuncPtr) (s : StackStamp_t) (old_f_insns : list InsnPtr) : res StackStamp_t :=
  match old_f_insns with
  | [] => Ok s
  | insn :: rest =>
      s' <~ stamp_body_with lookup f s insn ;;
      stamp_loop_with lookup f s' rest
  end.

Definition stamp_with
  (lookup : Instruction_t -> string -> res (option Relocation_t))
  (s : StackStamp_t) (f : FuncPtr) : res StackStamp_t :=
  ok <~ can_stamp_with lookup s f ;;
  if negb ok then
    n <~ int_incr (m_functions_not_transformed s) ;;
    Ok (set_functions_not_transformed n s)
  else
    fn <~ deref (ir_functions (getFileIR s)) f ;;
    _ <~ assert (bool_decide (getEntryPoint fn <> None)) ;;
    n <~ int_incr (m_functions_transformed s) ;;
    let s0 := set_functions_transformed n s in
    let old_f_insns := getInstructions fn in
    s1 <~ stamp_loop_with lookup f s0 old_f_insns ;;
    fn1 <~ deref (ir_functions (getFileIR s1)) f ;;
    s2 <~ stamp_insn s1 f (getEntryPoint fn1) ;;
    s3 <~ skip_stamp_loop f s2 old_f_insns ;;
    eh_update s3 f.

(** ** ss_driver.cpp *)

(** [StackStampDriver_t::executeStep]: the exit code of the step, 0 for
    success and 2 for errors.  The two [catch] clauses answer exceptions
    that the SDK throws while it materializes the IR; the modelled SDK
    throws none.  [ss_max_do_transform] is the environment of [execute]. *)
Definition executeStep (ss_max_do_transform : option string) (firp : FileIR_t)
  (stamp_value : N) (verbose : bool) : res Z :=
  r <~ execute ss_max_do_transform (StackStamp_new firp stamp_value verbose) ;;
  let success := snd r in
  Ok (if success then 0%Z else 2%Z).

(** * Definitions for the statements *)

(** ** Notions that the statements use *)

Definition insn_at (s : StackStamp_t) (p : InsnPtr) : option Instruction_t :=
  ir_instructions (getFileIR s) !! p.

Definition has_relocation (insn : Instruction_t) (type : string) : Prop :=
  exists r, r ∈ getRelocations insn /\ getType r = type.

(** The three counters of a state. *)
Definition counters (s : StackStamp_t) : Z * Z * Z :=
  (m_instructions_added s, m_functions_transformed s, m_functions_not_transformed s).

(** The text that [stamp(f, i)] assembles. *)
Definition stamp_text (bits : N) (stamp_value : StampValue_t) : string :=
  " xor dword [" +:+ (if N.eqb bits 64 then "rsp" else "esp") +:+ "], 0x"
    +:+ hex_string stamp_value.

(** The operand size that the text of an [xor] on memory asks for. *)
Definition assembly_operand_bits (text : string) : option N :=
  if String.prefix " xor dword " text then Some 32%N
  else if String.prefix " xor qword " text then Some 64%N
  else None.

(** [stamp(f, i)] on each instruction of a list, in order. *)
Fixpoint stamp_all (f : FuncPtr) (s : StackStamp_t) (sites : list InsnPtr)
  : res StackStamp_t :=
  match sites with
  | [] => Ok s
  | p :: rest => s' <~ stamp_insn s f (Some p) ;; stamp_all f s' rest
  end.

(** The number of stamps that a sequence of insertions puts before [x]. *)
Definition stamps_before (x : InsnPtr) (sites : list InsnPtr) : nat :=
  count_occ Nat.eq_dec sites x.

(** The decision that the body of the first loop of [stamp(f)] takes for an
    instruction: [Ok true] where it calls [stamp(f, insn)], [Ok false] where
    it leaves the instruction alone ([stamp_body_decision] below relates the
    two). *)
Definition stamp_decision (ir : FileIR_t) (f : FuncPtr) (insn : InsnPtr) : res bool :=
  i <~ deref (ir_instructions ir) insn ;;
  reloc <~ findRelocation i fix_call_fallthrough_string ;;
  if isReturn (decoded i) then Ok true
  else if isCall (decoded i) || bool_decide (reloc <> None) then Ok false
  else
    exits <~ exits_function ir f (getTarget i) ;;
    if exits then
      _ <~ assert (bool_decide (getFallthrough i = None)) ;; Ok true
    else
      match getIBTargets i with
      | Some targets =>
          if isUnconditionalBranch (decoded i) then
            _ <~ assert (bool_decide (getFallthrough i = None)) ;;
            _ <~ assert (negb (Nat.eqb (length (icfs_targets targets)) 0)) ;;
            leaver <~ find_if_res (target_leaves ir f) (icfs_targets targets) ;;
            stayer <~ find_if_res (target_stays ir f) (icfs_targets targets) ;;
            let might_leave := negb (Nat.eqb leaver (length (icfs_targets targets))) in
            let might_stay := negb (Nat.eqb stayer (length (icfs_targets targets))) in
            fn <~ deref (ir_functions ir) f ;;
            Ok (bool_decide (Some insn = getEntryPoint fn)
                || negb might_stay || (might_leave && negb (isComplete targets)))
          else Ok false
      | None => Ok false
      end.

(** What an insertion before [x] leaves in place: every other instruction,
    the function of every instruction, and the entry of every function. *)
Definition ir_frame (x : InsnPtr) (ir ir' : FileIR_t) : Prop :=
  (forall q i, ir_instructions ir !! q = Some i ->
     exists i', ir_instructions ir' !! q = Some i' /\
                getFunction i' = getFunction i /\ (q <> x -> i' = i)) /\
  (forall g fn, ir_functions ir !! g = Some fn ->
     exists fn', ir_functions ir' !! g = Some fn' /\
                 getEntryPoint fn' = getEntryPoint fn).

(** What the second loop of [stamp(f)] makes of an instruction, for the
    entry [e] and the fallthrough [ft] of the entry. *)
Definition patched (e : InsnPtr) (ft : option InsnPtr) (i : Instruction_t)
  : Instruction_t :=
  if bool_decide (getTarget i = Some e) && negb (isCall (decoded i))
  then setTarget ft i else i.

Definition same_pointer (x y : Relocation_t) : Prop := reloc_addr x = reloc_addr y.

(** Content equality of unwind programs, on the seven fields; relocation
    sets are sets of pointers and are equal when they hold the same
    pointers. *)
Definition same_content (a b : EhProgramPlaceHolder_t) : Prop :=
  caf a = caf b /\ daf a = daf b /\ rr a = rr b /\ ptrsize a = ptrsize b /\
  cie_program a = cie_program b /\ fde_program a = fde_program b /\
  map reloc_addr (relocs a) = map reloc_addr (relocs b).

(** Every entry of the cache points at a stored program whose content is the
    key of the entry, and no two entries have content-equal keys. *)
Definition cache_ok (s : StackStamp_t) : Prop :=
  (forall k h, (k, h) ∈ all_eh_pgms s ->
     exists o, ir_eh_programs (getFileIR s) !! h = Some o /\ placeholder_of o = k) /\
  (forall n1 n2 k1 h1 k2 h2,
     all_eh_pgms s !! n1 = Some (k1, h1) ->
     all_eh_pgms s !! n2 = Some (k2, h2) ->
     same_content k1 k2 -> n1 = n2).

(** [eh_update] over a list of functions, one after the other. *)
Fixpoint eh_update_all (s : StackStamp_t) (fs : list FuncPtr) : res StackStamp_t :=
  match fs with
  | [] => Ok s
  | f :: rest => s' <~ eh_update s f ;; eh_update_all s' rest
  end.

(** The instructions that [eh_update_all] goes over. *)
Definition function_instructions (s : StackStamp_t) (f : FuncPtr) : list InsnPtr :=
  match ir_functions (getFileIR s) !! f with
  | Some fn => getInstructions fn
  | None => []
  end.

Definition visited (s : StackStamp_t) (fs : list FuncPtr) : list InsnPtr :=
  concat (map (function_instructions s) fs).

(** The placeholder that [eh_update] derives from a stored program. *)
Definition derived (s : StackStamp_t) (o : EhProgram_t) : EhProgramPlaceHolder_t :=
  insert_fde
    (dwarf_instruction (getArchitectureBitWidth (getFileIR s)) (m_stamp_value s))
    (placeholder_of o).

(** The state [s] of a run of [eh_update_all] that started in [s0] and has
    updated the instructions in [V]. *)
Record sharing (s0 s : StackStamp_t) (V : InsnPtr -> Prop) : Prop := {
  sh_cache : cache_ok s;
  sh_programs :
    forall h o, ir_eh_programs (getFileIR s0) !! h = Some o ->
                ir_eh_programs (getFileIR s) !! h = Some o;
  sh_rest :
    forall q, ~ V q ->
      ir_instructions (getFileIR s) !! q = ir_instructions (getFileIR s0) !! q;
  sh_done :
    forall p i0 h0 o0,
      V p ->
      ir_instructions (getFileIR s0) !! p = Some i0 ->
      getEhProgram i0 = Some h0 ->
      ir_eh_programs (getFileIR s0) !! h0 = Some o0 ->
      exists i h,
        ir_instructions (getFileIR s) !! p = Some i /\
        getEhProgram i = Some h /\
        map_find (derived s0 o0) (all_eh_pgms s) = Some h;
  sh_functions : ir_functions (getFileIR s) = ir_functions (getFileIR s0);
  sh_bits : getArchitectureBitWidth (getFileIR s) = getArchitectureBitWidth (getFileIR s0);
  sh_stamp : m_stamp_value s = m_stamp_value s0
}.

(** ** Concrete programs

    [program] is an IR with a function [f] (pointer 0) of four instructions
    0..3 with entry 0, and a function [g] (pointer 1) that holds
    instruction 4, a return.  [findRelocation] has a defined result only on
    an instruction that carries a relocation of the requested type, so the
    programs that are run to the end carry the relocation [fixed_call] on
    every instruction of [f]. *)

Definition fixed_call : RelocationSet_t :=
  [ {| reloc_addr := 4096; getType := "fix_call_fallthrough" |} ].

(** An instruction of [f] without unwind program. *)
Definition insn (di : DecodedInstruction_t) (text : string)
  (target fallthrough : option InsnPtr) (icfs : option ICFS_t)
  (r : RelocationSet_t) : Instruction_t :=
  {| decoded := di; getDisassembly := text; getTarget := target;
     getFallthrough := fallthrough; getIBTargets := icfs; getRelocations := r;
     getEhProgram := None; getFunction := Some 0 |}.

Definition program (bits : N) (i0 i1 i2 i3 : Instruction_t) : FileIR_t :=
  {| getArchitectureBitWidth := bits;
     ir_instructions :=
       [ i0; i1; i2; i3;
         {| decoded := KReturn; getDisassembly := "ret"; getTarget := None;
            getFallthrough := None; getIBTargets := None; getRelocations := [];
            getEhProgram := None; getFunction := Some 1 |} ];
     ir_functions :=
       [ {| getName := "f"; getEntryPoint := Some 0; getInstructions := [0; 1; 2; 3] |};
         {| getName := "g"; getEntryPoint := Some 4; getInstructions := [4] |} ];
     ir_eh_programs := [];
     getAllEhPrograms := ∅ |}.

(** An instruction without relocations, and one whose only relocation has
    another type. *)
Definition nop_plain : Instruction_t :=
  insn KOther "nop" None (Some 1) None [].

Definition nop_other_reloc : Instruction_t :=
  insn KOther "nop" None (Some 1) None
    [ {| reloc_addr := 4096; getType := "32-bit" |} ].

(** The fixed call of a push/jump pair: a jump to [g] that carries the
    relocation, with the return site as its fallthrough in the first
    program and without fallthrough in the second. *)
Definition fixed_call_with_fallthrough : FileIR_t :=
  program 64
    (insn KOther "push 0x401000" None (Some 1) None fixed_call)
    (insn KOther "jmp g" (Some 4) (Some 2) None fixed_call)
    (insn KOther "nop" None (Some 3) None fixed_call)
    (insn KReturn "ret" None None None fixed_call).

Definition fixed_call_without_fallthrough : FileIR_t :=
  program 64
    (insn KOther "push 0x401000" None (Some 1) None fixed_call)
    (insn KOther "jmp g" (Some 4) None None fixed_call)
    (insn KOther "nop" None (Some 3) None fixed_call)
    (insn KReturn "ret" None None None fixed_call).

(** A function with an ordinary call to [g]: the call has its target in
    another function and the next instruction as fallthrough. *)
Definition call_with_fallthrough : FileIR_t :=
  program 64
    (insn KOther "nop" None (Some 1) None fixed_call)
    (insn KCall "call g" (Some 4) (Some 2) None fixed_call)
    (insn KOther "nop" None (Some 3) None fixed_call)
    (insn KReturn "ret" None None None fixed_call).


(** The entry of [f] is a return. *)
Definition return_at_entry : FileIR_t :=
  program 64
    (insn KReturn "ret" None None None fixed_call)
    (insn KOther "nop" None (Some 2) None fixed_call)
    (insn KOther "nop" None (Some 3) None fixed_call)
    (insn KReturn "ret" None None None fixed_call).

(** The entry of [f] is a one-instruction loop, a branch to itself with a
    fallthrough; instruction 2 also branches back to the entry. *)
Definition loop_at_entry : FileIR_t :=
  program 64
    (insn KOther "loop f" (Some 0) (Some 1) None fixed_call)
    (insn KOther "nop" None (Some 2) None fixed_call)
    (insn KOther "jne f" (Some 0) (Some 3) None fixed_call)
    (insn KReturn "ret" None None None fixed_call).

(** Instructions 0 and 1 of [f] have two stored programs of equal content,
    instruction 2 a different one, and instruction 4 of [g] shares the
    program of instruction 0. *)
Definition eh_example : FileIR_t :=
  {| getArchitectureBitWidth := 64;
     ir_instructions :=
       [ setEhProgram (Some 0) (insn KOther "push rbp" None (Some 1) None []);
         setEhProgram (Some 1) (insn KOther "mov rbp, rsp" None (Some 2) None []);
         setEhProgram (Some 2) (insn KOther "pop rbp" None (Some 3) None []);
         insn KReturn "ret" None None None [];
         {| decoded := KReturn; getDisassembly := "ret"; getTarget := None;
            getFallthrough := None; getIBTargets := None; getRelocations := [];
            getEhProgram := Some 0; getFunction := Some 1 |} ];
     ir_functions :=
       [ {| getName := "f"; getEntryPoint := Some 0; getInstructions := [0; 1; 2; 3] |};
         {| getName := "g"; getEntryPoint := Some 4; getInstructions := [4] |} ];
     ir_eh_programs :=
       [ {| getCodeAlignmentFactor := 1; getDataAlignmentFactor := -8;
            getReturnRegNumber := 16; getPointerSize := 8;
            getCIEProgram := [byte_string [0x0c; 0x07; 0x08]%N];
            getFDEProgram := [byte_string [0x0e; 0x10]%N];
            getEhRelocations := [] |};
         {| getCodeAlignmentFactor := 1; getDataAlignmentFactor := -8;
            getReturnRegNumber := 16; getPointerSize := 8;
            getCIEProgram := [byte_string [0x0c; 0x07; 0x08]%N];
            getFDEProgram := [byte_string [0x0e; 0x10]%N];
            getEhRelocations := [] |};
         {| getCodeAlignmentFactor := 1; getDataAlignmentFactor := -8;
            getReturnRegNumber := 16; getPointerSize := 8;
            getCIEProgram := [byte_string [0x0c; 0x07; 0x08]%N];
            getFDEProgram := [byte_string [0x0e; 0x08]%N];
            getEhRelocations := [] |} ];
     getAllEhPrograms := {[ 0; 1; 2 ]} |}.

(** ** Notions and programs for the further properties *)

(** Whether an instruction carries a relocation of a type. *)
Definition carries (type : string) (insn : Instruction_t) : bool :=
  existsb (fun reloc => String.eqb (getType reloc) type) (getRelocations insn).

(** The function-level tests of [can_stamp] that reject a function before
    any of its instructions is looked at. *)
Definition is_stub (fn : Function_t) : Prop :=
  getEntryPoint fn = None \/ getName fn = "_start" \/
  length (getInstructions fn) <= 3.

(** The bytes of a [std::string], and the number that a sequence of bytes
    encodes with the least significant byte first. *)
Fixpoint string_bytes (s : string) : list N :=
  match s with
  | EmptyString => []
  | String c s' => N_of_ascii c :: string_bytes s'
  end.

Fixpoint le_decode (bytes : list N) : N :=
  match bytes with
  | [] => 0
  | b :: rest => b + 256 * le_decode rest
  end.

(** Scenario E with the relocation on every instruction of [f] and the
    target set marked complete. *)
Definition ambiguous_branch_complete : FileIR_t :=
  program 64
    (insn KUnconditionalBranch "jmp qword [rax*8+0x402000]" None None
       (Some {| icfs_targets := [1; 4]; isComplete := true |}) fixed_call)
    (insn KOther "nop" None (Some 2) None fixed_call)
    (insn KOther "nop" None (Some 3) None fixed_call)
    (insn KReturn "ret" None None None fixed_call).

(** Two functions that [can_stamp] turns down at once: [_start] with four
    instructions and a stub of one. *)
Definition stubs_only : FileIR_t :=
  {| getArchitectureBitWidth := 64;
     ir_instructions :=
       [ insn KOther "xor ebp, ebp" None (Some 1) None [];
         insn KOther "mov rdi, rsp" None (Some 2) None [];
         insn KCall "call main" None (Some 3) None [];
         insn KOther "hlt" None None None [];
         {| decoded := KUnconditionalBranch; getDisassembly := "jmp qword [rip+0x2fe2]";
            getTarget := None; getFallthrough := None; getIBTargets := None;
            getRelocations := []; getEhProgram := None; getFunction := Some 1 |} ];
     ir_functions :=
       [ {| getName := "_start"; getEntryPoint := Some 0;
            getInstructions := [0; 1; 2; 3] |};
         {| getName := "puts@plt"; getEntryPoint := Some 4; getInstructions := [4] |} ];
     ir_eh_programs := [];
     getAllEhPrograms := ∅ |}.

(** The key by which [execute] orders a function: its name, then its
    pointer. *)
Definition function_key (ir : FileIR_t) (p : FuncPtr) : string * FuncPtr :=
  (match ir_functions ir !! p with Some fn => getName fn | None => EmptyString end, p).

(** Two functions that pass [can_stamp], with names in the reverse order of
    their pointers. *)
Definition two_functions : FileIR_t :=
  {| getArchitectureBitWidth := 32;
     ir_instructions :=
       [ insn KOther "push ebp" None (Some 1) None fixed_call;
         insn KOther "mov ebp, esp" None (Some 2) None fixed_call;
         insn KOther "pop ebp" None (Some 3) None fixed_call;
         insn KReturn "ret" None None None fixed_call;
         {| decoded := KOther; getDisassembly := "push ebx"; getTarget := None;
            getFallthrough := Some 5; getIBTargets := None; getRelocations := fixed_call;
            getEhProgram := None; getFunction := Some 1 |};
         {| decoded := KCall; getDisassembly := "call zeta"; getTarget := Some 0;
            getFallthrough := Some 6; getIBTargets := None; getRelocations := fixed_call;
            getEhProgram := None; getFunction := Some 1 |};
         {| decoded := KOther; getDisassembly := "pop ebx"; getTarget := None;
            getFallthrough := Some 7; getIBTargets := None; getRelocations := fixed_call;
            getEhProgram := None; getFunction := Some 1 |};
         {| decoded := KReturn; getDisassembly := "ret"; getTarget := None;
            getFallthrough := None; getIBTargets := None; getRelocations := fixed_call;
            getEhProgram := None; getFunction := Some 1 |} ];
     ir_functions :=
       [ {| getName := "zeta"; getEntryPoint := Some 0; getInstructions := [0; 1; 2; 3] |};
         {| getName := "alpha"; getEntryPoint := Some 4; getInstructions := [4; 5; 6; 7] |} ];
     ir_eh_programs := [];
     getAllEhPrograms := ∅ |}.

(** What a function record keeps through the transform: its name and its
    entry; its instructions stay, new ones are added at the end. *)
Definition function_kept (fn fn' : Function_t) : Prop :=
  getName fn' = getName fn /\
  getEntryPoint fn' = getEntryPoint fn /\
  getInstructions fn `prefix_of` getInstructions fn'.

(** What every step of the transform keeps, from a state [s] to a later
    state [s']. *)
Record extends (s s' : StackStamp_t) : Prop := {
  ext_bits :
    getArchitectureBitWidth (getFileIR s') = getArchitectureBitWidth (getFileIR s);
  ext_stamp : m_stamp_value s' = m_stamp_value s;
  ext_added :
    (Z.of_nat (length (ir_instructions (getFileIR s'))) - m_instructions_added s' =
     Z.of_nat (length (ir_instructions (getFileIR s))) - m_instructions_added s)%Z;
  ext_grows : (m_instructions_added s <= m_instructions_added s')%Z;
  ext_owner :
    forall q i, ir_instructions (getFileIR s) !! q = Some i ->
      exists i', ir_instructions (getFileIR s') !! q = Some i' /\
                 getFunction i' = getFunction i;
  ext_functions : Forall2 function_kept (ir_functions (getFileIR s)) (ir_functions (getFileIR s'));
  ext_programs : ir_eh_programs (getFileIR s) `prefix_of` ir_eh_programs (getFileIR s')
}.

(** An instruction with the relocation [fixed_call] in place of its own. *)
Definition with_fixed_call (i : Instruction_t) : Instruction_t :=
  {| decoded := decoded i; getDisassembly := getDisassembly i;
     getTarget := getTarget i; getFallthrough := getFallthrough i;
     getIBTargets := getIBTargets i; getRelocations := fixed_call;
     getEhProgram := getEhProgram i; getFunction := getFunction i |}.

(** [eh_example] with the relocation on every instruction. *)
Definition eh_example_fixed : FileIR_t :=
  set_instructions (map with_fixed_call (ir_instructions eh_example)) eh_example.

(** What [std::map] and [std::set] ask of a comparison: a strict weak
    ordering, here as irreflexivity, asymmetry and the property that an
    element between two ordered ones is ordered with one of them. *)
Record strict_weak {A} (lt : A -> A -> bool) : Prop := {
  sw_irrefl : forall a, lt a a = false;
  sw_asym : forall a b, lt a b = true -> lt b a = false;
  sw_cotrans : forall a b c, lt a c = true -> lt a b = true \/ lt b c = true
}.

(** Well-formedness of the pointers of a state: the instructions and the
    entry of every function exist, the function and the unwind program of
    every instruction exist, and so do the programs of the cache. *)
Definition pointer_ok (n : nat) (p : option nat) : bool :=
  match p with
  | Some x => Nat.ltb x n
  | None => true
  end.

Definition function_ok (insns : nat) (fn : Function_t) : bool :=
  forallb (fun p => Nat.ltb p insns) (getInstructions fn)
  && pointer_ok insns (getEntryPoint fn).

Definition instruction_ok (funcs ehs : nat) (i : Instruction_t) : bool :=
  pointer_ok funcs (getFunction i) && pointer_ok ehs (getEhProgram i).

Definition well_formed (s : StackStamp_t) : bool :=
  let ir := getFileIR s in
  forallb (function_ok (length (ir_instructions ir))) (ir_functions ir)
  && forallb (instruction_ok (length (ir_functions ir)) (length (ir_eh_programs ir)))
       (ir_instructions ir)
  && forallb (fun kv => Nat.ltb (snd kv) (length (ir_eh_programs ir))) (all_eh_pgms s).

(** The same, as three properties of the lists. *)
Record wf (s : StackStamp_t) : Prop := {
  wf_functions :
    Forall (fun fn => function_ok (length (ir_instructions (getFileIR s))) fn = true)
      (ir_functions (getFileIR s));
  wf_instructions :
    Forall (fun i => instruction_ok (length (ir_functions (getFileIR s)))
                       (length (ir_eh_programs (getFileIR s))) i = true)
      (ir_instructions (getFileIR s));
  wf_cache :
    Forall (fun kv => snd kv < length (ir_eh_programs (getFileIR s))) (all_eh_pgms s)
}.

(** An unconditional indirect branch that has a fallthrough, which the
    sanity check of [can_stamp] does not expect. *)
Definition indirect_branch_with_fallthrough : FileIR_t :=
  program 64
    (insn KOther "push rbp" None (Some 1) None fixed_call)
    (insn KUnconditionalBranch "jmp qword [rax*8+0x402000]" None (Some 2)
       (Some {| icfs_targets := [2; 3]; isComplete := true |}) fixed_call)
    (insn KOther "nop" None (Some 3) None fixed_call)
    (insn KReturn "ret" None None None fixed_call).

(** An instruction [x] that is the stamp put before [old], falling through
    to [n]. *)
Definition stamped (bits : N) (stamp_value : StampValue_t) (n : InsnPtr)
  (old x : Instruction_t) : Prop :=
  decoded x = KOther /\
  getDisassembly x = stamp_text bits stamp_value /\
  getTarget x = None /\
  getFallthrough x = Some n /\
  getFunction x = getFunction old.


(** * Properties *)

(** ** The monad *)

Lemma bind_Ok {A B} (c : res A) (k : A -> res B) (b : B) :
  bind c k = Ok b -> exists a, c = Ok a /\ k a = Ok b.
Proof. destruct c as [a| |]; simpl; intros H; try discriminate. eauto. Qed.

Lemma assert_Ok (b : bool) (u : unit) : assert b = Ok u -> b = true.
Proof. destruct b; simpl; [reflexivity | discriminate]. Qed.

Lemma deref_Ok {A} (heap : list A) (p : nat) (x : A) :
  deref heap p = Ok x <-> heap !! p = Some x.
Proof.
  unfold deref. destruct (heap !! p); split; intros H; congruence.
Qed.

(** Inversion of a chain of binds, asserts and reads in a hypothesis. *)
Ltac inv_res H :=
  let a := fresh "a" in
  let Ha := fresh "Ha" in
  lazymatch type of H with
  | bind _ _ = Ok _ => apply bind_Ok in H; destruct H as (a & Ha & H)
  | Ok _ = Ok _ => injection H as H
  | AssertFail = Ok _ => discriminate H
  | Undefined = Ok _ => discriminate H
  end.

(** The same for one bind, naming the value and the equation of its first
    computation. *)
Tactic Notation "inv_bind" hyp(H) "as" ident(x) ident(Hx) :=
  apply bind_Ok in H; destruct H as (x & Hx & H).

(** ** findRelocation *)

Lemma find_if_le {A} (p : A -> bool) (l : list A) : find_if p l <= length l.
Proof.
  induction l as [|x l IH]; simpl; [lia|]. destruct (p x); simpl; lia.
Qed.

Lemma find_if_end {A} (p : A -> bool) (l : list A) :
  find_if p l = length l <-> forall x, x ∈ l -> p x = false.
Proof.
  induction l as [|x l IH]; simpl.
  - split; [intros _ y Hy; inversion Hy | reflexivity].
  - destruct (p x) eqn:Hp.
    + split; [discriminate|]. intros H.
      rewrite (H x) in Hp; [discriminate | left].
    + split.
      * intros H y Hy. injection H as H.
        apply elem_of_cons in Hy as [-> | Hy]; [exact Hp | now apply IH].
      * intros H. f_equal. apply IH. intros y Hy. apply H. now right.
Qed.

Lemma has_relocation_dec (insn : Instruction_t) (type : string) :
  has_relocation insn type \/ ~ has_relocation insn type.
Proof.
  unfold has_relocation.
  induction (getRelocations insn) as [|r l IH].
  - right. intros (r & Hr & _). inversion Hr.
  - destruct (String.eqb_spec (getType r) type) as [He | Hne].
    + left. exists r. split; [left | exact He].
    + destruct IH as [(r' & Hr' & He) | Hno].
      * left. exists r'. split; [now right | exact He].
      * right. intros (r' & Hr' & He).
        apply elem_of_cons in Hr' as [-> | Hr']; [contradiction|].
        apply Hno. eauto.
Qed.

(** When the instruction carries a relocation of the type, the iterator
    differs from [end(relocs)] and the function returns [NULL]. *)
Lemma findRelocation_found (insn : Instruction_t) (type : string) :
  has_relocation insn type -> findRelocation insn type = Ok None.
Proof.
  intros (r & Hr & Ht). unfold findRelocation.
  destruct (Nat.eqb_spec
    (find_if (fun reloc => String.eqb (getType reloc) type) (getRelocations insn))
    (length (getRelocations insn))) as [He | Hne]; [|reflexivity].
  apply find_if_end with (x := r) in He; [|exact Hr].
  simpl in He. rewrite <- Ht in He. now rewrite String.eqb_refl in He.
Qed.

(** When it carries none, the iterator is [end(relocs)] and is read. *)
Lemma findRelocation_not_found (insn : Instruction_t) (type : string) :
  ~ has_relocation insn type -> findRelocation insn type = Undefined.
Proof.
  intros Hno. unfold findRelocation.
  assert (He : find_if (fun reloc => String.eqb (getType reloc) type)
                 (getRelocations insn) = length (getRelocations insn)).
  { apply find_if_end. intros x Hx.
    destruct (String.eqb_spec (getType x) type) as [Ht | Ht]; [|reflexivity].
    exfalso. apply Hno. exists x. auto. }
  rewrite He, Nat.eqb_refl. unfold deref_iter.
  rewrite (lookup_ge_None_2 (getRelocations insn) _ (Nat.le_refl _)).
  reflexivity.
Qed.

(** Whenever the lookup returns at all, it returns [NULL]. *)
Lemma findRelocation_Ok (insn : Instruction_t) (type : string) r :
  findRelocation insn type = Ok r -> r = None /\ has_relocation insn type.
Proof.
  intros H. destruct (has_relocation_dec insn type) as [Hy | Hn].
  - rewrite (findRelocation_found _ _ Hy) in H. injection H as <-. auto.
  - rewrite (findRelocation_not_found _ _ Hn) in H. discriminate.
Qed.

(** C10 (code defect).  [findRelocation] tests [find_it==end(relocs)] the
    wrong way round: on an instruction that has no relocation of the
    requested type -- an empty relocation set, or one with relocations of
    other types only -- the iterator is [end(relocs)] and [*find_it] is
    evaluated, which is undefined. *)
Theorem findRelocation_reads_end_iterator :
  findRelocation nop_plain fix_call_fallthrough_string = Undefined /\
  findRelocation nop_other_reloc fix_call_fallthrough_string = Undefined.
Proof. split; reflexivity. Qed.

(** C1 (code defect, in [findRelocation]).  A fixed call is not treated like
    a call: for an instruction that carries the "fix_call_fallthrough"
    relocation [findRelocation] returns [NULL], so [reloc!=NULL] is false and
    the instruction is classified by its other fields.  In the first program
    the fixed call makes [can_stamp] reject the function, in the second a
    stamp is inserted before it. *)
Theorem fixed_call_not_treated_as_call :
  findRelocation (insn KOther "jmp g" (Some 4) (Some 2) None fixed_call)
    fix_call_fallthrough_string = Ok None /\
  can_stamp (StackStamp_new fixed_call_with_fallthrough 0xbeef false) 0 = Ok false /\
  exists s',
    stamp (StackStamp_new fixed_call_without_fallthrough 0xbeef false) 0 = Ok s' /\
    getDisassembly <$> insn_at s' 1 = Some " xor dword [rsp], 0xbeef" /\
    getDisassembly <$> insn_at s' 5 = Some "jmp g".
Proof.
  split; [reflexivity|]. split; [vm_compute; reflexivity|].
  eexists. split; [vm_compute; reflexivity|]. split; reflexivity.
Qed.

(** ** can_stamp *)

(** The loop returns [false] at the first instruction whose check does,
    when the checks before it run to completion. *)
Lemma can_stamp_loop_reject (ir : FileIR_t) (f : FuncPtr)
  (pre : list InsnPtr) (i : InsnPtr) (post : list InsnPtr) :
  (forall j, j ∈ pre -> exists b, can_stamp_body ir f j = Ok b) ->
  can_stamp_body ir f i = Ok false ->
  can_stamp_loop ir f (pre ++ i :: post) = Ok false.
Proof.
  intros Hpre Hi. induction pre as [|j pre IH]; simpl.
  - now rewrite Hi.
  - destruct (Hpre j) as [b Hb]; [left|]. rewrite Hb. simpl.
    destruct b; [|reflexivity]. apply IH. intros k Hk. apply Hpre. now right.
Qed.

Lemma can_stamp_loop_accept (ir : FileIR_t) (f : FuncPtr) (l : list InsnPtr) :
  can_stamp_loop ir f l = Ok true <->
  forall j, j ∈ l -> can_stamp_body ir f j = Ok true.
Proof.
  induction l as [|j l IH]; simpl.
  - split; [intros _ k Hk; inversion Hk | reflexivity].
  - split.
    + intros H. inv_res H. destruct a; [|discriminate].
      intros k Hk. apply elem_of_cons in Hk as [-> | Hk]; [exact Ha|].
      now apply IH.
    + intros H. rewrite (H j); [simpl | left]. apply IH.
      intros k Hk. apply H. now right.
Qed.

(** The check of one instruction that is neither a return nor a call, has a
    direct target outside the function and a fallthrough: if it completes,
    it rejects. *)
Lemma can_stamp_body_conditional_exit (ir : FileIR_t) (f : FuncPtr)
  (p : InsnPtr) (i : Instruction_t) (b : bool) :
  ir_instructions ir !! p = Some i ->
  isReturn (decoded i) = false ->
  isCall (decoded i) = false ->
  exits_function ir f (getTarget i) = Ok true ->
  getFallthrough i <> None ->
  can_stamp_body ir f p = Ok b ->
  b = false.
Proof.
  intros Hp Hret Hcall Hexit Hft H. unfold can_stamp_body in H.
  rewrite (proj2 (deref_Ok _ _ _) Hp) in H. simpl in H.
  inv_res H. apply findRelocation_Ok in Ha as [-> _].
  rewrite Hret, Hcall, Hexit in H. simpl in H.
  rewrite bool_decide_eq_true_2 in H by exact Hft.
  now injection H.
Qed.

(** [find_if] with the two lambdas, on targets that can all be read. *)
Lemma find_if_res_found {A} (p : A -> res bool) (l : list A) (x : A) :
  (forall y, y ∈ l -> exists b, p y = Ok b) ->
  x ∈ l -> p x = Ok true ->
  exists n, find_if_res p l = Ok n /\ n < length l.
Proof.
  intros Hall Hx Hpx. induction l as [|y l IH]; [inversion Hx|].
  simpl. destruct (Hall y) as [b Hb]; [left|]. rewrite Hb. simpl.
  destruct b.
  - exists 0. split; [reflexivity | lia].
  - apply elem_of_cons in Hx as [-> | Hx]; [congruence|].
    destruct IH as (n & Hn & Hlt); [intros z Hz; apply Hall; now right | exact Hx |].
    rewrite Hn. simpl. exists (S n). split; [reflexivity | lia].
Qed.

(** The check of an unconditional branch with indirect targets, some inside
    and some outside the function: if it gets as far as the indirect-branch
    case, it rejects, whether or not the target set is complete. *)
Lemma can_stamp_body_ambiguous_branch (ir : FileIR_t) (f : FuncPtr)
  (p : InsnPtr) (i : Instruction_t) (targets : ICFS_t) (t_in t_out : InsnPtr) :
  ir_instructions ir !! p = Some i ->
  decoded i = KUnconditionalBranch ->
  findRelocation i fix_call_fallthrough_string = Ok None ->
  exits_function ir f (getTarget i) = Ok false ->
  getFallthrough i = None ->
  getIBTargets i = Some targets ->
  (forall t, t ∈ icfs_targets targets -> is_Some (ir_instructions ir !! t)) ->
  t_in ∈ icfs_targets targets -> target_stays ir f t_in = Ok true ->
  t_out ∈ icfs_targets targets -> target_leaves ir f t_out = Ok true ->
  can_stamp_body ir f p = Ok false.
Proof.
  intros Hp Hk Hrel Hexit Hft Hib Hread Hin Hstay Hout Hleave.
  unfold can_stamp_body. rewrite (proj2 (deref_Ok _ _ _) Hp). simpl.
  rewrite Hrel. simpl. rewrite Hk. simpl.
  rewrite Hexit. simpl. rewrite Hib, Hft. simpl.
  destruct (icfs_targets targets) as [|t0 ts] eqn:Hts; [inversion Hin|].
  rewrite <- Hts in *. replace (length (icfs_targets targets) =? 0) with false
    by (rewrite Hts; reflexivity). simpl.
  destruct (find_if_res_found (target_leaves ir f) (icfs_targets targets) t_out)
    as (n & Hn & Hlt); [|exact Hout|exact Hleave|].
  { intros y Hy. destruct (Hread y Hy) as [iy Hy']. unfold target_leaves.
    rewrite (proj2 (deref_Ok _ _ _) Hy'). simpl. eauto. }
  destruct (find_if_res_found (target_stays ir f) (icfs_targets targets) t_in)
    as (m & Hm & Hlt'); [|exact Hin|exact Hstay|].
  { intros y Hy. destruct (Hread y Hy) as [iy Hy']. unfold target_stays.
    rewrite (proj2 (deref_Ok _ _ _) Hy'). simpl. eauto. }
  rewrite Hn, Hm. simpl.
  destruct (Nat.eqb_spec n (length (icfs_targets targets))); [lia|].
  destruct (Nat.eqb_spec m (length (icfs_targets targets))); [lia|].
  reflexivity.
Qed.

Lemma can_stamp_skips (s : StackStamp_t) (f : FuncPtr) :
  can_stamp s f = Ok false ->
  (m_functions_not_transformed s < INT_MAX)%Z ->
  stamp s f =
    Ok (set_functions_not_transformed (m_functions_not_transformed s + 1) s).
Proof.
  intros Hc Hlt. unfold stamp. rewrite Hc. simpl. unfold int_incr.
  now rewrite (proj2 (Z.ltb_lt _ _) Hlt).
Qed.

(** The whole check, for an unconditional branch with indirect targets on
    both sides of the function boundary. *)
Lemma can_stamp_rejects_ambiguous_branch (s : StackStamp_t) (f : FuncPtr)
  (fn : Function_t) (pre : list InsnPtr) (p : InsnPtr) (post : list InsnPtr)
  (i : Instruction_t) (targets : ICFS_t) (t_in t_out : InsnPtr) :
  ir_functions (getFileIR s) !! f = Some fn ->
  getInstructions fn = pre ++ p :: post ->
  (forall j, j ∈ pre -> exists b, can_stamp_body (getFileIR s) f j = Ok b) ->
  ir_instructions (getFileIR s) !! p = Some i ->
  decoded i = KUnconditionalBranch ->
  findRelocation i fix_call_fallthrough_string = Ok None ->
  exits_function (getFileIR s) f (getTarget i) = Ok false ->
  getFallthrough i = None ->
  getIBTargets i = Some targets ->
  (forall t, t ∈ icfs_targets targets -> is_Some (ir_instructions (getFileIR s) !! t)) ->
  t_in ∈ icfs_targets targets -> target_stays (getFileIR s) f t_in = Ok true ->
  t_out ∈ icfs_targets targets -> target_leaves (getFileIR s) f t_out = Ok true ->
  can_stamp s f = Ok false.
Proof.
  intros Hf Hl Hrun Hp Hk Hrel Hexit Hft Hib Hread Hin Hstay Hout Hleave.
  unfold can_stamp. rewrite (proj2 (deref_Ok _ _ _) Hf). simpl.
  destruct (bool_decide _); [reflexivity|].
  destruct (String.eqb _ _); [reflexivity|].
  destruct (Nat.leb _ _); [reflexivity|].
  rewrite Hl. apply can_stamp_loop_reject; [exact Hrun|].
  exact (can_stamp_body_ambiguous_branch _ _ _ _ _ _ _
           Hp Hk Hrel Hexit Hft Hib Hread Hin Hstay Hout Hleave).
Qed.

(** *** The checks with the lookup as a parameter *)



Lemma can_stamp_loop_with_findRelocation (ir : FileIR_t) (f : FuncPtr)
  (l : list InsnPtr) :
  can_stamp_loop_with findRelocation ir f l = can_stamp_loop ir f l.
Proof.
  induction l as [|j l IH]; simpl; [reflexivity|].
  change (can_stamp_body_with findRelocation ir f j) with (can_stamp_body ir f j).
  now rewrite IH.
Qed.

Lemma can_stamp_with_findRelocation (s : StackStamp_t) (f : FuncPtr) :
  can_stamp_with findRelocation s f = can_stamp s f.
Proof.
  unfold can_stamp_with, can_stamp.
  destruct (deref (ir_functions (getFileIR s)) f) as [fn| |]; simpl; try reflexivity.
  now rewrite can_stamp_loop_with_findRelocation.
Qed.

Lemma stamp_loop_with_findRelocation (f : FuncPtr) (l : list InsnPtr) :
  forall s, stamp_loop_with findRelocation f s l = stamp_loop f s l.
Proof.
  induction l as [|j l IH]; intros s; simpl; [reflexivity|].
  change (stamp_body_with findRelocation f s j) with (stamp_body f s j).
  destruct (stamp_body f s j) as [s1| |]; simpl; [apply IH | reflexivity | reflexivity].
Qed.

Lemma stamp_with_findRelocation (s : StackStamp_t) (f : FuncPtr) :
  stamp_with findRelocation s f = stamp s f.
Proof.
  unfold stamp_with, stamp. rewrite can_stamp_with_findRelocation.
  destruct (can_stamp s f) as [[|]| |]; simpl; try reflexivity.
  destruct (deref (ir_functions (getFileIR s)) f) as [fn| |]; simpl; try reflexivity.
  destruct (assert _) as [u| |]; simpl; try reflexivity.
  destruct (int_incr _) as [n| |]; simpl; try reflexivity.
  now rewrite stamp_loop_with_findRelocation.
Qed.








(** ** stamp(f, i) *)

(** C4, the claim as stated fails: on a 64-bit target the stamp emitted
    before instruction 3 names the 64-bit stack register but has a 32-bit
    operand. *)
Lemma stamp_operand_is_32_bit_on_64_bit_target :
  let s := StackStamp_new return_at_entry 0xbeef false in
  getArchitectureBitWidth (getFileIR s) = 64%N /\
  exists s' i',
    stamp_insn s 0 (Some 3) = Ok s' /\
    insn_at s' 3 = Some i' /\
    getDisassembly i' = " xor dword [rsp], 0xbeef" /\
    assembly_operand_bits (getDisassembly i') = Some 32%N.
Proof.
  split; [reflexivity|]. eexists. eexists.
  split; [vm_compute; reflexivity|]. split; [reflexivity|].
  split; reflexivity.
Qed.

(** C4 (amended).  Every stamp insertion emits an [xor] of the word at the
    top of the stack with the stamp value whose stack register is named by
    the pointer width ([rsp] on a 64-bit target, [esp] otherwise) and whose
    operand is 32 bits wide on both; the stamp takes the place of the
    protected instruction and falls through to a new instruction that holds
    the original content, and the count of added instructions grows by
    one. *)
Theorem stamp_insn_inserts_before (s : StackStamp_t) (f : FuncPtr)
  (p : InsnPtr) (old : Instruction_t) :
  ir_instructions (getFileIR s) !! p = Some old ->
  (forall g, getFunction old = Some g -> is_Some (ir_functions (getFileIR s) !! g)) ->
  (m_instructions_added s < INT_MAX)%Z ->
  let text := stamp_text (getArchitectureBitWidth (getFileIR s)) (m_stamp_value s) in
  let after := length (ir_instructions (getFileIR s)) in
  exists s',
    stamp_insn s f (Some p) = Ok s' /\
    insn_at s' p =
      Some {| decoded := KOther; getDisassembly := text; getTarget := None;
              getFallthrough := Some after; getIBTargets := None;
              getRelocations := []; getEhProgram := getEhProgram old;
              getFunction := getFunction old |} /\
    insn_at s' after = Some old /\
    assembly_operand_bits text = Some 32%N /\
    m_instructions_added s' = (m_instructions_added s + 1)%Z.
Proof.
  intros Hp Hg Hlt text after.
  assert (Hlen : p < length (ir_instructions (getFileIR s)))
    by (eapply lookup_lt_Some; eauto).
  unfold stamp_insn, insertAssemblyBefore, int_incr.
  rewrite (proj2 (deref_Ok _ _ _) Hp). simpl.
  rewrite (proj2 (Z.ltb_lt _ _) Hlt).
  assert (Hshape : forall insns' : list Instruction_t,
    insns' = <[p := {| decoded := KOther; getDisassembly := text; getTarget := None;
                       getFallthrough := Some after; getIBTargets := None;
                       getRelocations := []; getEhProgram := getEhProgram old;
                       getFunction := getFunction old |}]>
               (ir_instructions (getFileIR s)) ++ [old] ->
    insns' !! p = Some {| decoded := KOther; getDisassembly := text; getTarget := None;
                          getFallthrough := Some after; getIBTargets := None;
                          getRelocations := []; getEhProgram := getEhProgram old;
                          getFunction := getFunction old |} /\
    insns' !! after = Some old).
  { intros insns' ->. split.
    - rewrite lookup_app_l by (rewrite length_insert; exact Hlen).
      now apply list_lookup_insert_eq.
    - rewrite lookup_app_r by (rewrite length_insert; unfold after; lia).
      rewrite length_insert. unfold after. now rewrite Nat.sub_diag. }
  destruct (getFunction old) as [g|] eqn:Hfun.
  - destruct (Hg g eq_refl) as [fg Hfg].
    rewrite (proj2 (deref_Ok _ _ _) Hfg). simpl.
    eexists. split; [reflexivity|]. unfold insn_at. simpl.
    destruct (Hshape _ eq_refl) as [H1 H2].
    split; [exact H1|]. split; [exact H2|]. split; reflexivity.
  - simpl. eexists. split; [reflexivity|]. unfold insn_at. simpl.
    destruct (Hshape _ eq_refl) as [H1 H2].
    split; [exact H1|]. split; [exact H2|]. split; reflexivity.
Qed.

Lemma stamp_insn_inserts_before_witness :
  exists s',
    stamp_insn (StackStamp_new return_at_entry 0xbeef false) 0 (Some 3) = Ok s' /\
    insn_at s' 3 =
      Some {| decoded := KOther; getDisassembly := " xor dword [rsp], 0xbeef";
              getTarget := None; getFallthrough := Some 5; getIBTargets := None;
              getRelocations := []; getEhProgram := None; getFunction := Some 0 |} /\
    insn_at s' 5 = Some (insn KReturn "ret" None None None fixed_call) /\
    assembly_operand_bits " xor dword [rsp], 0xbeef" = Some 32%N /\
    m_instructions_added s' = 1%Z.
Proof.
  apply (stamp_insn_inserts_before (StackStamp_new return_at_entry 0xbeef false) 0 3
           (insn KReturn "ret" None None None fixed_call)).
  - reflexivity.
  - intros g Hg. injection Hg as <-. eexists. reflexivity.
  - reflexivity.
Defined.

(** ** cleanup_eh_pgms *)

Lemma cleanup_fold_elem (l : list Instruction_t) (acc : gset EhPtr) (p : EhPtr) :
  p ∈ foldl (fun (acc : gset EhPtr) insn =>
               match getEhProgram insn with
               | Some eh_pgm => {[ eh_pgm ]} ∪ acc
               | None => acc
               end) acc l
  <-> p ∈ acc \/ exists i, i ∈ l /\ getEhProgram i = Some p.
Proof.
  revert acc. induction l as [|i l IH]; intros acc; simpl.
  - split; [now left|]. intros [H | (i & Hi & _)]; [exact H | inversion Hi].
  - rewrite IH. split.
    + intros [H | (j & Hj & He)].
      * destruct (getEhProgram i) as [q|] eqn:Hq; [|now left].
        apply elem_of_union in H as [H | H]; [|now left].
        apply elem_of_singleton in H as ->. right. exists i. split; [left | exact Hq].
      * right. exists j. split; [now right | exact He].
    + intros [H | (j & Hj & He)].
      * left. destruct (getEhProgram i); [|exact H].
        apply elem_of_union. now right.
      * apply elem_of_cons in Hj as [-> | Hj].
        -- left. rewrite He. apply elem_of_union. left. now apply elem_of_singleton.
        -- right. exists j. auto.
Qed.

(** C8.  After [cleanup_eh_pgms] the registry of unwind programs is the set
    of the programs that the instructions of the program reference: a
    pointer is in the registry exactly when some instruction has it as its
    unwind program.  The instructions themselves are left as they were. *)
Theorem cleanup_eh_pgms_registry (s : StackStamp_t) :
  ir_instructions (getFileIR (cleanup_eh_pgms s)) = ir_instructions (getFileIR s) /\
  forall p : EhPtr,
    p ∈ getAllEhPrograms (getFileIR (cleanup_eh_pgms s)) <->
    exists q i, insn_at (cleanup_eh_pgms s) q = Some i /\ getEhProgram i = Some p.
Proof.
  split; [reflexivity|]. intros p. unfold insn_at. simpl.
  rewrite cleanup_fold_elem. split.
  - intros [H | (i & Hi & He)]; [now apply not_elem_of_empty in H|].
    apply list_elem_of_lookup in Hi as [q Hq]. eauto.
  - intros (q & i & Hq & He). right. exists i. split; [|exact He].
    apply list_elem_of_lookup. eauto.
Qed.

(** ** execute *)

(** C9 (code defect).  The loop of [execute] bypasses a function only when
    the number of transformed functions is already greater than the cap, so
    one function more than the cap is transformed: with
    [SS_MAX_DO_TRANSFORM=0] the function [f] is stamped (and [g], which
    comes after it, is bypassed: it is counted neither as transformed nor as
    skipped). *)
Theorem cap_is_exceeded_by_one :
  atoi "0" = Ok 0%Z /\
  exists s',
    execute (Some "0") (StackStamp_new call_with_fallthrough 0xbeef false)
      = Ok (s', true) /\
    m_functions_transformed s' = 1%Z /\
    m_functions_not_transformed s' = 0%Z /\
    m_instructions_added s' = 2%Z.
Proof.
  split; [reflexivity|]. eexists. split; [vm_compute; reflexivity|].
  split; [reflexivity|]. split; reflexivity.
Qed.

(** ** The entry-skip patch *)

(** C7 (code defect).  The patch goes over the copy of the instruction set
    taken before stamping and reads targets after stamping.  The entry,
    whose target was the entry and which is no call, has been overwritten by
    the stamp: its target is null, not the fallthrough of the entry, and its
    original content, moved to the new instruction 6, is not in the copy
    and still branches to the entry, that is to the stamp.  Instruction 2 is
    patched as the claim says. *)
Theorem entry_loop_is_not_patched :
  let s := StackStamp_new loop_at_entry 0xbeef false in
  (getTarget <$> insn_at s 0) = Some (Some 0) /\
  (isCall ∘ decoded <$> insn_at s 0) = Some false /\
  exists s',
    stamp s 0 = Ok s' /\
    (getFallthrough <$> insn_at s' 0) = Some (Some 6) /\
    (getTarget <$> insn_at s' 0) = Some None /\
    (getDisassembly <$> insn_at s' 6) = Some "loop f" /\
    (getTarget <$> insn_at s' 6) = Some (Some 0) /\
    (getTarget <$> insn_at s' 2) = Some (Some 6).
Proof.
  split; [reflexivity|]. split; [reflexivity|].
  eexists. split; [vm_compute; reflexivity|].
  repeat split; reflexivity.
Qed.

(** ** The order on placeholders and the cache *)

Section Lexicographic.
Context {A : Type} (lt : A -> A -> bool) (R : A -> A -> Prop).
Hypothesis lt_total : forall x y, lt x y = false -> lt y x = false -> R x y.
Hypothesis lt_irrefl : forall x y, R x y -> lt x y = false /\ lt y x = false.

Lemma lexicographical_compare_total (l1 l2 : list A) :
  lexicographical_compare lt l1 l2 = false ->
  lexicographical_compare lt l2 l1 = false ->
  Forall2 R l1 l2.
Proof using lt_total.
  revert l2. induction l1 as [|x l1 IH]; intros [|y l2]; simpl;
    try discriminate; [constructor|].
  destruct (lt x y) eqn:Hxy; [discriminate|].
  destruct (lt y x) eqn:Hyx; [discriminate|].
  intros H1 H2. constructor; [now apply lt_total | now apply IH].
Qed.

Lemma lexicographical_compare_irrefl (l1 l2 : list A) :
  Forall2 R l1 l2 ->
  lexicographical_compare lt l1 l2 = false /\
  lexicographical_compare lt l2 l1 = false.
Proof using lt_irrefl.
  induction 1 as [|x y l1 l2 Hxy _ IH]; simpl; [auto|].
  destruct (lt_irrefl x y Hxy) as [-> ->]. exact IH.
Qed.
End Lexicographic.

Lemma string_compare_refl (a : string) : String.compare a a = Eq.
Proof.
  pose proof (String.compare_antisym a a) as H.
  destruct (String.compare a a); simpl in H; congruence.
Qed.

Lemma string_ltb_total (a b : string) :
  String.ltb a b = false -> String.ltb b a = false -> a = b.
Proof.
  unfold String.ltb. rewrite (String.compare_antisym b a).
  destruct (String.compare a b) eqn:Hc; simpl; try discriminate.
  intros _ _. now apply String.compare_eq_iff.
Qed.

Lemma string_ltb_irrefl (a b : string) :
  a = b -> String.ltb a b = false /\ String.ltb b a = false.
Proof. intros ->. unfold String.ltb. now rewrite string_compare_refl. Qed.

Lemma listing_lt_total (a b : EhProgramListing_t) :
  listing_lt a b = false -> listing_lt b a = false -> a = b.
Proof.
  intros H1 H2. apply list_eq_Forall2.
  now apply (lexicographical_compare_total String.ltb eq string_ltb_total).
Qed.

Lemma listing_lt_irrefl (a : EhProgramListing_t) : listing_lt a a = false.
Proof.
  apply (lexicographical_compare_irrefl String.ltb eq string_ltb_irrefl).
  now apply list_eq_Forall2.
Qed.

Lemma same_pointers_map (a b : RelocationSet_t) :
  Forall2 same_pointer a b <-> map reloc_addr a = map reloc_addr b.
Proof.
  split.
  - induction 1 as [|x y a b Hxy _ IH]; simpl; [reflexivity|].
    unfold same_pointer in Hxy. congruence.
  - revert b. induction a as [|x a IH]; intros [|y b]; simpl; try discriminate.
    + constructor.
    + intros H. injection H as Hxy H. constructor; [exact Hxy | now apply IH].
Qed.

Lemma relocset_lt_total (a b : RelocationSet_t) :
  relocset_lt a b = false -> relocset_lt b a = false ->
  map reloc_addr a = map reloc_addr b.
Proof.
  intros H1 H2. apply same_pointers_map.
  apply (lexicographical_compare_total reloc_ptr_lt same_pointer); [|exact H1|exact H2].
  unfold reloc_ptr_lt, same_pointer. intros x y Hxy Hyx.
  apply N.ltb_ge in Hxy, Hyx. lia.
Qed.

Lemma relocset_lt_irrefl (a b : RelocationSet_t) :
  map reloc_addr a = map reloc_addr b ->
  relocset_lt a b = false /\ relocset_lt b a = false.
Proof.
  intros H. apply same_pointers_map in H.
  apply (lexicographical_compare_irrefl reloc_ptr_lt same_pointer); [|exact H].
  unfold reloc_ptr_lt, same_pointer. intros x y ->.
  now rewrite N.ltb_irrefl.
Qed.

Lemma same_content_refl (a : EhProgramPlaceHolder_t) : same_content a a.
Proof. unfold same_content. tauto. Qed.

Lemma same_content_sym (a b : EhProgramPlaceHolder_t) :
  same_content a b -> same_content b a.
Proof. unfold same_content. intuition congruence. Qed.

Lemma same_content_trans (a b c : EhProgramPlaceHolder_t) :
  same_content a b -> same_content b c -> same_content a c.
Proof. unfold same_content. intuition congruence. Qed.

Lemma tie_step_total (x y r r' : bool) :
  tie_step x y r = false -> tie_step y x r' = false ->
  x = false /\ y = false /\ r = false /\ r' = false.
Proof. destruct x, y; simpl; try discriminate; auto. Qed.

(** Neither placeholder is less than the other exactly when the two are
    equal on all seven fields. *)
Lemma placeholder_equiv_same_content (a b : EhProgramPlaceHolder_t) :
  placeholder_equiv a b = true <-> same_content a b.
Proof.
  unfold placeholder_equiv. rewrite andb_true_iff, !negb_true_iff. split.
  - intros [H1 H2]. unfold placeholder_lt in H1, H2.
    destruct (tie_step_total _ _ _ _ H1 H2) as (Hc1 & Hc2 & H3 & H4).
    destruct (tie_step_total _ _ _ _ H3 H4) as (Hd1 & Hd2 & H5 & H6).
    destruct (tie_step_total _ _ _ _ H5 H6) as (Hr1 & Hr2 & H7 & H8).
    destruct (tie_step_total _ _ _ _ H7 H8) as (Hp1 & Hp2 & H9 & H10).
    destruct (tie_step_total _ _ _ _ H9 H10) as (Hi1 & Hi2 & H11 & H12).
    destruct (tie_step_total _ _ _ _ H11 H12) as (Hf1 & Hf2 & H13 & H14).
    destruct (tie_step_total _ _ _ _ H13 H14) as (Hs1 & Hs2 & _ & _).
    apply Z.ltb_ge in Hc1, Hc2, Hd1, Hd2, Hr1, Hr2, Hp1, Hp2.
    repeat split; try lia.
    + now apply listing_lt_total.
    + now apply listing_lt_total.
    + now apply relocset_lt_total.
  - intros (Hc & Hd & Hr & Hp & Hi & Hf & Hs). unfold placeholder_lt.
    rewrite Hc, Hd, Hr, Hp, Hi, Hf, !Z.ltb_irrefl, !listing_lt_irrefl.
    destruct (relocset_lt_irrefl _ _ Hs) as [-> ->]. simpl. auto.
Qed.

Lemma placeholder_equiv_false (a b : EhProgramPlaceHolder_t) :
  placeholder_equiv a b = false <-> ~ same_content a b.
Proof.
  rewrite <- placeholder_equiv_same_content. destruct (placeholder_equiv a b); split;
    intros H; congruence.
Qed.

(** The map, as the list of its entries. *)

Lemma map_find_Some (k : EhProgramPlaceHolder_t)
  (m : list (EhProgramPlaceHolder_t * EhPtr)) (v : EhPtr) :
  map_find k m = Some v ->
  exists k', (k', v) ∈ m /\ same_content k k'.
Proof.
  induction m as [|[k' v'] m IH]; simpl; [discriminate|].
  destruct (placeholder_equiv k k') eqn:He.
  - intros H. injection H as ->. exists k'. split; [left|].
    now apply placeholder_equiv_same_content.
  - intros H. destruct (IH H) as (k'' & Hin & Hs). exists k''. split; [now right | exact Hs].
Qed.

Lemma map_find_None (k : EhProgramPlaceHolder_t)
  (m : list (EhProgramPlaceHolder_t * EhPtr)) :
  map_find k m = None <-> forall k' v, (k', v) ∈ m -> ~ same_content k k'.
Proof.
  induction m as [|[k' v'] m IH]; simpl.
  - split; [intros _ k' v H; inversion H | reflexivity].
  - destruct (placeholder_equiv k k') eqn:He.
    + split; [discriminate|]. intros H. exfalso.
      apply (H k' v'); [left | now apply placeholder_equiv_same_content].
    + rewrite IH. split.
      * intros H k'' v Hin. apply elem_of_cons in Hin as [Heq | Hin].
        -- injection Heq as -> ->. now apply placeholder_equiv_false.
        -- now apply (H k'' v).
      * intros H k'' v Hin. apply (H k'' v). now right.
Qed.

Lemma map_find_same_content (k1 k2 : EhProgramPlaceHolder_t)
  (m : list (EhProgramPlaceHolder_t * EhPtr)) :
  same_content k1 k2 -> map_find k1 m = map_find k2 m.
Proof.
  intros Hs. induction m as [|[k' v'] m IH]; simpl; [reflexivity|].
  destruct (placeholder_equiv k1 k') eqn:H1, (placeholder_equiv k2 k') eqn:H2;
    try reflexivity; try exact IH.
  - apply placeholder_equiv_same_content in H1. apply placeholder_equiv_false in H2.
    exfalso. apply H2. eapply same_content_trans; [apply same_content_sym|]; eauto.
  - apply placeholder_equiv_same_content in H2. apply placeholder_equiv_false in H1.
    exfalso. apply H1. eapply same_content_trans; eauto.
Qed.

Lemma map_assign_new (k : EhProgramPlaceHolder_t) (v : EhPtr)
  (m : list (EhProgramPlaceHolder_t * EhPtr)) :
  map_find k m = None -> map_assign k v m = m ++ [(k, v)].
Proof.
  induction m as [|[k' v'] m IH]; simpl; [reflexivity|].
  destruct (placeholder_equiv k k'); [discriminate|].
  intros H. now rewrite IH.
Qed.

Lemma map_find_app (k : EhProgramPlaceHolder_t)
  (m1 m2 : list (EhProgramPlaceHolder_t * EhPtr)) :
  map_find k (m1 ++ m2) =
    match map_find k m1 with Some v => Some v | None => map_find k m2 end.
Proof.
  induction m1 as [|[k' v'] m1 IH]; simpl; [reflexivity|].
  destruct (placeholder_equiv k k'); [reflexivity | exact IH].
Qed.

(** ** eh_update *)

(** What one turn of the loop of [eh_update] does to an instruction that has
    an unwind program [o0]: the instruction points at the program that the
    cache holds for the derived placeholder. *)
Lemma eh_update_body_step (dwarf : EhProgramInstruction_t)
  (s s' : StackStamp_t) (p : InsnPtr) :
  cache_ok s ->
  eh_update_body dwarf s p = Ok s' ->
  exists i,
    ir_instructions (getFileIR s) !! p = Some i /\
    (forall q, q <> p ->
       ir_instructions (getFileIR s') !! q = ir_instructions (getFileIR s) !! q) /\
    (forall h o, ir_eh_programs (getFileIR s) !! h = Some o ->
       ir_eh_programs (getFileIR s') !! h = Some o) /\
    (forall k v, map_find k (all_eh_pgms s) = Some v ->
       map_find k (all_eh_pgms s') = Some v) /\
    cache_ok s' /\
    ir_functions (getFileIR s') = ir_functions (getFileIR s) /\
    getArchitectureBitWidth (getFileIR s') = getArchitectureBitWidth (getFileIR s) /\
    m_stamp_value s' = m_stamp_value s /\
    match getEhProgram i with
    | None => ir_instructions (getFileIR s') !! p = Some i
    | Some h0 =>
        exists o0 h,
          ir_eh_programs (getFileIR s) !! h0 = Some o0 /\
          ir_instructions (getFileIR s') !! p = Some (setEhProgram (Some h) i) /\
          map_find (insert_fde dwarf (placeholder_of o0)) (all_eh_pgms s') = Some h
    end.
Proof.
  intros [Hobj Huniq] H. unfold eh_update_body in H.
  inv_res H. rename a into i. apply deref_Ok in Ha. exists i. split; [exact Ha|].
  destruct (getEhProgram i) as [h0|] eqn:Heh.
  2:{ injection H as <-. repeat split; auto. }
  inv_res H. rename a into o0. apply deref_Ok in Ha0.
  set (nep := insert_fde dwarf (placeholder_of o0)) in *.
  destruct (map_find nep (all_eh_pgms s)) as [reuse|] eqn:Hfind.
  - (* the program is in the cache: share it *)
    injection H as <-. simpl.
    split; [intros q Hq; now apply list_lookup_alter_ne|].
    split; [auto|]. split; [auto|]. split; [split; assumption|].
    split; [reflexivity|]. split; [reflexivity|]. split; [reflexivity|].
    exists o0, reuse. split; [exact Ha0|]. split; [|exact Hfind].
    now rewrite list_lookup_alter_eq, Ha.
  - (* a new program is stored and recorded in the cache *)
    simpl in H. injection H as <-. simpl.
    rewrite (map_assign_new _ _ _ Hfind).
    replace (alter (setRelocations (relocs nep)) (length (ir_eh_programs (getFileIR s)))
               (ir_eh_programs (getFileIR s) ++ _))
      with (ir_eh_programs (getFileIR s) ++
            [ {| getCodeAlignmentFactor := caf nep; getDataAlignmentFactor := daf nep;
                 getReturnRegNumber := rr nep; getPointerSize := ptrsize nep;
                 getCIEProgram := cie_program nep; getFDEProgram := fde_program nep;
                 getEhRelocations := relocs nep |} ]).
    2:{ rewrite alter_app_r_alt by lia. now rewrite Nat.sub_diag. }
    assert (Hext : forall h o, ir_eh_programs (getFileIR s) !! h = Some o ->
              (ir_eh_programs (getFileIR s) ++
               [ {| getCodeAlignmentFactor := caf nep; getDataAlignmentFactor := daf nep;
                    getReturnRegNumber := rr nep; getPointerSize := ptrsize nep;
                    getCIEProgram := cie_program nep; getFDEProgram := fde_program nep;
                    getEhRelocations := relocs nep |} ]) !! h = Some o).
    { intros h o Hh. rewrite lookup_app_l; [exact Hh | eapply lookup_lt_Some; eauto]. }
    split; [intros q Hq; now apply list_lookup_alter_ne|].
    split; [exact Hext|].
    split.
    { intros k v Hk. now rewrite map_find_app, Hk. }
    split.
    { unfold cache_ok. simpl. split.
      - intros k h Hin. apply elem_of_app in Hin as [Hin | Hin].
        + destruct (Hobj k h Hin) as (o & Ho & Hk). exists o. split; [now apply Hext | exact Hk].
        + apply list_elem_of_singleton in Hin. injection Hin as -> ->.
          eexists. split.
          * rewrite lookup_app_r by lia. rewrite Nat.sub_diag. reflexivity.
          * reflexivity.
      - intros n1 n2 k1 h1 k2 h2 H1 H2 Hs.
        pose proof (proj1 (map_find_None _ _) Hfind) as Hnone.
        apply lookup_app_Some in H1 as [H1 | [Hl1 H1]];
          apply lookup_app_Some in H2 as [H2 | [Hl2 H2]].
        + eapply Huniq; eauto.
        + exfalso. apply list_lookup_singleton_Some in H2 as [_ Heq].
          injection Heq as <- <-.
          apply (Hnone k1 h1); [eapply list_elem_of_lookup_2; eauto|].
          now apply same_content_sym.
        + exfalso. apply list_lookup_singleton_Some in H1 as [_ Heq].
          injection Heq as <- <-.
          apply (Hnone k2 h2); [eapply list_elem_of_lookup_2; eauto | exact Hs].
        + apply list_lookup_singleton_Some in H1 as [H1 _].
          apply list_lookup_singleton_Some in H2 as [H2 _]. lia. }
    split; [reflexivity|]. split; [reflexivity|]. split; [reflexivity|].
    exists o0, (length (ir_eh_programs (getFileIR s))).
    split; [exact Ha0|]. split.
    + now rewrite list_lookup_alter_eq, Ha.
    + fold nep. rewrite map_find_app, Hfind.
      cbn [map_find].
      now rewrite (proj2 (placeholder_equiv_same_content nep nep) (same_content_refl nep)).
Qed.

Lemma sharing_ext (s0 s : StackStamp_t) (V V' : InsnPtr -> Prop) :
  (forall q, V q <-> V' q) -> sharing s0 s V -> sharing s0 s V'.
Proof.
  intros Hext [H1 H2 H3 H4 H5 H6 H7]. constructor; auto.
  - intros q Hq. apply H3. now rewrite Hext.
  - intros p i0 h0 o0 Hp. apply H4. now rewrite Hext.
Qed.

Lemma sharing_start (s0 : StackStamp_t) :
  all_eh_pgms s0 = [] -> sharing s0 s0 (fun _ => False).
Proof.
  intros Hc. constructor; auto.
  - split.
    + intros k h Hin. rewrite Hc in Hin. inversion Hin.
    + intros n1 n2 k1 h1 k2 h2 H1. rewrite Hc in H1. discriminate.
  - intros p i0 h0 o0 [].
Qed.

Lemma sharing_body (s0 s s' : StackStamp_t) (V : InsnPtr -> Prop) (p : InsnPtr) :
  sharing s0 s V -> ~ V p ->
  eh_update_body
    (dwarf_instruction (getArchitectureBitWidth (getFileIR s0)) (m_stamp_value s0))
    s p = Ok s' ->
  sharing s0 s' (fun q => q = p \/ V q).
Proof.
  intros [Hc Hpr Hrest Hdone Hf Hb Hst] Hp H.
  destruct (eh_update_body_step _ _ _ _ Hc H)
    as (i & Hi & Hother & Hext & Hfind & Hc' & Hf' & Hb' & Hst' & Hcase).
  constructor; [exact Hc' | | | | congruence | congruence | congruence].
  - intros h o Ho. apply Hext. now apply Hpr.
  - intros q Hq. rewrite Hother by (intros ->; apply Hq; now left).
    apply Hrest. intros Hv. apply Hq. now right.
  - intros q i0 h0 o0 [-> | Hq] Hi0 Hh0 Ho0.
    + rewrite (Hrest p Hp) in Hi. assert (i = i0) as -> by congruence.
      rewrite Hh0 in Hcase. destruct Hcase as (o & h & Ho & Hi' & Hm).
      assert (o = o0) as -> by (apply Hpr in Ho0; congruence).
      exists (setEhProgram (Some h) i0), h. split; [exact Hi'|]. split; [reflexivity|].
      exact Hm.
    + destruct (Hdone q i0 h0 o0 Hq Hi0 Hh0 Ho0) as (i' & h & Hi' & Hh & Hm).
      exists i', h. split; [|split; [exact Hh | now apply Hfind]].
      rewrite Hother; [exact Hi' | intros ->; contradiction].
Qed.

Lemma sharing_loop (s0 : StackStamp_t) (l : list InsnPtr) :
  forall (s s' : StackStamp_t) (V : InsnPtr -> Prop),
    sharing s0 s V -> NoDup l -> (forall q, q ∈ l -> ~ V q) ->
    eh_update_loop
      (dwarf_instruction (getArchitectureBitWidth (getFileIR s0)) (m_stamp_value s0))
      s l = Ok s' ->
    sharing s0 s' (fun q => q ∈ l \/ V q).
Proof.
  induction l as [|p l IH]; intros s s' V Hsh Hnd Hdis H; simpl in H.
  - injection H as <-. eapply sharing_ext; [|exact Hsh].
    intros q. split; [now right | intros [Hq | Hq]; [inversion Hq | exact Hq]].
  - inv_res H. apply NoDup_cons in Hnd as [Hp Hnd].
    pose proof (sharing_body _ _ _ _ _ Hsh (Hdis p ltac:(left)) Ha) as Hsh'.
    eapply sharing_ext; [|eapply (IH _ _ _ Hsh' Hnd); [|exact H]].
    + intros q. rewrite elem_of_cons. tauto.
    + intros q Hq [-> | Hv]; [contradiction|]. apply (Hdis q); [now right | exact Hv].
Qed.

Lemma sharing_eh_update (s0 s s' : StackStamp_t) (V : InsnPtr -> Prop) (f : FuncPtr) :
  sharing s0 s V ->
  NoDup (function_instructions s0 f) ->
  (forall q, q ∈ function_instructions s0 f -> ~ V q) ->
  eh_update s f = Ok s' ->
  sharing s0 s' (fun q => q ∈ function_instructions s0 f \/ V q).
Proof.
  intros Hsh Hnd Hdis H. unfold eh_update in H.
  inv_res H. inv_res H. inv_res H. rename a1 into fn. apply deref_Ok in Ha1.
  unfold get_stamp in H. rewrite (sh_bits _ _ _ Hsh), (sh_stamp _ _ _ Hsh) in H.
  rewrite (sh_functions _ _ _ Hsh) in Ha1.
  unfold function_instructions in *. rewrite Ha1 in *.
  now apply (sharing_loop s0 _ s s' V).
Qed.

Lemma sharing_all (s0 : StackStamp_t) (fs : list FuncPtr) :
  forall (s s' : StackStamp_t) (V : InsnPtr -> Prop),
    sharing s0 s V -> NoDup (visited s0 fs) ->
    (forall q, q ∈ visited s0 fs -> ~ V q) ->
    eh_update_all s fs = Ok s' ->
    sharing s0 s' (fun q => q ∈ visited s0 fs \/ V q).
Proof.
  induction fs as [|f fs IH]; intros s s' V Hsh Hnd Hdis H; simpl in H.
  - injection H as <-. eapply sharing_ext; [|exact Hsh].
    intros q. split; [now right | intros [Hq | Hq]; [inversion Hq | exact Hq]].
  - inv_res H. unfold visited in Hnd, Hdis. simpl in Hnd, Hdis.
    apply NoDup_app in Hnd as (Hnd1 & Hnd12 & Hnd2).
    assert (Hsh' := sharing_eh_update _ _ _ _ _ Hsh Hnd1
                      (fun q Hq => Hdis q ltac:(apply elem_of_app; now left)) Ha).
    eapply sharing_ext; [|eapply (IH _ _ _ Hsh' Hnd2); [|exact H]].
    + intros q. unfold visited. simpl. rewrite elem_of_app. tauto.
    + intros q Hq [Hq1 | Hv]; [now apply (Hnd12 q)|].
      apply (Hdis q); [apply elem_of_app; now right | exact Hv].
Qed.

(** C3.  Start from a transform object whose cache is empty and run
    [eh_update] over a list of functions that share no instruction.  Then
    any two updated instructions whose derived unwind programs are equal on
    all seven fields point at the same stored program, whose content is that
    derived program; and no two entries of the cache point at different
    stored programs that are content-equal. *)
Theorem eh_update_shares_programs (s0 : StackStamp_t) (fs : list FuncPtr)
  (s' : StackStamp_t) :
  all_eh_pgms s0 = [] ->
  NoDup (visited s0 fs) ->
  eh_update_all s0 fs = Ok s' ->
  (forall p q ip iq hp hq op oq,
     p ∈ visited s0 fs -> q ∈ visited s0 fs ->
     insn_at s0 p = Some ip -> getEhProgram ip = Some hp ->
     ir_eh_programs (getFileIR s0) !! hp = Some op ->
     insn_at s0 q = Some iq -> getEhProgram iq = Some hq ->
     ir_eh_programs (getFileIR s0) !! hq = Some oq ->
     same_content (derived s0 op) (derived s0 oq) ->
     exists h o,
       (getEhProgram <$> insn_at s' p) = Some (Some h) /\
       (getEhProgram <$> insn_at s' q) = Some (Some h) /\
       ir_eh_programs (getFileIR s') !! h = Some o /\
       same_content (placeholder_of o) (derived s0 op)) /\
  (forall k1 h1 o1 k2 h2 o2,
     (k1, h1) ∈ all_eh_pgms s' -> (k2, h2) ∈ all_eh_pgms s' ->
     ir_eh_programs (getFileIR s') !! h1 = Some o1 ->
     ir_eh_programs (getFileIR s') !! h2 = Some o2 ->
     same_content (placeholder_of o1) (placeholder_of o2) ->
     h1 = h2).
Proof.
  intros Hempty Hnd Hrun.
  assert (Hsh : sharing s0 s' (fun q => q ∈ visited s0 fs \/ False)).
  { apply (sharing_all s0 fs s0 s'); auto. now apply sharing_start. }
  destruct Hsh as [[Hobj Huniq] _ _ Hdone _ _ _]. split.
  - intros p q ip iq hp hq op oq Hp Hq Hip Hhp Hop Hiq Hhq Hoq Hsame.
    destruct (Hdone p ip hp op (or_introl Hp) Hip Hhp Hop) as (ip' & h & Hip' & Hh & Hm).
    destruct (Hdone q iq hq oq (or_introl Hq) Hiq Hhq Hoq) as (iq' & h' & Hiq' & Hh' & Hm').
    rewrite (map_find_same_content _ _ _ Hsame) in Hm.
    assert (h' = h) as -> by congruence.
    rewrite <- (map_find_same_content _ _ _ Hsame) in Hm.
    destruct (map_find_Some _ _ _ Hm) as (k & Hin & Hk).
    destruct (Hobj k h Hin) as (o & Ho & Hok).
    exists h, o. unfold insn_at. rewrite Hip', Hiq'. simpl. rewrite Hh, Hh'.
    split; [reflexivity|]. split; [reflexivity|]. split; [exact Ho|].
    rewrite Hok. now apply same_content_sym.
  - intros k1 h1 o1 k2 h2 o2 Hin1 Hin2 Ho1 Ho2 Hsame.
    destruct (Hobj k1 h1 Hin1) as (o1' & Ho1' & Hk1).
    destruct (Hobj k2 h2 Hin2) as (o2' & Ho2' & Hk2).
    assert (o1' = o1) as -> by congruence. assert (o2' = o2) as -> by congruence.
    apply list_elem_of_lookup_1 in Hin1 as [n1 Hn1].
    apply list_elem_of_lookup_1 in Hin2 as [n2 Hn2].
    assert (n1 = n2) as ->.
    { apply (Huniq n1 n2 k1 h1 k2 h2 Hn1 Hn2). now rewrite <- Hk1, <- Hk2. }
    congruence.
Qed.

Lemma eh_update_shares_programs_witness :
  exists s',
    eh_update_all (StackStamp_new eh_example 0xbeef false) [0; 1] = Ok s' /\
    (getEhProgram <$> insn_at s' 0) = Some (Some 3) /\
    (getEhProgram <$> insn_at s' 1) = Some (Some 3) /\
    (getEhProgram <$> insn_at s' 2) = Some (Some 4) /\
    (getEhProgram <$> insn_at s' 4) = Some (Some 3) /\
    forall k1 h1 o1 k2 h2 o2,
      (k1, h1) ∈ all_eh_pgms s' -> (k2, h2) ∈ all_eh_pgms s' ->
      ir_eh_programs (getFileIR s') !! h1 = Some o1 ->
      ir_eh_programs (getFileIR s') !! h2 = Some o2 ->
      same_content (placeholder_of o1) (placeholder_of o2) ->
      h1 = h2.
Proof.
  eexists. split; [vm_compute; reflexivity|].
  repeat (split; [reflexivity|]).
  eapply (eh_update_shares_programs (StackStamp_new eh_example 0xbeef false) [0; 1]).
  - reflexivity.
  - apply (bool_decide_unpack _). vm_compute. exact I.
  - vm_compute. reflexivity.
Defined.

(** ** stamp(f): which instructions get a stamp *)

Lemma stamp_body_decision (f : FuncPtr) (s : StackStamp_t) (p : InsnPtr) :
  stamp_body f s p =
    (d <~ stamp_decision (getFileIR s) f p ;;
     if d then stamp_insn s f (Some p) else Ok s).
Proof.
  unfold stamp_body, stamp_decision.
  destruct (deref (ir_instructions (getFileIR s)) p) as [i| |]; simpl; try reflexivity.
  destruct (findRelocation i fix_call_fallthrough_string) as [reloc| |]; simpl;
    try reflexivity.
  destruct (isReturn (decoded i)); [reflexivity|].
  destruct (isCall (decoded i) || bool_decide (reloc <> None)); [reflexivity|].
  destruct (exits_function (getFileIR s) f (getTarget i)) as [[|]| |]; simpl;
    try reflexivity.
  - destruct (assert (bool_decide (getFallthrough i = None))); reflexivity.
  - destruct (getIBTargets i) as [targets|]; [|reflexivity].
    destruct (isUnconditionalBranch (decoded i)); [|reflexivity].
    destruct (assert (bool_decide (getFallthrough i = None))); simpl; try reflexivity.
    destruct (assert (negb (Nat.eqb (length (icfs_targets targets)) 0))); simpl;
      try reflexivity.
    destruct (find_if_res (target_leaves (getFileIR s) f) (icfs_targets targets))
      as [leaver| |]; simpl; try reflexivity.
    destruct (find_if_res (target_stays (getFileIR s) f) (icfs_targets targets))
      as [stayer| |]; simpl; try reflexivity.
    destruct (deref (ir_functions (getFileIR s)) f) as [fn| |]; simpl; try reflexivity.
    destruct (bool_decide (Some p = getEntryPoint fn)); simpl; reflexivity.
Qed.

Lemma insertAssemblyBefore_frame (ir ir' : FileIR_t) (x : InsnPtr)
  (assembly : string) (after : InsnPtr) :
  insertAssemblyBefore ir x assembly = Ok (ir', after) -> ir_frame x ir ir'.
Proof.
  intros H. unfold insertAssemblyBefore in H. inv_res H. rename a into old.
  apply deref_Ok in Ha.
  assert (Hinsns : forall (insns' : list Instruction_t) before,
    getFunction before = getFunction old ->
    insns' = <[x := before]> (ir_instructions ir) ++ [old] ->
    forall q i, ir_instructions ir !! q = Some i ->
      exists i', insns' !! q = Some i' /\
                 getFunction i' = getFunction i /\ (q <> x -> i' = i)).
  { intros insns' before Hfun -> q i Hq.
    assert (q < length (ir_instructions ir)) by (eapply lookup_lt_Some; eauto).
    rewrite lookup_app_l by (now rewrite length_insert).
    destruct (decide (q = x)) as [-> | Hne].
    - exists before. rewrite list_lookup_insert_eq by assumption.
      split; [reflexivity|]. split; [congruence | contradiction].
    - exists i. rewrite list_lookup_insert_ne by congruence. auto. }
  destruct (getFunction old) as [g|] eqn:Hg.
  - inv_res H. injection H as <- _. split; simpl.
    + eapply Hinsns; [|reflexivity]. reflexivity.
    + intros g' fn Hfn. rewrite list_lookup_alter. destruct (decide (g = g')) as [-> | Hne].
      * rewrite Hfn. simpl. eexists. split; reflexivity.
      * eauto.
  - injection H as <- _. split; simpl.
    + eapply Hinsns; [|reflexivity]. reflexivity.
    + eauto.
Qed.

Lemma stamp_insn_frame (s s' : StackStamp_t) (f : FuncPtr) (x : InsnPtr) :
  stamp_insn s f (Some x) = Ok s' -> ir_frame x (getFileIR s) (getFileIR s').
Proof.
  intros H. unfold stamp_insn in H. inv_res H. inv_res H. injection H as <-.
  destruct a as [ir' after]. simpl. eapply insertAssemblyBefore_frame; eauto.
Qed.

Lemma find_if_res_frame {A} (p p' : A -> res bool) (l : list A) (n : nat) :
  (forall x b, p x = Ok b -> p' x = Ok b) ->
  find_if_res p l = Ok n -> find_if_res p' l = Ok n.
Proof.
  intros Hp. revert n. induction l as [|x l IH]; intros n H; simpl in *; [exact H|].
  inv_res H. rewrite (Hp _ _ Ha). simpl. destruct a; [exact H|].
  inv_res H. rewrite (IH _ Ha0). exact H.
Qed.

Lemma target_leaves_frame (x : InsnPtr) (ir ir' : FileIR_t) (f : FuncPtr)
  (t : InsnPtr) (b : bool) :
  ir_frame x ir ir' -> target_leaves ir f t = Ok b -> target_leaves ir' f t = Ok b.
Proof.
  intros [Hi _] H. unfold target_leaves in *. inv_res H. apply deref_Ok in Ha.
  destruct (Hi _ _ Ha) as (i' & Hi' & Hfun & _).
  rewrite (proj2 (deref_Ok _ _ _) Hi'). simpl. now rewrite Hfun.
Qed.

Lemma target_stays_frame (x : InsnPtr) (ir ir' : FileIR_t) (f : FuncPtr)
  (t : InsnPtr) (b : bool) :
  ir_frame x ir ir' -> target_stays ir f t = Ok b -> target_stays ir' f t = Ok b.
Proof.
  intros [Hi _] H. unfold target_stays in *. inv_res H. apply deref_Ok in Ha.
  destruct (Hi _ _ Ha) as (i' & Hi' & Hfun & _).
  rewrite (proj2 (deref_Ok _ _ _) Hi'). simpl. now rewrite Hfun.
Qed.

(** The decision for an instruction does not change when a stamp is
    inserted before another one. *)
Lemma stamp_decision_frame (x : InsnPtr) (ir ir' : FileIR_t) (f : FuncPtr)
  (p : InsnPtr) (d : bool) :
  ir_frame x ir ir' -> p <> x ->
  stamp_decision ir f p = Ok d -> stamp_decision ir' f p = Ok d.
Proof.
  intros Hfr Hne H. unfold stamp_decision in *.
  inv_res H. rename a into i. apply deref_Ok in Ha.
  destruct (proj1 Hfr _ _ Ha) as (i' & Hi' & _ & Heq). rewrite (Heq Hne) in Hi'.
  rewrite (proj2 (deref_Ok _ _ _) Hi'). simpl.
  inv_res H. rewrite Ha0. simpl.
  destruct (isReturn (decoded i)); [exact H|].
  destruct (isCall (decoded i) || bool_decide (a <> None)); [exact H|].
  inv_res H. rename a0 into exits.
  assert (Hex : exits_function ir' f (getTarget i) = Ok exits).
  { unfold exits_function in *. destruct (getTarget i); [|exact Ha1].
    eapply target_leaves_frame; eauto. }
  rewrite Hex. simpl. destruct exits; [exact H|].
  destruct (getIBTargets i) as [targets|]; [|exact H].
  destruct (isUnconditionalBranch (decoded i)); [|exact H].
  inv_res H. rewrite Ha2. simpl. inv_res H. rewrite Ha3. simpl.
  inv_res H. inv_res H. inv_res H.
  rewrite (find_if_res_frame _ (target_leaves ir' f) _ _
             (fun t b => target_leaves_frame x ir ir' f t b Hfr) Ha4). simpl.
  rewrite (find_if_res_frame _ (target_stays ir' f) _ _
             (fun t b => target_stays_frame x ir ir' f t b Hfr) Ha5). simpl.
  apply deref_Ok in Ha6. destruct (proj2 Hfr _ _ Ha6) as (fn' & Hfn' & Hentry).
  rewrite (proj2 (deref_Ok _ _ _) Hfn'). simpl. now rewrite Hentry.
Qed.

Lemma stamp_all_app (f : FuncPtr) (s s1 s2 : StackStamp_t) (l1 l2 : list InsnPtr) :
  stamp_all f s l1 = Ok s1 -> stamp_all f s1 l2 = Ok s2 ->
  stamp_all f s (l1 ++ l2) = Ok s2.
Proof.
  revert s. induction l1 as [|p l1 IH]; intros s H1 H2; simpl in *.
  - injection H1 as ->. exact H2.
  - inv_res H1. rewrite Ha. simpl. now apply IH.
Qed.

Lemma int_incr_Ok (x n : Z) : int_incr x = Ok n -> n = (x + 1)%Z.
Proof. unfold int_incr. destruct (x <? INT_MAX)%Z; congruence. Qed.

Lemma stamp_insn_counters (s s' : StackStamp_t) (f : FuncPtr) (x : InsnPtr) :
  stamp_insn s f (Some x) = Ok s' ->
  counters s' =
    ((m_instructions_added s + 1)%Z, m_functions_transformed s,
     m_functions_not_transformed s).
Proof.
  intros H. unfold stamp_insn in H. inv_res H. inv_res H. injection H as <-.
  apply int_incr_Ok in Ha0 as ->. reflexivity.
Qed.

Lemma stamp_all_counters (f : FuncPtr) (sites : list InsnPtr) :
  forall s s', stamp_all f s sites = Ok s' ->
    counters s' =
      ((m_instructions_added s + Z.of_nat (length sites))%Z,
       m_functions_transformed s, m_functions_not_transformed s).
Proof.
  induction sites as [|p sites IH]; intros s s' H; simpl in H.
  - injection H as <-. unfold counters. now rewrite Z.add_0_r.
  - inv_res H. apply stamp_insn_counters in Ha. apply IH in H.
    unfold counters in *. injection Ha as Ha1 Ha2 Ha3. rewrite H.
    rewrite Ha1, Ha2, Ha3. do 2 f_equal. simpl length. lia.
Qed.

Lemma skip_stamp_loop_counters (f : FuncPtr) (l : list InsnPtr) :
  forall s s', skip_stamp_loop f s l = Ok s' -> counters s' = counters s.
Proof.
  induction l as [|p l IH]; intros s s' H; simpl in H.
  - now injection H as <-.
  - inv_res H. rewrite (IH _ _ H). clear H IH.
    unfold skip_stamp_body in Ha. inv_bind Ha as i Hi. inv_bind Ha as fn Hfn.
    destruct (bool_decide _); [|now injection Ha as <-].
    destruct (negb _); [|now injection Ha as <-].
    destruct (getEntryPoint fn); [|discriminate].
    inv_bind Ha as entry Hentry. now injection Ha as <-.
Qed.

Lemma eh_update_loop_counters (dwarf : string) (l : list InsnPtr) :
  forall s s', eh_update_loop dwarf s l = Ok s' -> counters s' = counters s.
Proof.
  induction l as [|p l IH]; intros s s' H; simpl in H.
  - now injection H as <-.
  - inv_res H. rewrite (IH _ _ H). clear H IH.
    unfold eh_update_body in Ha. inv_bind Ha as i Hi.
    destruct (getEhProgram i); [|now injection Ha as <-].
    inv_bind Ha as orig Horig.
    destruct (map_find _ _); simpl in Ha; now injection Ha as <-.
Qed.

Lemma eh_update_counters (s s' : StackStamp_t) (f : FuncPtr) :
  eh_update s f = Ok s' -> counters s' = counters s.
Proof.
  intros H. unfold eh_update in H. inv_res H. inv_res H. inv_res H.
  eapply eh_update_loop_counters; eauto.
Qed.

(** The entries of the functions survive a sequence of insertions. *)
Lemma stamp_all_entry (f : FuncPtr) (sites : list InsnPtr) :
  forall s s', stamp_all f s sites = Ok s' ->
    forall g fn, ir_functions (getFileIR s) !! g = Some fn ->
      exists fn', ir_functions (getFileIR s') !! g = Some fn' /\
                  getEntryPoint fn' = getEntryPoint fn.
Proof.
  induction sites as [|p sites IH]; intros s s' H g fn Hg; simpl in H.
  - injection H as <-. eauto.
  - inv_res H. apply stamp_insn_frame in Ha as [_ Hf].
    destruct (Hf _ _ Hg) as (fn1 & Hg1 & He1).
    destruct (IH _ _ H _ _ Hg1) as (fn' & Hg' & He'). exists fn'. split; congruence.
Qed.

(** The first loop of [stamp(f)] is a sequence of insertions, before the
    instructions of the copy for which the decision, taken in the state at
    the start of the loop, is to stamp. *)
Lemma stamp_loop_sites (f : FuncPtr) (l : list InsnPtr) :
  forall s s', stamp_loop f s l = Ok s' -> NoDup l ->
    exists sites,
      sites `sublist_of` l /\
      stamp_all f s sites = Ok s' /\
      forall y d, y ∈ l -> stamp_decision (getFileIR s) f y = Ok d ->
                  (y ∈ sites <-> d = true).
Proof.
  induction l as [|p l IH]; intros s s' H Hnd; simpl in H.
  - injection H as <-. exists []. split; [constructor|]. split; [reflexivity|].
    intros y d Hy. inversion Hy.
  - inv_res H. rename a into s1. apply NoDup_cons in Hnd as [Hp Hnd].
    destruct (IH _ _ H Hnd) as (sites & Hsub & Hall & Hdec).
    rewrite stamp_body_decision in Ha. inv_res Ha. rename a into d0.
    destruct d0.
    + (* a stamp is inserted before [p] *)
      exists (p :: sites). split; [now constructor|]. split.
      { cbn [stamp_all]. rewrite Ha. exact Hall. }
      intros y d Hy Hd. apply elem_of_cons in Hy as [-> | Hy].
      * split; [congruence | intros _; left].
      * assert (y <> p) by (intros ->; contradiction).
        rewrite elem_of_cons. rewrite <- (Hdec y d Hy).
        -- split; [intros [? | ?]; [contradiction | assumption] | now right].
        -- eapply stamp_decision_frame; [eapply stamp_insn_frame| |]; eauto.
    + (* [p] is left alone *)
      injection Ha as <-. exists sites. split; [now apply sublist_cons|].
      split; [exact Hall|].
      intros y d Hy Hd. apply elem_of_cons in Hy as [-> | Hy].
      * split; [|congruence]. intros Hin. exfalso. apply Hp.
        eapply elem_of_sublist; eauto.
      * now apply Hdec.
Qed.

Lemma stamps_before_NoDup (x : InsnPtr) (sites : list InsnPtr) :
  NoDup sites -> stamps_before x sites = if decide (x ∈ sites) then 1 else 0.
Proof.
  intros Hnd. unfold stamps_before. induction Hnd as [|y l Hy Hnd IH]; simpl.
  - destruct (decide (x ∈ [])) as [Hin | _]; [inversion Hin | reflexivity].
  - destruct (Nat.eq_dec y x) as [-> | Hne].
    + rewrite IH. destruct (decide (x ∈ l)); [contradiction|].
      destruct (decide (x ∈ x :: l)) as [_ | Hn]; [reflexivity|].
      exfalso. apply Hn. left.
    + rewrite IH. destruct (decide (x ∈ l)) as [Hin | Hin];
        destruct (decide (x ∈ y :: l)) as [Hin' | Hin']; try reflexivity.
      * exfalso. apply Hin'. now right.
      * exfalso. apply elem_of_cons in Hin' as [-> | ?]; contradiction.
Qed.

(** C2, the claim as stated fails: the entry of [f] is a return.  The loop
    stamps it (its content moves to instruction 5), and the final step
    stamps the entry once more (the first stamp moves to instruction 7): two
    stamps stand before the return of the entry. *)
Lemma return_at_entry_is_stamped_twice :
  let s := StackStamp_new return_at_entry 0xbeef false in
  can_stamp s 0 = Ok true /\
  exists s',
    stamp s 0 = Ok s' /\
    (getDisassembly <$> insn_at s' 0) = Some " xor dword [rsp], 0xbeef" /\
    (getFallthrough <$> insn_at s' 0) = Some (Some 7) /\
    (getDisassembly <$> insn_at s' 7) = Some " xor dword [rsp], 0xbeef" /\
    (getFallthrough <$> insn_at s' 7) = Some (Some 5) /\
    (getDisassembly <$> insn_at s' 5) = Some "ret" /\
    m_instructions_added s' = 3%Z.
Proof.
  split; [vm_compute; reflexivity|].
  eexists. split; [vm_compute; reflexivity|].
  repeat split; reflexivity.
Qed.

(** C2 (amended).  When the pass over an eligible function completes, its
    stamping part is a sequence of insertions: one before each instruction
    of the copy that the loop decides to stamp, each at most once, and then
    one before the entry.  So the entry receives one stamp from the final
    step and a second one exactly when the loop stamps it too (it is a
    return, a direct branch that leaves the function or an unconditional
    indirect branch), every other instruction receives at most one, however
    many instructions target the entry, and the count of added instructions
    grows by the number of insertions. *)
Theorem stamp_entry_once_or_twice (s s' : StackStamp_t) (f : FuncPtr)
  (fn : Function_t) (e : InsnPtr) :
  ir_functions (getFileIR s) !! f = Some fn ->
  NoDup (getInstructions fn) ->
  getEntryPoint fn = Some e ->
  can_stamp s f = Ok true ->
  stamp s f = Ok s' ->
  exists sites s2,
    sites `sublist_of` getInstructions fn /\
    stamp_all f (set_functions_transformed (m_functions_transformed s + 1) s)
      (sites ++ [e]) = Ok s2 /\
    (s3 <~ skip_stamp_loop f s2 (getInstructions fn) ;; eh_update s3 f) = Ok s' /\
    (forall y d, y ∈ getInstructions fn ->
       stamp_decision (getFileIR s) f y = Ok d -> (y ∈ sites <-> d = true)) /\
    (forall x, x <> e -> stamps_before x (sites ++ [e]) <= 1) /\
    stamps_before e (sites ++ [e]) = (if decide (e ∈ sites) then 2 else 1) /\
    m_instructions_added s' =
      (m_instructions_added s + Z.of_nat (length sites) + 1)%Z.
Proof.
  intros Hf Hnd He Hcan H. unfold stamp in H. rewrite Hcan in H. simpl in H.
  rewrite (proj2 (deref_Ok _ _ _) Hf) in H. simpl in H.
  inv_bind H as u Hu. inv_bind H as n Hn. apply int_incr_Ok in Hn as ->.
  inv_bind H as s1 Hloop. inv_bind H as fn1 Hfn1. inv_bind H as s2 Hentry.
  destruct (stamp_loop_sites _ _ _ _ Hloop Hnd) as (sites & Hsub & Hall & Hdec).
  destruct (stamp_all_entry _ _ _ _ Hall f fn Hf) as (fn1' & Hfn1' & He1).
  apply deref_Ok in Hfn1. assert (fn1' = fn1) as -> by congruence.
  rewrite He1, He in Hentry.
  assert (Hnds : NoDup sites) by (eapply sublist_NoDup; eauto).
  assert (Hall2 : stamp_all f (set_functions_transformed (m_functions_transformed s + 1) s)
                    (sites ++ [e]) = Ok s2).
  { eapply stamp_all_app; [exact Hall|]. cbn [stamp_all]. now rewrite Hentry. }
  exists sites, s2. split; [exact Hsub|]. split; [exact Hall2|]. split; [exact H|].
  split; [exact Hdec|].
  assert (Hcount : forall x, stamps_before x (sites ++ [e]) =
            ((if decide (x ∈ sites) then 1 else 0) + (if decide (e = x) then 1 else 0))%nat).
  { intros x. unfold stamps_before. rewrite count_occ_app.
    fold (stamps_before x sites). rewrite (stamps_before_NoDup _ _ Hnds). simpl.
    destruct (Nat.eq_dec e x), (decide (e = x)); congruence. }
  split; [|split].
  - intros x Hx. rewrite Hcount. destruct (decide (x ∈ sites)), (decide (e = x)); lia.
  - rewrite Hcount.
    destruct (decide (e ∈ sites)), (decide (e = e)); try reflexivity; congruence.
  - inv_bind H as s3 Hskip.
    pose proof (stamp_all_counters _ _ _ _ Hall2) as Hc2.
    pose proof (skip_stamp_loop_counters _ _ _ _ Hskip) as Hc3.
    pose proof (eh_update_counters _ _ _ H) as Hc4.
    unfold counters in *. rewrite Hc3, Hc2 in Hc4. injection Hc4 as -> _ _.
    simpl. rewrite length_app. simpl. lia.
Qed.

Lemma stamp_entry_once_or_twice_witness :
  exists s',
    stamp (StackStamp_new return_at_entry 0xbeef false) 0 = Ok s' /\
    exists sites s2,
      sites `sublist_of` [0; 1; 2; 3] /\
      stamp_all 0
        (set_functions_transformed 1 (StackStamp_new return_at_entry 0xbeef false))
        (sites ++ [0]) = Ok s2 /\
      (s3 <~ skip_stamp_loop 0 s2 [0; 1; 2; 3] ;; eh_update s3 0) = Ok s' /\
      (forall y d, y ∈ [0; 1; 2; 3] ->
         stamp_decision return_at_entry 0 y = Ok d -> (y ∈ sites <-> d = true)) /\
      (forall x, x <> 0 -> stamps_before x (sites ++ [0]) <= 1) /\
      stamps_before 0 (sites ++ [0]) = (if decide (0 ∈ sites) then 2 else 1) /\
      m_instructions_added s' = (0 + Z.of_nat (length sites) + 1)%Z.
Proof.
  eexists. split; [vm_compute; reflexivity|].
  apply (stamp_entry_once_or_twice (StackStamp_new return_at_entry 0xbeef false) _ 0
           {| getName := "f"; getEntryPoint := Some 0; getInstructions := [0; 1; 2; 3] |}
           0).
  - reflexivity.
  - apply (bool_decide_unpack _). vm_compute. exact I.
  - reflexivity.
  - vm_compute. reflexivity.
  - vm_compute. reflexivity.
Defined.

(** ** The cap of execute *)

Lemma stamp_loop_counters (f : FuncPtr) (l : list InsnPtr) :
  forall s s', stamp_loop f s l = Ok s' ->
    m_functions_transformed s' = m_functions_transformed s /\
    m_functions_not_transformed s' = m_functions_not_transformed s.
Proof.
  induction l as [|p l IH]; intros s s' H; simpl in H.
  - injection H as <-. auto.
  - inv_bind H as s1 H1. destruct (IH _ _ H) as [-> ->]. clear H IH.
    rewrite stamp_body_decision in H1. inv_bind H1 as d Hd.
    destruct d; [|injection H1 as <-; auto].
    apply stamp_insn_counters in H1. unfold counters in H1.
    injection H1 as _ -> ->. auto.
Qed.

(** [stamp(f)] counts the function once: as transformed or as not
    transformed. *)
Lemma stamp_counts_once (s s' : StackStamp_t) (f : FuncPtr) :
  stamp s f = Ok s' ->
  (m_functions_transformed s' = (m_functions_transformed s + 1)%Z /\
   m_functions_not_transformed s' = m_functions_not_transformed s) \/
  (m_functions_transformed s' = m_functions_transformed s /\
   m_functions_not_transformed s' = (m_functions_not_transformed s + 1)%Z).
Proof.
  intros H. unfold stamp in H. inv_bind H as ok Hok. destruct ok; simpl in H.
  - left. inv_bind H as fn Hfn. inv_bind H as u Hu. inv_bind H as n Hn.
    apply int_incr_Ok in Hn as ->.
    inv_bind H as s1 H1. inv_bind H as fn1 Hfn1. inv_bind H as s2 H2.
    inv_bind H as s3 H3.
    apply stamp_loop_counters in H1 as [H1 H1'].
    destruct (getEntryPoint fn1) as [e|]; [|discriminate].
    apply stamp_insn_counters in H2. apply skip_stamp_loop_counters in H3.
    apply eh_update_counters in H. unfold counters in *.
    rewrite H3, H2 in H. injection H as _ -> ->. simpl in H1, H1'. auto.
  - right. inv_bind H as n Hn. apply int_incr_Ok in Hn as ->.
    injection H as <-. auto.
Qed.

(** With the cap set to a number, the loop of [execute] transforms at most
    one function more than the cap says. *)
Lemma execute_loop_cap (str : string) (cap : Z) (funcs : list FuncPtr) :
  atoi str = Ok cap ->
  forall s s', execute_loop (Some str) s funcs = Ok s' ->
    (m_functions_transformed s' <= Z.max (m_functions_transformed s) (cap + 1))%Z.
Proof.
  intros Hcap. induction funcs as [|func funcs IH]; intros s s' H; simpl in H.
  - injection H as <-. lia.
  - inv_bind H as s1 H1. apply IH in H. unfold execute_body in H1.
    rewrite Hcap in H1. simpl in H1.
    destruct (Z.gtb_spec (m_functions_transformed s) cap) as [Hgt | Hle].
    + injection H1 as <-. exact H.
    + apply stamp_counts_once in H1 as [[H1 _] | [H1 _]]; lia.
Qed.

(** ** The reach of the defect of findRelocation *)

(** A function that passes the three tests on the function itself and whose
    first instruction has no relocation of type "fix_call_fallthrough" makes
    [can_stamp] read the end iterator. *)
Lemma can_stamp_undefined_without_relocation (s : StackStamp_t) (f : FuncPtr)
  (fn : Function_t) (p : InsnPtr) (rest : list InsnPtr) (i : Instruction_t) :
  ir_functions (getFileIR s) !! f = Some fn ->
  getEntryPoint fn <> None ->
  getName fn <> "_start" ->
  getInstructions fn = p :: rest ->
  3 < length (getInstructions fn) ->
  ir_instructions (getFileIR s) !! p = Some i ->
  ~ has_relocation i fix_call_fallthrough_string ->
  can_stamp s f = Undefined.
Proof.
  intros Hf He Hn Hl Hlen Hp Hno. unfold can_stamp.
  rewrite (proj2 (deref_Ok _ _ _) Hf). simpl.
  rewrite bool_decide_eq_false_2 by exact He.
  destruct (String.eqb_spec (getName fn) "_start") as [Heq | _]; [contradiction|].
  destruct (Nat.leb_spec (length (getInstructions fn)) 3) as [Hle | _]; [lia|].
  rewrite Hl. simpl. unfold can_stamp_body.
  rewrite (proj2 (deref_Ok _ _ _) Hp). simpl.
  now rewrite (findRelocation_not_found _ _ Hno).
Qed.

(** ** The entry-skip patch on the instructions that were not stamped *)

Lemma stamp_insn_shape (s s' : StackStamp_t) (f : FuncPtr) (p : InsnPtr) :
  stamp_insn s f (Some p) = Ok s' ->
  exists old before,
    ir_instructions (getFileIR s) !! p = Some old /\
    ir_instructions (getFileIR s') !! p = Some before /\
    getFallthrough before = Some (length (ir_instructions (getFileIR s))) /\
    getTarget before = None /\
    ir_instructions (getFileIR s') !! length (ir_instructions (getFileIR s)) = Some old.
Proof.
  intros H. unfold stamp_insn, insertAssemblyBefore in H.
  inv_bind H as r Hr. inv_bind H as n Hn. injection H as <-.
  inv_bind Hr as old Hold. apply deref_Ok in Hold.
  assert (Hlen : p < length (ir_instructions (getFileIR s)))
    by (eapply lookup_lt_Some; eauto).
  exists old. eexists. split; [exact Hold|].
  assert (Hr' : ir_instructions (fst r) =
            <[p := {| decoded := KOther;
                      getDisassembly :=
                        " xor dword [" +:+
                        (if N.eqb (getArchitectureBitWidth (getFileIR s)) 64
                         then "rsp" else "esp") +:+ "], 0x" +:+
                        hex_string (get_stamp s f);
                      getTarget := None;
                      getFallthrough := Some (length (ir_instructions (getFileIR s)));
                      getIBTargets := None; getRelocations := [];
                      getEhProgram := getEhProgram old;
                      getFunction := getFunction old |}]>
              (ir_instructions (getFileIR s)) ++ [old]).
  { destruct (getFunction old) as [g|].
    - inv_bind Hr as fg Hfg. now injection Hr as <-.
    - now injection Hr as <-. }
  simpl. rewrite Hr'. split; [|split; [|split]].
  - rewrite lookup_app_l by (now rewrite length_insert).
    now apply list_lookup_insert_eq.
  - reflexivity.
  - reflexivity.
  - rewrite lookup_app_r by (rewrite length_insert; lia).
    rewrite length_insert. now rewrite Nat.sub_diag.
Qed.

Lemma stamp_all_frame (f : FuncPtr) (sites : list InsnPtr) :
  forall s s', stamp_all f s sites = Ok s' ->
    forall q i, ir_instructions (getFileIR s) !! q = Some i -> q ∉ sites ->
      ir_instructions (getFileIR s') !! q = Some i.
Proof.
  induction sites as [|p sites IH]; intros s s' H q i Hq Hnot; simpl in H.
  - now injection H as <-.
  - inv_bind H as s1 H1. apply stamp_insn_frame in H1 as [Hi _].
    destruct (Hi _ _ Hq) as (i' & Hi' & _ & Heq).
    rewrite Heq in Hi' by (intros ->; apply Hnot; left).
    eapply IH; eauto. intros Hin. apply Hnot. now right.
Qed.

Lemma patched_fallthrough (e : InsnPtr) (ft : option InsnPtr) (i : Instruction_t) :
  getFallthrough (patched e ft i) = getFallthrough i.
Proof. unfold patched. now destruct (_ && _). Qed.

Lemma skip_stamp_body_patched (f : FuncPtr) (s s' : StackStamp_t) (y : InsnPtr)
  (fn : Function_t) (e : InsnPtr) (ent : Instruction_t) :
  ir_functions (getFileIR s) !! f = Some fn ->
  getEntryPoint fn = Some e ->
  ir_instructions (getFileIR s) !! e = Some ent ->
  skip_stamp_body f s y = Ok s' ->
  exists i,
    ir_instructions (getFileIR s) !! y = Some i /\
    ir_instructions (getFileIR s') !! y = Some (patched e (getFallthrough ent) i) /\
    (forall q, q <> y ->
       ir_instructions (getFileIR s') !! q = ir_instructions (getFileIR s) !! q) /\
    ir_functions (getFileIR s') = ir_functions (getFileIR s).
Proof.
  intros Hf He Hent H. unfold skip_stamp_body in H.
  inv_bind H as i Hi. apply deref_Ok in Hi. exists i. split; [exact Hi|].
  rewrite (proj2 (deref_Ok _ _ _) Hf) in H. simpl in H. rewrite He in H.
  unfold patched. destruct (bool_decide (getTarget i = Some e)); simpl.
  2:{ injection H as <-. auto. }
  destruct (negb (isCall (decoded i))); simpl in *.
  2:{ injection H as <-. auto. }
  rewrite (proj2 (deref_Ok _ _ _) Hent) in H. simpl in H. injection H as <-. simpl.
  split; [now rewrite list_lookup_alter_eq, Hi|].
  split; [|reflexivity]. intros q Hq. now apply list_lookup_alter_ne.
Qed.

Lemma skip_stamp_loop_patched (f : FuncPtr) (fn : Function_t) (e : InsnPtr)
  (ft : option InsnPtr) (l : list InsnPtr) :
  getEntryPoint fn = Some e ->
  NoDup l ->
  forall s s' ent,
    ir_functions (getFileIR s) !! f = Some fn ->
    ir_instructions (getFileIR s) !! e = Some ent ->
    getFallthrough ent = ft ->
    skip_stamp_loop f s l = Ok s' ->
    (forall y i, y ∈ l -> ir_instructions (getFileIR s) !! y = Some i ->
       ir_instructions (getFileIR s') !! y = Some (patched e ft i)) /\
    (forall q, q ∉ l ->
       ir_instructions (getFileIR s') !! q = ir_instructions (getFileIR s) !! q).
Proof.
  intros He Hnd. induction Hnd as [|y l Hy Hnd IH]; intros s s' ent Hf Hent Hft H;
    simpl in H.
  - injection H as <-. split; [intros y i Hy; inversion Hy | reflexivity].
  - inv_bind H as s1 H1.
    destruct (skip_stamp_body_patched _ _ _ _ _ _ _ Hf He Hent H1)
      as (iy & Hiy & Hiy' & Hother & Hfuncs).
    rewrite Hft in Hiy'.
    assert (Hent1 : exists ent1, ir_instructions (getFileIR s1) !! e = Some ent1 /\
                                 getFallthrough ent1 = ft).
    { destruct (decide (e = y)) as [-> | Hne].
      - eexists. split; [exact Hiy'|]. rewrite patched_fallthrough. congruence.
      - exists ent. split; [|exact Hft]. now rewrite Hother. }
    destruct Hent1 as (ent1 & Hent1 & Hft1).
    rewrite <- Hfuncs in Hf.
    destruct (IH s1 s' ent1 Hf Hent1 Hft1 H) as [Hin Hout]. split.
    + intros z i Hz Hi. apply elem_of_cons in Hz as [-> | Hz].
      * rewrite Hout by exact Hy. congruence.
      * apply Hin; [exact Hz|]. rewrite Hother; [exact Hi | intros ->; contradiction].
    + intros q Hq. rewrite Hout by (intros Hin'; apply Hq; now right).
      apply Hother. intros ->. apply Hq. left.
Qed.

(** [eh_update] leaves the targets and fallthroughs of all instructions
    alone. *)
Lemma eh_update_loop_targets (dwarf : string) (l : list InsnPtr) :
  forall s s', eh_update_loop dwarf s l = Ok s' ->
    forall q,
      (getTarget <$> ir_instructions (getFileIR s') !! q) =
        (getTarget <$> ir_instructions (getFileIR s) !! q) /\
      (getFallthrough <$> ir_instructions (getFileIR s') !! q) =
        (getFallthrough <$> ir_instructions (getFileIR s) !! q).
Proof.
  induction l as [|p l IH]; intros s s' H q; simpl in H.
  - now injection H as <-.
  - inv_bind H as s1 H1. destruct (IH _ _ H q) as [-> ->]. clear H IH.
    unfold eh_update_body in H1. inv_bind H1 as i Hi.
    destruct (getEhProgram i); [|now injection H1 as <-].
    inv_bind H1 as orig Horig.
    destruct (map_find _ _); simpl in H1; injection H1 as <-; simpl;
      rewrite list_lookup_alter; destruct (decide (p = q)) as [-> | _];
      try (split; reflexivity);
      destruct (ir_instructions (getFileIR s) !! q); split; reflexivity.
Qed.

Lemma eh_update_targets (s s' : StackStamp_t) (f : FuncPtr) (q : InsnPtr) :
  eh_update s f = Ok s' ->
  (getTarget <$> insn_at s' q) = (getTarget <$> insn_at s q) /\
  (getFallthrough <$> insn_at s' q) = (getFallthrough <$> insn_at s q).
Proof.
  intros H. unfold eh_update in H. inv_bind H as u1 H1. inv_bind H as u2 H2.
  inv_bind H as fn Hfn. unfold insn_at. eapply eh_update_loop_targets; eauto.
Qed.

(** When the pass over an eligible function completes, the entry falls
    through to a new instruction [n], and every instruction of the copy,
    other than the entry, that the loop did not stamp and whose direct target
    was the entry has its target at [n] when it is no call, and still at the
    entry when it is a call. *)
Lemma skip_stamp_patches_unstamped (s s' : StackStamp_t) (f : FuncPtr)
  (fn : Function_t) (e : InsnPtr) :
  ir_functions (getFileIR s) !! f = Some fn ->
  NoDup (getInstructions fn) ->
  getEntryPoint fn = Some e ->
  can_stamp s f = Ok true ->
  stamp s f = Ok s' ->
  exists (sites : list InsnPtr) (n : InsnPtr),
    (forall y d, y ∈ getInstructions fn ->
       stamp_decision (getFileIR s) f y = Ok d -> (y ∈ sites <-> d = true)) /\
    (getFallthrough <$> insn_at s' e) = Some (Some n) /\
    forall y i,
      y ∈ getInstructions fn -> y ∉ sites -> y <> e ->
      insn_at s y = Some i -> getTarget i = Some e ->
      (getTarget <$> insn_at s' y) =
        Some (Some (if isCall (decoded i) then e else n)).
Proof.
  intros Hf Hnd He Hcan H. unfold stamp in H. rewrite Hcan in H. simpl in H.
  rewrite (proj2 (deref_Ok _ _ _) Hf) in H. simpl in H.
  inv_bind H as u Hu. inv_bind H as t Ht. inv_bind H as s1 Hloop.
  inv_bind H as fn1 Hfn1. inv_bind H as s2 Hentry. inv_bind H as s3 Hskip.
  destruct (stamp_loop_sites _ _ _ _ Hloop Hnd) as (sites & Hsub & Hall & Hdec).
  destruct (stamp_all_entry _ _ _ _ Hall f fn Hf) as (fn1' & Hfn1' & He1).
  apply deref_Ok in Hfn1. assert (fn1' = fn1) as -> by congruence.
  rewrite He1, He in Hentry.
  destruct (stamp_insn_shape _ _ _ _ Hentry) as (old & before & Hold & Hbefore & Hft & _ & _).
  destruct (proj2 (stamp_insn_frame _ _ _ _ Hentry) _ _ Hfn1) as (fn2 & Hfn2 & He2).
  rewrite He1, He in He2.
  destruct (skip_stamp_loop_patched f fn2 e _ _ He2 Hnd s2 s3 before Hfn2 Hbefore Hft Hskip)
    as [Hin Hout].
  exists sites, (length (ir_instructions (getFileIR s1))).
  split; [exact Hdec|]. split.
  - rewrite (proj2 (eh_update_targets _ _ _ e H)). unfold insn_at.
    destruct (decide (e ∈ getInstructions fn)) as [Hein | Hein].
    + rewrite (Hin e before Hein Hbefore). simpl. now rewrite patched_fallthrough, Hft.
    + rewrite (Hout e Hein), Hbefore. simpl. now rewrite Hft.
  - intros y i Hy Hnot Hne Hi Htarget.
    rewrite (proj1 (eh_update_targets _ _ _ y H)). unfold insn_at in *.
    assert (Hi1 : ir_instructions (getFileIR s1) !! y = Some i).
    { eapply (stamp_all_frame _ _ _ _ Hall); eauto. }
    assert (Hi2 : ir_instructions (getFileIR s2) !! y = Some i).
    { destruct (proj1 (stamp_insn_frame _ _ _ _ Hentry) _ _ Hi1) as (i' & Hi' & _ & Heq).
      now rewrite (Heq Hne) in Hi'. }
    rewrite (Hin y i Hy Hi2). simpl. unfold patched.
    rewrite bool_decide_eq_true_2 by exact Htarget. simpl.
    destruct (isCall (decoded i)); simpl; [now rewrite Htarget | reflexivity].
Qed.

(** * Further properties *)

(** ** The lookup and the function-level tests *)

Lemma carries_has_relocation (type : string) (insn : Instruction_t) :
  carries type insn = true <-> has_relocation insn type.
Proof.
  unfold carries, has_relocation. rewrite existsb_exists. split.
  - intros (r & Hr & Ht). exists r. split; [now apply list_elem_of_In|].
    now apply String.eqb_eq.
  - intros (r & Hr & Ht). exists r. split; [now apply list_elem_of_In|].
    now apply String.eqb_eq.
Qed.

(** X1.  [findRelocation] never returns a relocation: on an instruction that
    carries a relocation of the requested type it returns [NULL], and on
    any other instruction it reads the end iterator. *)
Theorem findRelocation_never_finds (insn : Instruction_t) (type : string) :
  findRelocation insn type = if carries type insn then Ok None else Undefined.
Proof.
  destruct (carries type insn) eqn:Hc.
  - apply findRelocation_found. now apply carries_has_relocation.
  - apply findRelocation_not_found. rewrite <- carries_has_relocation. congruence.
Qed.

Lemma stamp_skips_stub (s : StackStamp_t) (f : FuncPtr) (fn : Function_t) :
  ir_functions (getFileIR s) !! f = Some fn ->
  is_stub fn ->
  (m_functions_not_transformed s < INT_MAX)%Z ->
  can_stamp s f = Ok false /\
  stamp s f =
    Ok (set_functions_not_transformed (m_functions_not_transformed s + 1) s).
Proof.
  intros Hf Hstub Hlt.
  assert (Hc : can_stamp s f = Ok false).
  { unfold can_stamp. rewrite (proj2 (deref_Ok _ _ _) Hf). simpl.
    destruct (bool_decide (getEntryPoint fn = None)) eqn:He; [reflexivity|].
    destruct (String.eqb_spec (getName fn) "_start") as [|Hn]; [reflexivity|].
    destruct (Nat.leb_spec (length (getInstructions fn)) 3) as [|Hl]; [reflexivity|].
    apply bool_decide_eq_false in He. destruct Hstub as [? | [? | ?]];
      [contradiction | contradiction | lia]. }
  split; [exact Hc | now apply can_stamp_skips].
Qed.

(** X2.  A function without entry, the function [_start] and a function of
    three instructions or fewer are turned down before any instruction is
    read: [can_stamp] returns [false] whatever the instructions are, and
    [stamp] only counts the function as not transformed. *)
Theorem can_stamp_rejects_stubs (s : StackStamp_t) (f : FuncPtr) (fn : Function_t) :
  ir_functions (getFileIR s) !! f = Some fn ->
  is_stub fn ->
  (m_functions_not_transformed s < INT_MAX)%Z ->
  can_stamp s f = Ok false /\
  stamp s f =
    Ok (set_functions_not_transformed (m_functions_not_transformed s + 1) s).
Proof. exact (stamp_skips_stub s f fn). Qed.

Lemma can_stamp_rejects_stubs_witness :
  let s := StackStamp_new stubs_only 0xbeef false in
  can_stamp s 0 = Ok false /\
  stamp s 0 =
    Ok (set_functions_not_transformed (m_functions_not_transformed s + 1) s).
Proof.
  intros s.
  apply (can_stamp_rejects_stubs s 0
           {| getName := "_start"; getEntryPoint := Some 0;
              getInstructions := [0; 1; 2; 3] |}).
  - reflexivity.
  - right. left. reflexivity.
  - reflexivity.
Defined.

(** X3.  A function with an unconditional branch that has no direct target
    leaving the function, no fallthrough, and indirect targets of which one
    stays in the function and one leaves it is rejected, whether the target
    set is marked complete or not, provided the checks of the instructions
    before it run to completion and the fixed-call lookup on it is
    defined. *)
Theorem can_stamp_rejects_mixed_targets (s : StackStamp_t) (f : FuncPtr)
  (fn : Function_t) (pre : list InsnPtr) (p : InsnPtr) (post : list InsnPtr)
  (i : Instruction_t) (targets : ICFS_t) (t_in t_out : InsnPtr) :
  ir_functions (getFileIR s) !! f = Some fn ->
  getInstructions fn = pre ++ p :: post ->
  (forall j, j ∈ pre -> exists b, can_stamp_body (getFileIR s) f j = Ok b) ->
  ir_instructions (getFileIR s) !! p = Some i ->
  decoded i = KUnconditionalBranch ->
  findRelocation i fix_call_fallthrough_string = Ok None ->
  exits_function (getFileIR s) f (getTarget i) = Ok false ->
  getFallthrough i = None ->
  getIBTargets i = Some targets ->
  (forall t, t ∈ icfs_targets targets -> is_Some (ir_instructions (getFileIR s) !! t)) ->
  t_in ∈ icfs_targets targets -> target_stays (getFileIR s) f t_in = Ok true ->
  t_out ∈ icfs_targets targets -> target_leaves (getFileIR s) f t_out = Ok true ->
  can_stamp s f = Ok false.
Proof.
  intros Hf Hl Hrun Hp Hk Hrel Hexit Hft Hib Hread Hin Hstay Hout Hleave.
  unfold can_stamp. rewrite (proj2 (deref_Ok _ _ _) Hf). simpl.
  destruct (bool_decide _); [reflexivity|].
  destruct (String.eqb _ _); [reflexivity|].
  destruct (Nat.leb _ _); [reflexivity|].
  rewrite Hl. apply can_stamp_loop_reject; [exact Hrun|].
  exact (can_stamp_body_ambiguous_branch _ _ _ _ _ _ _
           Hp Hk Hrel Hexit Hft Hib Hread Hin Hstay Hout Hleave).
Qed.

Lemma can_stamp_rejects_mixed_targets_witness :
  can_stamp (StackStamp_new ambiguous_branch_complete 0xbeef false) 0 = Ok false.
Proof.
  apply (can_stamp_rejects_mixed_targets
           (StackStamp_new ambiguous_branch_complete 0xbeef false) 0
           {| getName := "f"; getEntryPoint := Some 0; getInstructions := [0; 1; 2; 3] |}
           [] 0 [1; 2; 3]
           (insn KUnconditionalBranch "jmp qword [rax*8+0x402000]" None None
              (Some {| icfs_targets := [1; 4]; isComplete := true |}) fixed_call)
           {| icfs_targets := [1; 4]; isComplete := true |} 1 4).
  - reflexivity.
  - reflexivity.
  - intros j Hj. inversion Hj.
  - reflexivity.
  - reflexivity.
  - reflexivity.
  - reflexivity.
  - reflexivity.
  - reflexivity.
  - intros t Ht. apply elem_of_cons in Ht as [-> | Ht]; [eexists; reflexivity|].
    apply elem_of_cons in Ht as [-> | Ht]; [eexists; reflexivity | inversion Ht].
  - left.
  - reflexivity.
  - right. left.
  - reflexivity.
Defined.

(** ** The order in which execute visits the functions *)

Section SetInsert.
Context {A : Type} (lt : A -> A -> bool).

Lemma set_insert_Permutation (x : A) (l : list A) :
  (forall y, y ∈ l -> lt x y = true \/ lt y x = true) ->
  set_insert lt x l ≡ₚ x :: l.
Proof.
  induction l as [|y l IH]; intros H; simpl; [reflexivity|].
  destruct (lt x y) eqn:Hxy; [reflexivity|].
  destruct (lt y x) eqn:Hyx.
  - rewrite IH by (intros z Hz; apply H; now right). apply perm_swap.
  - destruct (H y ltac:(left)); congruence.
Qed.

Lemma set_insert_HdRel (x y : A) (l : list A) :
  HdRel (fun a b => lt a b = true) y l -> lt y x = true ->
  HdRel (fun a b => lt a b = true) y (set_insert lt x l).
Proof.
  intros Hhd Hyx. destruct l as [|z l]; simpl; [now constructor|].
  apply HdRel_inv in Hhd.
  destruct (lt x z); [now constructor|]. destruct (lt z x); now constructor.
Qed.

Lemma set_insert_Sorted (x : A) (l : list A) :
  Sorted (fun a b => lt a b = true) l ->
  Sorted (fun a b => lt a b = true) (set_insert lt x l).
Proof.
  induction 1 as [|y l Hs IH Hhd]; simpl; [repeat constructor|].
  destruct (lt x y) eqn:Hxy; [repeat constructor; assumption|].
  destruct (lt y x) eqn:Hyx; [|now constructor].
  constructor; [exact IH | now apply set_insert_HdRel].
Qed.

Lemma foldl_set_insert (xs : list A) :
  forall acc,
    NoDup (acc ++ xs) ->
    (forall x y, x ∈ acc ++ xs -> y ∈ acc ++ xs -> x <> y ->
       lt x y = true \/ lt y x = true) ->
    Sorted (fun a b => lt a b = true) acc ->
    foldl (fun acc x => set_insert lt x acc) acc xs ≡ₚ acc ++ xs /\
    Sorted (fun a b => lt a b = true)
      (foldl (fun acc x => set_insert lt x acc) acc xs).
Proof.
  induction xs as [|x xs IH]; intros acc Hnd Hcmp Hs; simpl.
  - rewrite app_nil_r. auto.
  - assert (Hp : set_insert lt x acc ≡ₚ x :: acc).
    { apply set_insert_Permutation. intros y Hy.
      apply Hcmp; [apply elem_of_app; right; left | apply elem_of_app; now left|].
      intros ->. apply NoDup_app in Hnd as (_ & Hdis & _).
      apply (Hdis y Hy). left. }
    assert (Hq : set_insert lt x acc ++ xs ≡ₚ acc ++ x :: xs).
    { rewrite Hp. simpl. now rewrite Permutation_middle. }
    destruct (IH (set_insert lt x acc)) as [H1 H2].
    + now rewrite Hq.
    + intros a b Ha Hb. rewrite Hq in Ha, Hb. now apply Hcmp.
    + now apply set_insert_Sorted.
    + split; [now rewrite H1 | exact H2].
Qed.
End SetInsert.

Lemma string_ltb_cases (a b : string) :
  a <> b -> String.ltb a b = true \/ String.ltb b a = true.
Proof.
  intros Hne. destruct (String.ltb a b) eqn:H1; [now left|].
  destruct (String.ltb b a) eqn:H2; [now right|].
  exfalso. apply Hne. now apply string_ltb_total.
Qed.

Lemma nameSorter_cases (x y : string * nat) :
  x <> y -> nameSorter x y = true \/ nameSorter y x = true.
Proof.
  destruct x as [n1 p1], y as [n2 p2]. intros Hne. unfold nameSorter, tie_step. simpl.
  destruct (decide (n1 = n2)) as [-> | Hn].
  - destruct (string_ltb_irrefl n2 n2 eq_refl) as [-> _].
    assert (p1 <> p2) by congruence.
    destruct (Nat.ltb_spec p1 p2); [now left|].
    destruct (Nat.ltb_spec p2 p1); [now right | lia].
  - destruct (string_ltb_cases n1 n2 Hn) as [H | H]; rewrite H.
    + now left.
    + right. now destruct (String.ltb n1 n2).
Qed.

Lemma sorted_keys (ir : FileIR_t) :
  let keys :=
    foldl (fun acc x => set_insert nameSorter x acc) []
      (imap (fun p fn => (getName fn, p)) (ir_functions ir)) in
  keys ≡ₚ imap (fun p fn => (getName fn, p)) (ir_functions ir) /\
  Sorted (fun a b => nameSorter a b = true) keys.
Proof.
  apply (foldl_set_insert nameSorter _ []); simpl.
  - apply (NoDup_fmap_1 snd). rewrite fmap_imap.
    rewrite (imap_ext _ (fun j _ => j)) by reflexivity.
    rewrite imap_seq_0, list_fmap_id. apply NoDup_seq.
  - intros x y _ _. apply nameSorter_cases.
  - constructor.
Qed.

(** X4.  [execute] visits every function of the IR exactly once, and in the
    order of the keys (name, pointer): each function in the sequence has a
    smaller key than the next one. *)
Theorem sorted_funcs_each_once_in_order (ir : FileIR_t) :
  sorted_funcs ir ≡ₚ seq 0 (length (ir_functions ir)) /\
  Sorted (fun p q => nameSorter (function_key ir p) (function_key ir q) = true)
    (sorted_funcs ir).
Proof.
  destruct (sorted_keys ir) as [Hperm Hsorted]. unfold sorted_funcs.
  set (keys := foldl _ _ _) in *. split.
  - change (map snd keys) with (snd <$> keys). rewrite Hperm, fmap_imap.
    rewrite (imap_ext _ (fun j _ => j)) by reflexivity.
    now rewrite imap_seq_0, list_fmap_id.
  - assert (Hkey : forall k, k ∈ keys -> k = function_key ir (snd k)).
    { intros k Hk. rewrite Hperm in Hk.
      apply elem_of_lookup_imap_1 in Hk as (p & fn & -> & Hp).
      unfold function_key. simpl. now rewrite Hp. }
    clear Hperm. induction Hsorted as [|k keys' Hs IH Hhd]; simpl; [constructor|].
    constructor.
    + apply IH. intros k' Hk'. apply Hkey. now right.
    + destruct Hhd as [|k' keys'' Hlt]; simpl; constructor.
      rewrite <- (Hkey k) by left. rewrite <- (Hkey k') by (right; left). exact Hlt.
Qed.

(** ** What the transform keeps *)

Lemma function_kept_refl (fn : Function_t) : function_kept fn fn.
Proof. repeat split; reflexivity. Qed.

Lemma function_kept_trans (a b c : Function_t) :
  function_kept a b -> function_kept b c -> function_kept a c.
Proof.
  intros (H1 & H2 & H3) (H4 & H5 & H6). repeat split; try congruence.
  now transitivity (getInstructions b).
Qed.

Lemma extends_refl (s : StackStamp_t) : extends s s.
Proof.
  constructor; try reflexivity; eauto.
  apply Forall_Forall2_diag, Forall_forall. intros; apply function_kept_refl.
Qed.

Lemma extends_trans (a b c : StackStamp_t) :
  extends a b -> extends b c -> extends a c.
Proof.
  intros [] []. constructor; try congruence; try lia.
  - intros q i Hq. destruct (ext_owner0 q i Hq) as (i1 & H1 & E1).
    destruct (ext_owner1 q i1 H1) as (i2 & H2 & E2). exists i2. split; congruence.
  - eapply Forall2_trans; [|eassumption..]. intros; eapply function_kept_trans; eauto.
  - etransitivity; eauto.
Qed.

Lemma add_instruction_kept (i : InsnPtr) (fn : Function_t) :
  function_kept fn (add_instruction i fn).
Proof.
  repeat split. unfold add_instruction. simpl.
  case_bool_decide; [reflexivity | now apply prefix_app_r].
Qed.

Lemma stamp_insn_extends (s s' : StackStamp_t) (f : FuncPtr) (i : option InsnPtr) :
  stamp_insn s f i = Ok s' -> extends s s'.
Proof.
  destruct i as [p|]; [|discriminate]. intros H. unfold stamp_insn in H.
  inv_bind H as r Hr. inv_bind H as n Hn. apply int_incr_Ok in Hn as ->.
  injection H as <-. unfold insertAssemblyBefore in Hr.
  inv_bind Hr as old Hold. apply deref_Ok in Hold.
  assert (Hlen : p < length (ir_instructions (getFileIR s)))
    by (eapply lookup_lt_Some; eauto).
  assert (Howner : forall insns' q i,
            insns' = <[p := {| decoded := KOther;
                              getDisassembly :=
                                " xor dword [" +:+
                                (if N.eqb (getArchitectureBitWidth (getFileIR s)) 64
                                 then "rsp" else "esp") +:+ "], 0x" +:+
                                hex_string (get_stamp s f);
                              getTarget := None;
                              getFallthrough := Some (length (ir_instructions (getFileIR s)));
                              getIBTargets := None;
                              getRelocations := [];
                              getEhProgram := getEhProgram old;
                              getFunction := getFunction old |}]>
                        (ir_instructions (getFileIR s)) ++ [old] ->
            ir_instructions (getFileIR s) !! q = Some i ->
            exists i', insns' !! q = Some i' /\ getFunction i' = getFunction i).
  { intros insns' q i -> Hq.
    assert (q < length (ir_instructions (getFileIR s))) by (eapply lookup_lt_Some; eauto).
    rewrite lookup_app_l by now rewrite length_insert.
    destruct (decide (q = p)) as [-> | Hne].
    - rewrite list_lookup_insert_eq by assumption. eexists. split; [reflexivity|].
      simpl. congruence.
    - rewrite list_lookup_insert_ne by congruence. eauto. }
  destruct (getFunction old) as [g|].
  - inv_bind Hr as fn Hfn. injection Hr as <-. simpl.
    constructor; simpl; try reflexivity; try lia.
    + rewrite length_app, length_insert. simpl. lia.
    + intros q i. now apply Howner.
    + apply Forall2_alter_r.
      * apply Forall_Forall2_diag, Forall_forall. intros; apply function_kept_refl.
      * intros x y _ _ Hxy. eapply function_kept_trans; [exact Hxy|].
        apply add_instruction_kept.
  - injection Hr as <-. simpl.
    constructor; simpl; try reflexivity; try lia.
    + rewrite length_app, length_insert. simpl. lia.
    + intros q i. now apply Howner.
    + apply Forall_Forall2_diag, Forall_forall. intros; apply function_kept_refl.
Qed.

Lemma alter_instruction_extends (s : StackStamp_t) (g : Instruction_t -> Instruction_t)
  (p : InsnPtr) :
  (forall i, getFunction (g i) = getFunction i) ->
  extends s (set_ir (set_instructions (alter g p (ir_instructions (getFileIR s)))
                       (getFileIR s)) s).
Proof.
  intros Hg. constructor; simpl; try reflexivity.
  - now rewrite length_alter.
  - intros q i Hq. destruct (decide (q = p)) as [-> | Hne].
    + rewrite list_lookup_alter_eq, Hq. simpl. eauto.
    + rewrite list_lookup_alter_ne by congruence. eauto.
  - apply Forall_Forall2_diag, Forall_forall. intros; apply function_kept_refl.
Qed.

Lemma stamp_loop_extends (f : FuncPtr) (l : list InsnPtr) :
  forall s s', stamp_loop f s l = Ok s' -> extends s s'.
Proof.
  induction l as [|p l IH]; intros s s' H; simpl in H.
  - injection H as <-. apply extends_refl.
  - inv_bind H as s1 H1. apply IH in H. apply (extends_trans _ s1); [|exact H].
    rewrite stamp_body_decision in H1. inv_bind H1 as d Hd.
    destruct d; [now apply stamp_insn_extends in H1|].
    injection H1 as <-. apply extends_refl.
Qed.

Lemma skip_stamp_loop_extends (f : FuncPtr) (l : list InsnPtr) :
  forall s s', skip_stamp_loop f s l = Ok s' -> extends s s'.
Proof.
  induction l as [|p l IH]; intros s s' H; simpl in H.
  - injection H as <-. apply extends_refl.
  - inv_bind H as s1 H1. apply IH in H. apply (extends_trans _ s1); [|exact H].
    clear H IH. unfold skip_stamp_body in H1.
    inv_bind H1 as i Hi. inv_bind H1 as fn Hfn.
    case_bool_decide; [|injection H1 as <-; apply extends_refl].
    destruct (negb (isCall (decoded i))); [|injection H1 as <-; apply extends_refl].
    destruct (getEntryPoint fn) as [e|]; [|discriminate].
    inv_bind H1 as entry He. injection H1 as <-.
    now apply alter_instruction_extends.
Qed.

Lemma eh_update_body_extends (dwarf : EhProgramInstruction_t)
  (s s' : StackStamp_t) (p : InsnPtr) :
  eh_update_body dwarf s p = Ok s' -> extends s s'.
Proof.
  intros H. unfold eh_update_body in H. inv_bind H as i Hi.
  destruct (getEhProgram i) as [h|]; [|injection H as <-; apply extends_refl].
  inv_bind H as orig Ho.
  destruct (map_find _ _) as [reuse|].
  - injection H as <-. now apply alter_instruction_extends.
  - unfold addEhProgram in H. injection H as <-.
    constructor; simpl; try reflexivity.
    + now rewrite length_alter.
    + intros q j Hq. destruct (decide (q = p)) as [-> | Hne].
      * rewrite list_lookup_alter_eq, Hq. simpl. eauto.
      * rewrite list_lookup_alter_ne by congruence. eauto.
    + apply Forall_Forall2_diag, Forall_forall. intros; apply function_kept_refl.
    + rewrite alter_app_r_alt by reflexivity. now apply prefix_app_r.
Qed.

Lemma eh_update_loop_extends (dwarf : EhProgramInstruction_t) (l : list InsnPtr) :
  forall s s', eh_update_loop dwarf s l = Ok s' -> extends s s'.
Proof.
  induction l as [|p l IH]; intros s s' H; simpl in H.
  - injection H as <-. apply extends_refl.
  - inv_bind H as s1 H1. apply IH in H. apply (extends_trans _ s1); [|exact H].
    now apply eh_update_body_extends in H1.
Qed.

Lemma stamp_extends (s s' : StackStamp_t) (f : FuncPtr) :
  stamp s f = Ok s' -> extends s s'.
Proof.
  intros H. unfold stamp in H. inv_bind H as ok Hok. destruct ok; simpl in H.
  - inv_bind H as fn Hfn. inv_bind H as u Hu. inv_bind H as n Hn.
    inv_bind H as s1 H1. inv_bind H as fn1 Hfn1. inv_bind H as s2 H2.
    inv_bind H as s3 H3.
    apply stamp_loop_extends in H1. apply stamp_insn_extends in H2.
    apply skip_stamp_loop_extends in H3.
    unfold eh_update in H. inv_bind H as u1 Hu1. inv_bind H as u2 Hu2.
    inv_bind H as fn3 Hfn3. apply eh_update_loop_extends in H.
    apply (extends_trans _ (set_functions_transformed n s)).
    { constructor; simpl; try reflexivity; eauto.
      apply Forall_Forall2_diag, Forall_forall. intros; apply function_kept_refl. }
    eauto using extends_trans.
  - inv_bind H as n Hn. injection H as <-.
    constructor; simpl; try reflexivity; eauto.
    apply Forall_Forall2_diag, Forall_forall. intros; apply function_kept_refl.
Qed.

Lemma execute_loop_extends (env : option string) (funcs : list FuncPtr) :
  forall s s', execute_loop env s funcs = Ok s' -> extends s s'.
Proof.
  induction funcs as [|func funcs IH]; intros s s' H; simpl in H.
  - injection H as <-. apply extends_refl.
  - inv_bind H as s1 H1. apply IH in H. apply (extends_trans _ s1); [|exact H].
    unfold execute_body in H1. destruct env as [str|]; [|now apply stamp_extends in H1].
    inv_bind H1 as cap Hcap.
    destruct (m_functions_transformed s >? cap)%Z; [|now apply stamp_extends in H1].
    injection H1 as <-. apply extends_refl.
Qed.

Lemma execute_extends (env : option string) (s s' : StackStamp_t) (b : bool) :
  execute env s = Ok (s', b) -> extends s s'.
Proof.
  intros H. unfold execute in H. inv_bind H as s1 H1. injection H as <- _.
  apply execute_loop_extends in H1. apply (extends_trans _ s1); [exact H1|].
  constructor; simpl; try reflexivity; eauto.
  apply Forall_Forall2_diag, Forall_forall. intros; apply function_kept_refl.
Qed.

(** X5.  The statistic instructions-added is exact: over a run of
    [execute], the number of instructions of the IR grows by the growth of
    the counter, and no instruction is removed. *)
Theorem execute_counts_added_instructions (env : option string)
  (s s' : StackStamp_t) (b : bool) :
  execute env s = Ok (s', b) ->
  Z.of_nat (length (ir_instructions (getFileIR s'))) =
    (Z.of_nat (length (ir_instructions (getFileIR s)))
     + (m_instructions_added s' - m_instructions_added s))%Z /\
  (m_instructions_added s <= m_instructions_added s')%Z.
Proof. intros H. apply execute_extends in H. destruct H. lia. Qed.

Lemma execute_counts_added_instructions_witness :
  exists s' b,
    execute None (StackStamp_new two_functions 0xbeef false) = Ok (s', b) /\
    Z.of_nat (length (ir_instructions (getFileIR s'))) =
      (Z.of_nat (length (ir_instructions two_functions))
       + (m_instructions_added s' - 0))%Z /\
    (0 <= m_instructions_added s')%Z.
Proof.
  eexists _, _. split; [vm_compute; reflexivity|].
  eapply (execute_counts_added_instructions None
            (StackStamp_new two_functions 0xbeef false)).
  vm_compute. reflexivity.
Defined.

(** X6.  A run of [execute] adds and removes no function; every function
    keeps its name and its entry and every instruction it had, new
    instructions joining at the end; and every instruction stays in the
    function it was in. *)
Theorem execute_keeps_functions (env : option string)
  (s s' : StackStamp_t) (b : bool) :
  execute env s = Ok (s', b) ->
  length (ir_functions (getFileIR s')) = length (ir_functions (getFileIR s)) /\
  (forall g fn, ir_functions (getFileIR s) !! g = Some fn ->
     exists fn', ir_functions (getFileIR s') !! g = Some fn' /\
       getName fn' = getName fn /\ getEntryPoint fn' = getEntryPoint fn /\
       getInstructions fn `prefix_of` getInstructions fn') /\
  (forall q i, ir_instructions (getFileIR s) !! q = Some i ->
     exists i', ir_instructions (getFileIR s') !! q = Some i' /\
                getFunction i' = getFunction i).
Proof.
  intros H. apply execute_extends in H. destruct H as [_ _ _ _ Ho Hf _].
  split; [symmetry; eapply Forall2_length; eauto|]. split; [|exact Ho].
  intros g fn Hg. destruct (Forall2_lookup_l _ _ _ _ _ Hf Hg) as (fn' & Hg' & Hk).
  exists fn'. split; [exact Hg' | exact Hk].
Qed.

Lemma execute_keeps_functions_witness :
  exists s' b,
    execute None (StackStamp_new two_functions 0xbeef false) = Ok (s', b) /\
    length (ir_functions (getFileIR s')) = length (ir_functions two_functions) /\
    (forall g fn, ir_functions two_functions !! g = Some fn ->
       exists fn', ir_functions (getFileIR s') !! g = Some fn' /\
         getName fn' = getName fn /\ getEntryPoint fn' = getEntryPoint fn /\
         getInstructions fn `prefix_of` getInstructions fn') /\
    (forall q i, ir_instructions two_functions !! q = Some i ->
       exists i', ir_instructions (getFileIR s') !! q = Some i' /\
                  getFunction i' = getFunction i).
Proof.
  eexists _, _. split; [vm_compute; reflexivity|].
  eapply (execute_keeps_functions None (StackStamp_new two_functions 0xbeef false)).
  vm_compute. reflexivity.
Defined.

(** X7.  A run of [execute] edits no unwind program in place: every program
    object that the IR had keeps its content, and the pass builds new
    objects for the updated programs.  Which programs the IR holds after the
    run is decided by [cleanup_eh_pgms]: the registry is then exactly the
    set of the programs that some instruction uses, so a program of the
    input that no instruction uses any more is dropped from it. *)
Theorem execute_edits_no_unwind_program (env : option string)
  (s s' : StackStamp_t) (b : bool) :
  execute env s = Ok (s', b) ->
  (forall h o, ir_eh_programs (getFileIR s) !! h = Some o ->
               ir_eh_programs (getFileIR s') !! h = Some o) /\
  (forall h : EhPtr,
     h ∈ getAllEhPrograms (getFileIR s') <->
     exists q i, insn_at s' q = Some i /\ getEhProgram i = Some h).
Proof.
  intros H. unfold execute in H. inv_bind H as s1 H1. injection H as <- _. split.
  - intros h o Hh. apply execute_loop_extends in H1.
    destruct H1 as [_ _ _ _ _ _ Hp]. simpl. eapply prefix_lookup_Some; eauto.
  - intros h. unfold insn_at. simpl. rewrite cleanup_fold_elem. split.
    + intros [Hin | (i & Hi & He)]; [now apply not_elem_of_empty in Hin|].
      apply list_elem_of_lookup in Hi as [q Hq]. eauto.
    + intros (q & i & Hq & He). right. exists i. split; [|exact He].
      apply list_elem_of_lookup. eauto.
Qed.

Lemma execute_edits_no_unwind_program_witness :
  exists s' b,
    execute None (StackStamp_new eh_example_fixed 0xbeef false) = Ok (s', b) /\
    (forall h o, ir_eh_programs eh_example_fixed !! h = Some o ->
                 ir_eh_programs (getFileIR s') !! h = Some o) /\
    (forall h : EhPtr,
       h ∈ getAllEhPrograms (getFileIR s') <->
       exists q i, insn_at s' q = Some i /\ getEhProgram i = Some h).
Proof.
  eexists _, _. split; [vm_compute; reflexivity|].
  eapply (execute_edits_no_unwind_program None
            (StackStamp_new eh_example_fixed 0xbeef false)).
  vm_compute. reflexivity.
Defined.

(** X8.  [stamp] counts a function by the verdict of [can_stamp]: an
    accepted function counts as transformed; a rejected one counts as not
    transformed, and nothing else of the state changes. *)
Theorem stamp_counts_by_verdict (s s' : StackStamp_t) (f : FuncPtr) :
  stamp s f = Ok s' ->
  exists ok, can_stamp s f = Ok ok /\
    if ok
    then m_functions_transformed s' = (m_functions_transformed s + 1)%Z /\
         m_functions_not_transformed s' = m_functions_not_transformed s
    else s' = set_functions_not_transformed (m_functions_not_transformed s + 1) s.
Proof.
  intros H. pose proof (stamp_counts_once _ _ _ H) as Hc.
  unfold stamp in H. inv_bind H as ok Hok. exists ok. split; [exact Hok|].
  destruct ok; simpl in H.
  - destruct Hc as [Hc | [Hc1 Hc2]]; [exact Hc|].
    exfalso. inv_bind H as fn Hfn. inv_bind H as u Hu. inv_bind H as n Hn.
    apply int_incr_Ok in Hn as ->.
    inv_bind H as s1 H1. inv_bind H as fn1 Hfn1. inv_bind H as s2 H2.
    inv_bind H as s3 H3.
    apply stamp_loop_counters in H1 as [H1 _].
    destruct (getEntryPoint fn1) as [e|]; [|discriminate].
    apply stamp_insn_counters in H2. apply skip_stamp_loop_counters in H3.
    apply eh_update_counters in H. unfold counters in *.
    rewrite H3, H2 in H. injection H as _ Ht _. simpl in H1. lia.
  - inv_bind H as n Hn. apply int_incr_Ok in Hn as ->. now injection H as <-.
Qed.

Lemma stamp_counts_by_verdict_witness :
  exists s',
    stamp (StackStamp_new two_functions 0xbeef false) 0 = Ok s' /\
    exists ok, can_stamp (StackStamp_new two_functions 0xbeef false) 0 = Ok ok /\
      if ok
      then m_functions_transformed s' = (0 + 1)%Z /\
           m_functions_not_transformed s' = 0%Z
      else s' = set_functions_not_transformed (0 + 1)
                  (StackStamp_new two_functions 0xbeef false).
Proof.
  eexists. split; [vm_compute; reflexivity|].
  apply (stamp_counts_by_verdict (StackStamp_new two_functions 0xbeef false)).
  vm_compute. reflexivity.
Defined.

(** ** The totals of execute *)

Lemma sorted_funcs_length (ir : FileIR_t) :
  length (sorted_funcs ir) = length (ir_functions ir).
Proof.
  destruct (sorted_keys ir) as [Hperm _]. unfold sorted_funcs.
  rewrite length_map. apply Permutation_length in Hperm.
  now rewrite Hperm, length_imap.
Qed.

Lemma sorted_funcs_valid (ir : FileIR_t) (f : FuncPtr) :
  f ∈ sorted_funcs ir -> is_Some (ir_functions ir !! f).
Proof.
  destruct (sorted_keys ir) as [Hperm _]. unfold sorted_funcs.
  intros Hf. change (f ∈ snd <$> foldl (fun acc x => set_insert nameSorter x acc) []
                       (imap (fun p fn => (getName fn, p)) (ir_functions ir))) in Hf.
  rewrite Hperm in Hf. apply list_elem_of_fmap in Hf as (k & -> & Hk).
  apply elem_of_lookup_imap_1 in Hk as (p & fn & -> & Hp). simpl. eauto.
Qed.

Lemma execute_loop_counts (env : option string) (funcs : list FuncPtr) :
  forall s s', execute_loop env s funcs = Ok s' ->
    (m_functions_transformed s <= m_functions_transformed s')%Z /\
    (m_functions_not_transformed s <= m_functions_not_transformed s')%Z /\
    (m_functions_transformed s' + m_functions_not_transformed s' <=
     m_functions_transformed s + m_functions_not_transformed s
     + Z.of_nat (length funcs))%Z /\
    (env = None ->
     (m_functions_transformed s' + m_functions_not_transformed s' =
      m_functions_transformed s + m_functions_not_transformed s
      + Z.of_nat (length funcs))%Z).
Proof.
  induction funcs as [|func funcs IH]; intros s s' H; simpl in H.
  - injection H as <-. simpl. lia.
  - inv_bind H as s1 H1. apply IH in H. clear IH.
    assert (H1' : s1 = s /\ env <> None \/ stamp s func = Ok s1).
    { unfold execute_body in H1. destruct env as [str|]; [|now right].
      inv_bind H1 as cap Hcap. destruct (m_functions_transformed s >? cap)%Z.
      - injection H1 as <-. now left.
      - now right. }
    change (length (func :: funcs)) with (S (length funcs)).
    destruct H1' as [[-> Hne] | Hs].
    + repeat split; try lia. intros ->. congruence.
    + apply stamp_counts_once in Hs. repeat split; try lia.
      intros He. destruct H as (_ & _ & _ & H). specialize (H He). lia.
Qed.

(** X9.  [execute] counts a function at most once, as transformed or as not
    transformed; without a cap in the environment it counts every function
    of the IR exactly once, so the total that it reports is the number of
    functions.  The returned flag says whether the counter of transformed
    functions is positive. *)
Theorem execute_counts_functions (env : option string)
  (s s' : StackStamp_t) (b : bool) :
  execute env s = Ok (s', b) ->
  (m_functions_transformed s' + m_functions_not_transformed s' <=
   m_functions_transformed s + m_functions_not_transformed s
   + Z.of_nat (length (ir_functions (getFileIR s))))%Z /\
  (env = None ->
   (m_functions_transformed s' + m_functions_not_transformed s' =
    m_functions_transformed s + m_functions_not_transformed s
    + Z.of_nat (length (ir_functions (getFileIR s))))%Z) /\
  (b = true <-> (0 < m_functions_transformed s')%Z).
Proof.
  intros H. unfold execute in H. inv_bind H as s1 H1. injection H as <- <-.
  apply execute_loop_counts in H1. rewrite sorted_funcs_length in H1. simpl.
  destruct H1 as (_ & _ & H1 & H2). split; [exact H1|]. split; [exact H2|].
  destruct (Z.ltb_spec 0 (m_functions_transformed s1)); split; (congruence || lia).
Qed.

Lemma execute_counts_functions_witness :
  exists s' b,
    execute None (StackStamp_new two_functions 0xbeef false) = Ok (s', b) /\
    (m_functions_transformed s' + m_functions_not_transformed s' <=
     0 + 0 + Z.of_nat (length (ir_functions two_functions)))%Z /\
    (@None string = None ->
     (m_functions_transformed s' + m_functions_not_transformed s' =
      0 + 0 + Z.of_nat (length (ir_functions two_functions)))%Z) /\
    (b = true <-> (0 < m_functions_transformed s')%Z).
Proof.
  eexists _, _. split; [vm_compute; reflexivity|].
  apply (execute_counts_functions None (StackStamp_new two_functions 0xbeef false)).
  vm_compute. reflexivity.
Defined.

Lemma execute_loop_over_cap (str : string) (cap : Z) (funcs : list FuncPtr)
  (s : StackStamp_t) :
  atoi str = Ok cap -> (cap < m_functions_transformed s)%Z ->
  execute_loop (Some str) s funcs = Ok s.
Proof.
  intros Hcap Hlt. induction funcs as [|func funcs IH]; simpl; [reflexivity|].
  rewrite Hcap. simpl.
  destruct (Z.gtb_spec (m_functions_transformed s) cap); [|lia]. simpl. exact IH.
Qed.

(** X10.  A negative cap in [SS_MAX_DO_TRANSFORM] makes [execute] bypass
    every function: nothing is stamped or counted, only the registry of
    unwind programs is cleaned, [execute] returns failure and the step
    returns 2, whatever the IR holds. *)
Theorem negative_cap_transforms_nothing (str : string) (cap : Z)
  (firp : FileIR_t) (stamp_value : N) (verbose : bool) :
  atoi str = Ok cap -> (cap < 0)%Z ->
  execute (Some str) (StackStamp_new firp stamp_value verbose) =
    Ok (cleanup_eh_pgms (StackStamp_new firp stamp_value verbose), false) /\
  executeStep (Some str) firp stamp_value verbose = Ok 2%Z.
Proof.
  intros Hcap Hneg.
  assert (H : execute (Some str) (StackStamp_new firp stamp_value verbose) =
              Ok (cleanup_eh_pgms (StackStamp_new firp stamp_value verbose), false)).
  { unfold execute. now rewrite (execute_loop_over_cap str cap). }
  split; [exact H|]. unfold executeStep. now rewrite H.
Qed.

Lemma negative_cap_transforms_nothing_witness :
  execute (Some "-1") (StackStamp_new two_functions 0xbeef false) =
    Ok (cleanup_eh_pgms (StackStamp_new two_functions 0xbeef false), false) /\
  executeStep (Some "-1") two_functions 0xbeef false = Ok 2%Z.
Proof.
  apply (negative_cap_transforms_nothing "-1" (-1) two_functions 0xbeef false).
  - reflexivity.
  - lia.
Defined.

Lemma execute_loop_stubs (ir : FileIR_t) (funcs : list FuncPtr) :
  (forall f, f ∈ funcs -> exists fn, ir_functions ir !! f = Some fn /\ is_stub fn) ->
  forall s, getFileIR s = ir ->
    (m_functions_not_transformed s + Z.of_nat (length funcs) <= INT_MAX)%Z ->
    exists s', execute_loop None s funcs = Ok s' /\ getFileIR s' = ir /\
      m_functions_transformed s' = m_functions_transformed s /\
      m_instructions_added s' = m_instructions_added s /\
      m_functions_not_transformed s' =
        (m_functions_not_transformed s + Z.of_nat (length funcs))%Z.
Proof.
  induction funcs as [|func funcs IH]; intros Hstub s Hir Hmax.
  - exists s. simpl. repeat split; try reflexivity; try assumption. lia.
  - destruct (Hstub func) as (fn & Hfn & Hs); [left|].
    change (length (func :: funcs)) with (S (length funcs)) in *.
    destruct (stamp_skips_stub s func fn) as [_ Hst];
      [now rewrite Hir | exact Hs | lia |].
    destruct (IH (fun f Hf => Hstub f (list_elem_of_further _ _ _ Hf))
                (set_functions_not_transformed (m_functions_not_transformed s + 1) s))
      as (s' & Hrun & Hir' & Ht & Ha & Hn); [exact Hir | simpl; lia |].
    exists s'. simpl. rewrite Hst. simpl. split; [exact Hrun|].
    simpl in *. repeat split; try assumption. lia.
Qed.

(** X11.  On an IR all of whose functions are turned down by the
    function-level tests (no entry, the name [_start], three instructions
    or fewer), [execute] counts every function as not transformed, changes
    no instruction, and reports failure; the step returns 2. *)
Theorem executeStep_fails_on_stubs (firp : FileIR_t) (stamp_value : N)
  (verbose : bool) :
  (forall fn, fn ∈ ir_functions firp -> is_stub fn) ->
  (Z.of_nat (length (ir_functions firp)) <= INT_MAX)%Z ->
  executeStep None firp stamp_value verbose = Ok 2%Z /\
  exists s', execute None (StackStamp_new firp stamp_value verbose) = Ok (s', false) /\
    ir_instructions (getFileIR s') = ir_instructions firp /\
    ir_functions (getFileIR s') = ir_functions firp /\
    counters s' = (0, 0, Z.of_nat (length (ir_functions firp)))%Z.
Proof.
  intros Hstub Hmax.
  destruct (execute_loop_stubs firp (sorted_funcs firp)) with
    (s := StackStamp_new firp stamp_value verbose)
    as (s1 & Hrun & Hir & Ht & Ha & Hn).
  - intros f Hf. destruct (sorted_funcs_valid _ _ Hf) as [fn Hfn].
    exists fn. split; [exact Hfn|]. apply Hstub. eapply list_elem_of_lookup_2; eauto.
  - reflexivity.
  - rewrite sorted_funcs_length. simpl. lia.
  - rewrite sorted_funcs_length in Hn. simpl in Ht, Ha, Hn.
    assert (H : execute None (StackStamp_new firp stamp_value verbose) =
                Ok (cleanup_eh_pgms s1, false)).
    { unfold execute. simpl. rewrite Hrun. simpl. now rewrite Ht. }
    split; [unfold executeStep; now rewrite H|].
    exists (cleanup_eh_pgms s1). split; [exact H|]. simpl. rewrite Hir.
    repeat split. unfold counters. simpl. now rewrite Ht, Ha, Hn.
Qed.

Lemma executeStep_fails_on_stubs_witness :
  executeStep None stubs_only 0xbeef false = Ok 2%Z /\
  exists s', execute None (StackStamp_new stubs_only 0xbeef false) = Ok (s', false) /\
    ir_instructions (getFileIR s') = ir_instructions stubs_only /\
    ir_functions (getFileIR s') = ir_functions stubs_only /\
    counters s' = (0, 0, Z.of_nat (length (ir_functions stubs_only)))%Z.
Proof.
  apply (executeStep_fails_on_stubs stubs_only 0xbeef false).
  - intros fn Hfn. apply elem_of_cons in Hfn as [-> | Hfn].
    + right. left. reflexivity.
    + apply elem_of_cons in Hfn as [-> | Hfn]; [|inversion Hfn].
      right. right. simpl. lia.
  - vm_compute. discriminate.
Defined.

(** ** The comparison of placeholders *)

Lemma strict_weak_trans {A} (lt : A -> A -> bool) (a b c : A) :
  strict_weak lt -> lt a b = true -> lt b c = true -> lt a c = true.
Proof.
  intros [_ Has Hco] Hab Hbc. destruct (Hco a c b Hab) as [H | H]; [exact H|].
  rewrite (Has _ _ Hbc) in H. discriminate.
Qed.

Lemma strict_weak_tie {A} (lt1 lt2 : A -> A -> bool) :
  strict_weak lt1 -> strict_weak lt2 ->
  strict_weak (fun a b => tie_step (lt1 a b) (lt1 b a) (lt2 a b)).
Proof.
  intros [Hi1 Ha1 Hc1] [Hi2 Ha2 Hc2]. constructor.
  - intros a. now rewrite Hi1, Hi2.
  - intros a b. unfold tie_step.
    destruct (lt1 a b) eqn:Hab.
    + intros _. now rewrite (Ha1 _ _ Hab).
    + destruct (lt1 b a); [discriminate|]. apply Ha2.
  - intros a b c. unfold tie_step.
    destruct (lt1 a c) eqn:Hac.
    + intros _. destruct (Hc1 a b c Hac) as [-> | ->]; auto.
    + destruct (lt1 c a) eqn:Hca; [discriminate|]. intros H.
      destruct (lt1 a b) eqn:Hab; [auto|].
      destruct (lt1 b c) eqn:Hbc; [auto|].
      destruct (lt1 b a) eqn:Hba.
      { destruct (Hc1 b c a Hba); congruence. }
      destruct (lt1 c b) eqn:Hcb.
      { destruct (Hc1 c a b Hcb); congruence. }
      now apply Hc2.
Qed.

Lemma strict_weak_lexicographical {A} (lt : A -> A -> bool) :
  strict_weak lt -> strict_weak (lexicographical_compare lt).
Proof.
  intros [Hi Ha Hc]. constructor.
  - intros a. induction a as [|x a IH]; simpl; [reflexivity|]. now rewrite Hi.
  - intros a. induction a as [|x a IH]; intros [|y b]; simpl; try discriminate;
      try reflexivity.
    destruct (lt x y) eqn:Hxy.
    + intros _. now rewrite (Ha _ _ Hxy).
    + destruct (lt y x); [discriminate|]. apply IH.
  - intros a. induction a as [|x a IH]; intros [|y b] [|z c]; simpl;
      try discriminate; auto.
    destruct (lt x z) eqn:Hxz.
    + intros _. destruct (Hc x y z Hxz) as [-> | ->]; auto.
    + destruct (lt z x) eqn:Hzx; [discriminate|]. intros H.
      destruct (lt x y) eqn:Hxy; [auto|].
      destruct (lt y z) eqn:Hyz; [auto|].
      destruct (lt y x) eqn:Hyx.
      { destruct (Hc y z x Hyx); congruence. }
      destruct (lt z y) eqn:Hzy.
      { destruct (Hc z x y Hzy); congruence. }
      now apply IH.
Qed.

Lemma strict_weak_on {A B} (lt : B -> B -> bool) (g : A -> B) :
  strict_weak lt -> strict_weak (fun a b => lt (g a) (g b)).
Proof. intros [Hi Ha Hc]. constructor; eauto. Qed.

Lemma strict_weak_Z : strict_weak Z.ltb.
Proof.
  constructor.
  - apply Z.ltb_irrefl.
  - intros a b H. apply Z.ltb_lt in H. apply Z.ltb_ge. lia.
  - intros a b c H. apply Z.ltb_lt in H.
    destruct (Z.ltb_spec a b); [auto|]. right. apply Z.ltb_lt. lia.
Qed.

Lemma strict_weak_N : strict_weak N.ltb.
Proof.
  constructor.
  - apply N.ltb_irrefl.
  - intros a b H. apply N.ltb_lt in H. apply N.ltb_ge. lia.
  - intros a b c H. apply N.ltb_lt in H.
    destruct (N.ltb_spec a b); [auto|]. right. apply N.ltb_lt. lia.
Qed.

Lemma strict_weak_nat : strict_weak Nat.ltb.
Proof.
  constructor.
  - apply Nat.ltb_irrefl.
  - intros a b H. apply Nat.ltb_lt in H. apply Nat.ltb_ge. lia.
  - intros a b c H. apply Nat.ltb_lt in H.
    destruct (Nat.ltb_spec a b); [auto|]. right. apply Nat.ltb_lt. lia.
Qed.

Lemma string_ltb_lt (a b : string) :
  String.ltb a b = true <-> OrderedTypeEx.String_as_OT.lt a b.
Proof.
  unfold String.ltb. rewrite <- OrderedTypeEx.String_as_OT.cmp_lt.
  change OrderedTypeEx.String_as_OT.cmp with String.compare.
  destruct (String.compare a b); split; congruence.
Qed.

Lemma strict_weak_string : strict_weak String.ltb.
Proof.
  constructor.
  - intros a. now apply string_ltb_irrefl.
  - intros a b H. unfold String.ltb in *. rewrite String.compare_antisym.
    now destruct (String.compare a b).
  - intros a b c H.
    destruct (String.ltb a b) eqn:Hab; [auto|]. right.
    destruct (String.ltb b a) eqn:Hba.
    + apply string_ltb_lt. apply string_ltb_lt in H, Hba.
      eapply OrderedTypeEx.String_as_OT.lt_trans; eauto.
    + now rewrite <- (string_ltb_total a b Hab Hba).
Qed.

Lemma strict_weak_false {A} : strict_weak (fun _ _ : A => false).
Proof. constructor; auto; discriminate. Qed.

Lemma strict_weak_placeholder : strict_weak placeholder_lt.
Proof.
  unfold placeholder_lt.
  apply (strict_weak_tie (fun a b => (caf a <? caf b)%Z)); [apply (strict_weak_on Z.ltb caf), strict_weak_Z|].
  apply (strict_weak_tie (fun a b => (daf a <? daf b)%Z)); [apply (strict_weak_on Z.ltb daf), strict_weak_Z|].
  apply (strict_weak_tie (fun a b => (rr a <? rr b)%Z)); [apply (strict_weak_on Z.ltb rr), strict_weak_Z|].
  apply (strict_weak_tie (fun a b => (ptrsize a <? ptrsize b)%Z));
    [apply (strict_weak_on Z.ltb ptrsize), strict_weak_Z|].
  apply (strict_weak_tie (fun a b => listing_lt (cie_program a) (cie_program b))).
  { apply (strict_weak_on listing_lt cie_program).
    apply strict_weak_lexicographical, strict_weak_string. }
  apply (strict_weak_tie (fun a b => listing_lt (fde_program a) (fde_program b))).
  { apply (strict_weak_on listing_lt fde_program).
    apply strict_weak_lexicographical, strict_weak_string. }
  apply (strict_weak_tie (fun a b => relocset_lt (relocs a) (relocs b))
           (fun _ _ => false)); [|apply strict_weak_false].
  apply (strict_weak_on relocset_lt relocs).
  apply strict_weak_lexicographical.
  apply (strict_weak_on N.ltb reloc_addr), strict_weak_N.
Qed.

(** X12.  The [operator<] of the placeholders is a strict weak ordering, as
    the cache, a [std::map], needs of its comparison: no placeholder is less
    than itself, the comparison is transitive, and being the same key
    (neither less than the other) is transitive. *)
Theorem placeholder_lt_strict_weak_ordering :
  (forall a, placeholder_lt a a = false) /\
  (forall a b c, placeholder_lt a b = true -> placeholder_lt b c = true ->
                 placeholder_lt a c = true) /\
  (forall a b c, placeholder_equiv a b = true -> placeholder_equiv b c = true ->
                 placeholder_equiv a c = true).
Proof.
  pose proof strict_weak_placeholder as Hsw. split; [apply Hsw|]. split.
  - intros a b c. now apply strict_weak_trans.
  - intros a b c. unfold placeholder_equiv.
    rewrite !andb_true_iff, !negb_true_iff. intros [Hab Hba] [Hbc Hcb]. split.
    + destruct (placeholder_lt a c) eqn:Hac; [|reflexivity].
      destruct (sw_cotrans _ Hsw a b c Hac); congruence.
    + destruct (placeholder_lt c a) eqn:Hca; [|reflexivity].
      destruct (sw_cotrans _ Hsw c b a Hca); congruence.
Qed.

(** X13.  Two placeholders are the same key of the cache exactly when they
    agree on the four numbers, on the two listings and on the pointers of
    the relocations, whatever the relocations point at. *)
Theorem same_key_is_same_content (a b : EhProgramPlaceHolder_t) :
  (placeholder_lt a b = false /\ placeholder_lt b a = false) <->
  caf a = caf b /\ daf a = daf b /\ rr a = rr b /\ ptrsize a = ptrsize b /\
  cie_program a = cie_program b /\ fde_program a = fde_program b /\
  map reloc_addr (relocs a) = map reloc_addr (relocs b).
Proof.
  rewrite <- (placeholder_equiv_same_content a b). unfold placeholder_equiv.
  now rewrite andb_true_iff, !negb_true_iff.
Qed.

(** X14.  [nameSorter] is a strict weak ordering in which two different
    keys are always ordered, so the [std::set] of [execute] drops no
    function, also when two functions have the same name. *)
Theorem nameSorter_strict_total :
  (forall a, nameSorter a a = false) /\
  (forall a b c, nameSorter a b = true -> nameSorter b c = true ->
                 nameSorter a c = true) /\
  (forall a b, a <> b -> nameSorter a b = true \/ nameSorter b a = true).
Proof.
  assert (Hsw : strict_weak nameSorter).
  { unfold nameSorter.
    apply (strict_weak_tie (fun a b : string * FuncPtr => String.ltb (fst a) (fst b)));
      [apply (strict_weak_on String.ltb fst), strict_weak_string|].
    apply (strict_weak_tie (fun a b : string * FuncPtr => Nat.ltb (snd a) (snd b))
             (fun _ _ => false)); [|apply strict_weak_false].
    apply (strict_weak_on Nat.ltb snd), strict_weak_nat. }
  split; [apply Hsw|]. split.
  - intros a b c. now apply strict_weak_trans.
  - apply nameSorter_cases.
Qed.

(** ** The unwind instruction *)

Lemma string_bytes_app (a b : string) :
  string_bytes (a +:+ b) = string_bytes a ++ string_bytes b.
Proof. induction a as [|c a IH]; simpl; [reflexivity | now rewrite IH]. Qed.

Lemma string_bytes_byte_string (l : list N) :
  Forall (fun b => b < 256)%N l -> string_bytes (byte_string l) = l.
Proof.
  induction 1 as [|b l Hb _ IH]; simpl; [reflexivity|].
  now rewrite N_ascii_embedding, IH.
Qed.

Lemma stamp_value_bytes_small (v w : N) :
  Forall (fun b => b < 256)%N (stamp_value_bytes v w).
Proof.
  unfold stamp_value_bytes. apply Forall_forall. intros b Hb.
  apply list_elem_of_In, in_map_iff in Hb as (k & <- & _).
  now apply N.mod_lt.
Qed.

Lemma stamp_value_bytes_length (v w : N) :
  length (stamp_value_bytes v w) = N.to_nat w.
Proof. unfold stamp_value_bytes. now rewrite length_map, length_seq. Qed.

Lemma le_decode_bytes (v : N) (n : nat) :
  forall a,
    le_decode (map (fun k => (v / 2 ^ (8 * N.of_nat k)) mod 256)%N (seq a n)) =
    ((v / 2 ^ (8 * N.of_nat a)) mod 2 ^ (8 * N.of_nat n))%N.
Proof.
  induction n as [|n IH]; intros a; simpl seq; simpl map; simpl le_decode.
  - now rewrite N.mod_1_r.
  - rewrite IH.
    replace (8 * N.of_nat (S n))%N with (8 + 8 * N.of_nat n)%N by lia.
    replace (8 * N.of_nat (S a))%N with (8 * N.of_nat a + 8)%N by lia.
    rewrite !N.pow_add_r, <- N.Div0.div_div.
    change (2 ^ 8)%N with 256%N.
    now rewrite N.Div0.mod_mul_r.
Qed.

Lemma le_decode_stamp_value_bytes (v w : N) :
  le_decode (stamp_value_bytes v w) = (v mod 2 ^ (8 * w))%N.
Proof.
  unfold stamp_value_bytes. rewrite le_decode_bytes. simpl.
  now rewrite N.div_1_r, N2Nat.id.
Qed.

Lemma dwarf_instruction_bytes (bits v : N) :
  string_bytes (dwarf_instruction bits v) =
    ((if N.eqb bits 64 then [0x16; 0x10; 0x0D; 0x38; 0x1c; 0x06]
      else [0x16; 0x08; 0x09; 0x34; 0x1c; 0x06])
     ++ [0x03] ++ stamp_value_bytes v (bits / 8) ++ [0x27])%N.
Proof.
  unfold dwarf_instruction. rewrite !string_bytes_app.
  rewrite (string_bytes_byte_string (stamp_value_bytes _ _))
    by apply stamp_value_bytes_small.
  destruct (N.eqb bits 64); reflexivity.
Qed.

(** X15.  In the unwind instruction that [eh_update] builds for a 32-bit or
    a 64-bit target, the length that the third byte declares for the
    expression is the number of bytes that follow it, for every stamp
    value. *)
Theorem dwarf_instruction_declares_its_length (bits stamp_value : N) :
  bits = 32%N \/ bits = 64%N ->
  exists opcode reg len expression,
    string_bytes (dwarf_instruction bits stamp_value) =
      opcode :: reg :: len :: expression /\
    opcode = 0x16%N /\ N.of_nat (length expression) = len.
Proof.
  intros Hbits. rewrite dwarf_instruction_bytes.
  destruct Hbits as [-> | ->]; cbn [N.eqb Pos.eqb app]; do 4 eexists;
    (split; [reflexivity|]); (split; [reflexivity|]);
    cbn [length]; rewrite length_app, stamp_value_bytes_length; reflexivity.
Qed.

Lemma dwarf_instruction_declares_its_length_witness :
  exists opcode reg len expression,
    string_bytes (dwarf_instruction 64 0xbeef) =
      opcode :: reg :: len :: expression /\
    opcode = 0x16%N /\ N.of_nat (length expression) = len.
Proof.
  apply (dwarf_instruction_declares_its_length 64 0xbeef). right. reflexivity.
Defined.

(** X16.  The operand of [DW_OP_addr] in the unwind instruction, read as a
    little-endian number of the pointer width, is the stamp value, and the
    operation after it is the XOR: the unwinder undoes the stamp with the
    value that the inserted instructions XOR with. *)
Theorem dwarf_instruction_holds_the_stamp (bits stamp_value : N) :
  bits = 32%N \/ bits = 64%N ->
  (stamp_value < 2 ^ 32)%N ->
  exists front operand,
    string_bytes (dwarf_instruction bits stamp_value) =
      (front ++ [0x03] ++ operand ++ [0x27])%N /\
    length front = 6 /\
    N.of_nat (length operand) = (bits / 8)%N /\
    le_decode operand = stamp_value.
Proof.
  intros Hbits Hv. rewrite dwarf_instruction_bytes.
  eexists _, (stamp_value_bytes stamp_value (bits / 8)).
  split; [reflexivity|]. split; [now destruct (N.eqb bits 64)|].
  rewrite stamp_value_bytes_length, N2Nat.id. split; [reflexivity|].
  rewrite le_decode_stamp_value_bytes. apply N.mod_small.
  destruct Hbits as [-> | ->].
  - exact Hv.
  - eapply N.lt_trans; [exact Hv|]. reflexivity.
Qed.

Lemma dwarf_instruction_holds_the_stamp_witness :
  exists front operand,
    string_bytes (dwarf_instruction 32 0xdeadbeef) =
      (front ++ [0x03] ++ operand ++ [0x27])%N /\
    length front = 6 /\
    N.of_nat (length operand) = (32 / 8)%N /\
    le_decode operand = 0xdeadbeef%N.
Proof.
  apply (dwarf_instruction_holds_the_stamp 32 0xdeadbeef).
  - left. reflexivity.
  - reflexivity.
Defined.

(** ** What eh_update touches *)

Lemma setEhProgram_same (i : Instruction_t) : setEhProgram (getEhProgram i) i = i.
Proof. now destruct i. Qed.

Lemma eh_update_body_fields (dwarf : EhProgramInstruction_t)
  (s s' : StackStamp_t) (p : InsnPtr) :
  eh_update_body dwarf s p = Ok s' ->
  ir_functions (getFileIR s') = ir_functions (getFileIR s) /\
  counters s' = counters s /\
  forall q i, ir_instructions (getFileIR s) !! q = Some i ->
    exists i', ir_instructions (getFileIR s') !! q = Some i' /\
      i' = setEhProgram (getEhProgram i') i /\
      (getEhProgram i = None \/ q <> p -> i' = i) /\
      (is_Some (getEhProgram i') <-> is_Some (getEhProgram i)).
Proof.
  intros H. unfold eh_update_body in H. inv_bind H as ip Hip. apply deref_Ok in Hip.
  assert (Hsame : forall q i, ir_instructions (getFileIR s) !! q = Some i ->
            exists i', ir_instructions (getFileIR s) !! q = Some i' /\
              i' = setEhProgram (getEhProgram i') i /\
              (getEhProgram i = None \/ q <> p -> i' = i) /\
              (is_Some (getEhProgram i') <-> is_Some (getEhProgram i))).
  { intros q i Hq. exists i. now rewrite setEhProgram_same. }
  assert (Halter : forall h q i, is_Some (getEhProgram ip) ->
            ir_instructions (getFileIR s) !! q = Some i ->
            exists i', alter (setEhProgram (Some h)) p (ir_instructions (getFileIR s)) !! q
                       = Some i' /\
              i' = setEhProgram (getEhProgram i') i /\
              (getEhProgram i = None \/ q <> p -> i' = i) /\
              (is_Some (getEhProgram i') <-> is_Some (getEhProgram i))).
  { intros h q i Hsome Hq. destruct (decide (q = p)) as [-> | Hne].
    - rewrite list_lookup_alter_eq, Hq. simpl. eexists. split; [reflexivity|].
      assert (ip = i) as -> by congruence.
      split; [reflexivity|]. split.
      + intros [Hn | Hn]; [|congruence]. rewrite Hn in Hsome. now destruct Hsome.
      + simpl. split; eauto.
    - rewrite list_lookup_alter_ne by congruence. exists i.
      now rewrite setEhProgram_same. }
  destruct (getEhProgram ip) as [h|] eqn:Hh; [|injection H as <-; auto].
  inv_bind H as orig Ho.
  destruct (map_find _ _) as [reuse|].
  - injection H as <-. simpl. repeat split; try reflexivity.
    intros q i. apply Halter. eauto.
  - unfold addEhProgram in H. injection H as <-. simpl. repeat split; try reflexivity.
    intros q i. apply Halter. eauto.
Qed.

Lemma eh_update_loop_fields (dwarf : EhProgramInstruction_t) (l : list InsnPtr) :
  forall s s', eh_update_loop dwarf s l = Ok s' ->
    ir_functions (getFileIR s') = ir_functions (getFileIR s) /\
    counters s' = counters s /\
    forall q i, ir_instructions (getFileIR s) !! q = Some i ->
      exists i', ir_instructions (getFileIR s') !! q = Some i' /\
        i' = setEhProgram (getEhProgram i') i /\
        (getEhProgram i = None \/ q ∉ l -> i' = i) /\
        (is_Some (getEhProgram i') <-> is_Some (getEhProgram i)).
Proof.
  induction l as [|p l IH]; intros s s' H; simpl in H.
  - injection H as <-. repeat split; try reflexivity.
    intros q i Hq. exists i. now rewrite setEhProgram_same.
  - inv_bind H as s1 H1. apply eh_update_body_fields in H1 as (Hf1 & Hc1 & Hi1).
    apply IH in H as (Hf & Hc & Hi). split; [congruence|]. split; [congruence|].
    intros q i Hq. destruct (Hi1 q i Hq) as (i1 & Hq1 & E1 & K1 & S1).
    destruct (Hi q i1 Hq1) as (i2 & Hq2 & E2 & K2 & S2).
    exists i2. split; [exact Hq2|]. split; [|split].
    + rewrite E2 at 1. rewrite E1. reflexivity.
    + intros Hcase. assert (i1 = i) as Heq.
      { apply K1. destruct Hcase as [Hn | Hn]; [now left|].
        right. intros ->. apply Hn. left. }
      subst i1. apply K2. destruct Hcase as [Hn | Hn]; [now left|].
      right. intros Hin. apply Hn. now right.
    + now rewrite S2.
Qed.

(** X17.  [eh_update] changes nothing but the unwind program of
    instructions: functions and counters stay, no instruction is added, an
    instruction differs from what it was in its unwind program at most, and
    not at all when it had none or does not belong to the function; an
    instruction that had an unwind program still has one. *)
Theorem eh_update_changes_only_unwind_programs (s s' : StackStamp_t)
  (f : FuncPtr) (fn : Function_t) :
  ir_functions (getFileIR s) !! f = Some fn ->
  eh_update s f = Ok s' ->
  ir_functions (getFileIR s') = ir_functions (getFileIR s) /\
  counters s' = counters s /\
  forall q i, insn_at s q = Some i ->
    exists i', insn_at s' q = Some i' /\
      i' = setEhProgram (getEhProgram i') i /\
      (getEhProgram i = None \/ q ∉ getInstructions fn -> i' = i) /\
      (is_Some (getEhProgram i') <-> is_Some (getEhProgram i)).
Proof.
  intros Hf H. unfold eh_update in H. inv_bind H as u1 H1. inv_bind H as u2 H2.
  inv_bind H as fn' Hfn. apply deref_Ok in Hfn.
  assert (fn' = fn) as -> by congruence.
  now apply eh_update_loop_fields in H.
Qed.

Lemma eh_update_changes_only_unwind_programs_witness :
  exists s',
    eh_update (StackStamp_new eh_example 0xbeef false) 0 = Ok s' /\
    ir_functions (getFileIR s') = ir_functions eh_example /\
    counters s' = (0, 0, 0)%Z /\
    forall q i, insn_at (StackStamp_new eh_example 0xbeef false) q = Some i ->
      exists i', insn_at s' q = Some i' /\
        i' = setEhProgram (getEhProgram i') i /\
        (getEhProgram i = None \/ q ∉ [0; 1; 2; 3] -> i' = i) /\
        (is_Some (getEhProgram i') <-> is_Some (getEhProgram i)).
Proof.
  eexists. split; [vm_compute; reflexivity|].
  apply (eh_update_changes_only_unwind_programs
           (StackStamp_new eh_example 0xbeef false) _ 0
           {| getName := "f"; getEntryPoint := Some 0; getInstructions := [0; 1; 2; 3] |}).
  - reflexivity.
  - vm_compute. reflexivity.
Defined.

(** ** What the entry-skip patch redirects *)

(** X18.  When the pass over an eligible function completes, the only
    direct targets it has changed on instructions that were not stamped are
    references to the entry from inside the function: such an instruction,
    unless it is a call, now targets the instruction [n] that the entry
    falls through to; calls to the entry, instructions with another target,
    and all instructions outside the function keep their target. *)
Theorem stamp_redirects_only_entry_references (s s' : StackStamp_t) (f : FuncPtr)
  (fn : Function_t) (e : InsnPtr) :
  ir_functions (getFileIR s) !! f = Some fn ->
  NoDup (getInstructions fn) ->
  getEntryPoint fn = Some e ->
  can_stamp s f = Ok true ->
  stamp s f = Ok s' ->
  exists (sites : list InsnPtr) (n : InsnPtr),
    sites `sublist_of` getInstructions fn /\
    (forall y d, y ∈ getInstructions fn ->
       stamp_decision (getFileIR s) f y = Ok d -> (y ∈ sites <-> d = true)) /\
    (getFallthrough <$> insn_at s' e) = Some (Some n) /\
    (forall y i,
       y ∈ getInstructions fn -> y ∉ sites -> y <> e -> insn_at s y = Some i ->
       (getTarget <$> insn_at s' y) = Some (getTarget (patched e (Some n) i))) /\
    (forall q i,
       q ∉ getInstructions fn -> q <> e -> insn_at s q = Some i ->
       (getTarget <$> insn_at s' q) = Some (getTarget i)).
Proof.
  intros Hf Hnd He Hcan H. unfold stamp in H. rewrite Hcan in H. simpl in H.
  rewrite (proj2 (deref_Ok _ _ _) Hf) in H. simpl in H.
  inv_bind H as u Hu. inv_bind H as t Ht. inv_bind H as s1 Hloop.
  inv_bind H as fn1 Hfn1. inv_bind H as s2 Hentry. inv_bind H as s3 Hskip.
  destruct (stamp_loop_sites _ _ _ _ Hloop Hnd) as (sites & Hsub & Hall & Hdec).
  destruct (stamp_all_entry _ _ _ _ Hall f fn Hf) as (fn1' & Hfn1' & He1).
  apply deref_Ok in Hfn1. assert (fn1' = fn1) as -> by congruence.
  rewrite He1, He in Hentry.
  destruct (stamp_insn_shape _ _ _ _ Hentry) as (old & before & Hold & Hbefore & Hft & _ & _).
  destruct (proj2 (stamp_insn_frame _ _ _ _ Hentry) _ _ Hfn1) as (fn2 & Hfn2 & He2).
  rewrite He1, He in He2.
  destruct (skip_stamp_loop_patched f fn2 e _ _ He2 Hnd s2 s3 before Hfn2 Hbefore Hft Hskip)
    as [Hin Hout].
  assert (Hkeep : forall q i, q ∉ sites -> q <> e -> insn_at s q = Some i ->
            ir_instructions (getFileIR s2) !! q = Some i).
  { intros q i Hnot Hne Hi. unfold insn_at in Hi.
    assert (Hi1 : ir_instructions (getFileIR s1) !! q = Some i).
    { eapply (stamp_all_frame _ _ _ _ Hall); eauto. }
    destruct (proj1 (stamp_insn_frame _ _ _ _ Hentry) _ _ Hi1) as (i' & Hi' & _ & Heq).
    now rewrite (Heq Hne) in Hi'. }
  exists sites, (length (ir_instructions (getFileIR s1))).
  split; [exact Hsub|]. split; [exact Hdec|]. split; [|split].
  - rewrite (proj2 (eh_update_targets _ _ _ e H)). unfold insn_at.
    destruct (decide (e ∈ getInstructions fn)) as [Hein | Hein].
    + rewrite (Hin e before Hein Hbefore). simpl. now rewrite patched_fallthrough, Hft.
    + rewrite (Hout e Hein), Hbefore. simpl. now rewrite Hft.
  - intros y i Hy Hnot Hne Hi.
    rewrite (proj1 (eh_update_targets _ _ _ y H)). unfold insn_at.
    now rewrite (Hin y i Hy (Hkeep y i Hnot Hne Hi)).
  - intros q i Hq Hne Hi.
    rewrite (proj1 (eh_update_targets _ _ _ q H)). unfold insn_at.
    rewrite (Hout q Hq).
    assert (Hnot : q ∉ sites).
    { intros Hin'. apply Hq. eapply elem_of_sublist; eauto. }
    now rewrite (Hkeep q i Hnot Hne Hi).
Qed.

Lemma stamp_redirects_only_entry_references_witness :
  exists s',
    stamp (StackStamp_new loop_at_entry 0xbeef false) 0 = Ok s' /\
    exists (sites : list InsnPtr) (n : InsnPtr),
      sites `sublist_of` [0; 1; 2; 3] /\
      (forall y d, y ∈ [0; 1; 2; 3] ->
         stamp_decision loop_at_entry 0 y = Ok d -> (y ∈ sites <-> d = true)) /\
      (getFallthrough <$> insn_at s' 0) = Some (Some n) /\
      (forall y i,
         y ∈ [0; 1; 2; 3] -> y ∉ sites -> y <> 0 ->
         insn_at (StackStamp_new loop_at_entry 0xbeef false) y = Some i ->
         (getTarget <$> insn_at s' y) = Some (getTarget (patched 0 (Some n) i))) /\
      (forall q i,
         q ∉ [0; 1; 2; 3] -> q <> 0 ->
         insn_at (StackStamp_new loop_at_entry 0xbeef false) q = Some i ->
         (getTarget <$> insn_at s' q) = Some (getTarget i)).
Proof.
  eexists. split; [vm_compute; reflexivity|].
  apply (stamp_redirects_only_entry_references
           (StackStamp_new loop_at_entry 0xbeef false) _ 0
           {| getName := "f"; getEntryPoint := Some 0; getInstructions := [0; 1; 2; 3] |} 0).
  - reflexivity.
  - apply (bool_decide_unpack _). vm_compute. exact I.
  - reflexivity.
  - vm_compute. reflexivity.
  - vm_compute. reflexivity.
Defined.

(** ** Well-formed pointers *)

Lemma forallb_Forall {A} (p : A -> bool) (l : list A) :
  forallb p l = true <-> Forall (fun x => p x = true) l.
Proof.
  rewrite forallb_forall, Forall_forall. split; intros H x Hx; apply H;
    now apply list_elem_of_In.
Qed.

Lemma well_formed_wf (s : StackStamp_t) : well_formed s = true <-> wf s.
Proof.
  unfold well_formed. rewrite !andb_true_iff, !forallb_Forall. split.
  - intros [[H1 H2] H3]. constructor; [exact H1 | exact H2 |].
    eapply Forall_impl; [exact H3|]. intros kv. apply Nat.ltb_lt.
  - intros [H1 H2 H3]. split; [split; assumption|].
    eapply Forall_impl; [exact H3|]. intros kv. apply Nat.ltb_lt.
Qed.

Lemma pointer_ok_mono (n m : nat) (p : option nat) :
  n <= m -> pointer_ok n p = true -> pointer_ok m p = true.
Proof.
  intros Hle. destruct p as [x|]; simpl; [|auto].
  rewrite !Nat.ltb_lt. lia.
Qed.

Lemma function_ok_mono (n m : nat) (fn : Function_t) :
  n <= m -> function_ok n fn = true -> function_ok m fn = true.
Proof.
  intros Hle. unfold function_ok. rewrite !andb_true_iff, !forallb_Forall.
  intros [H1 H2]. split; [|eapply pointer_ok_mono; eauto].
  eapply Forall_impl; [exact H1|]. intros p. simpl. rewrite !Nat.ltb_lt. lia.
Qed.

Lemma instruction_ok_mono (n n' m m' : nat) (i : Instruction_t) :
  n <= n' -> m <= m' -> instruction_ok n m i = true -> instruction_ok n' m' i = true.
Proof.
  intros Hn Hm. unfold instruction_ok. rewrite !andb_true_iff.
  intros [H1 H2]. split; eapply pointer_ok_mono; eauto.
Qed.

Lemma function_ok_add (n : nat) (fn : Function_t) :
  function_ok (S n) fn = true -> function_ok (S n) (add_instruction n fn) = true.
Proof.
  intros H.
  unfold function_ok, add_instruction in *. simpl.
  apply andb_true_iff in H as [H1 H2]. rewrite H2, andb_true_r.
  case_bool_decide; [exact H1|].
  rewrite forallb_app, H1. simpl. rewrite andb_true_r. apply Nat.ltb_lt. lia.
Qed.

Lemma stamp_insn_wf (s s' : StackStamp_t) (f : FuncPtr) (i : option InsnPtr) :
  wf s -> stamp_insn s f i = Ok s' -> wf s'.
Proof.
  intros [Hf Hi Hc] H. destruct i as [p|]; [|discriminate]. unfold stamp_insn in H.
  inv_bind H as r Hr. inv_bind H as n Hn. injection H as <-.
  unfold insertAssemblyBefore in Hr. inv_bind Hr as old Hold. apply deref_Ok in Hold.
  assert (Hold_ok := proj1 (Forall_lookup _ _) Hi _ _ Hold).
  set (before := {| decoded := KOther; getDisassembly := _; getTarget := None;
                    getFallthrough := _; getIBTargets := None; getRelocations := [];
                    getEhProgram := getEhProgram old; getFunction := getFunction old |})
    in Hr.
  assert (Hbefore : instruction_ok (length (ir_functions (getFileIR s)))
                      (length (ir_eh_programs (getFileIR s))) before = true)
    by exact Hold_ok.
  assert (Hi' : Forall (fun i => instruction_ok (length (ir_functions (getFileIR s)))
                                   (length (ir_eh_programs (getFileIR s))) i = true)
                  (<[p := before]> (ir_instructions (getFileIR s)) ++ [old])).
  { apply Forall_app. split; [now apply Forall_insert | now constructor]. }
  assert (Hlen : length (<[p := before]> (ir_instructions (getFileIR s)) ++ [old]) =
                 S (length (ir_instructions (getFileIR s)))).
  { rewrite length_app, length_insert. simpl. lia. }
  destruct (getFunction old) as [g|].
  - inv_bind Hr as fng Hg. injection Hr as <-. constructor; simpl.
    + rewrite Hlen. apply Forall_alter.
      * eapply Forall_impl; [exact Hf|]. intros fn. apply function_ok_mono. lia.
      * intros fn _. apply function_ok_add.
    + now rewrite length_alter.
    + exact Hc.
  - injection Hr as <-. constructor; simpl.
    + rewrite Hlen. eapply Forall_impl; [exact Hf|]. intros fn.
      apply function_ok_mono. lia.
    + exact Hi'.
    + exact Hc.
Qed.

Lemma alter_instruction_wf (s : StackStamp_t) (g : Instruction_t -> Instruction_t)
  (p : InsnPtr) :
  (forall i n m, instruction_ok n m i = true -> instruction_ok n m (g i) = true) ->
  wf s ->
  wf (set_ir (set_instructions (alter g p (ir_instructions (getFileIR s)))
                (getFileIR s)) s).
Proof.
  intros Hg [Hf Hi Hc]. constructor; simpl.
  - now rewrite length_alter.
  - apply Forall_alter; [exact Hi|]. intros i _. apply Hg.
  - exact Hc.
Qed.

Lemma skip_stamp_loop_wf (f : FuncPtr) (l : list InsnPtr) :
  forall s s', wf s -> skip_stamp_loop f s l = Ok s' -> wf s'.
Proof.
  induction l as [|p l IH]; intros s s' Hwf H; simpl in H.
  - now injection H as <-.
  - inv_bind H as s1 H1. apply (IH s1); [|exact H]. clear H IH.
    unfold skip_stamp_body in H1.
    inv_bind H1 as i Hi. inv_bind H1 as fn Hfn.
    case_bool_decide; [|now injection H1 as <-].
    destruct (negb (isCall (decoded i))); [|now injection H1 as <-].
    destruct (getEntryPoint fn) as [e|]; [|discriminate].
    inv_bind H1 as entry He. injection H1 as <-.
    now apply alter_instruction_wf.
Qed.

Lemma stamp_loop_wf (f : FuncPtr) (l : list InsnPtr) :
  forall s s', wf s -> stamp_loop f s l = Ok s' -> wf s'.
Proof.
  induction l as [|p l IH]; intros s s' Hwf H; simpl in H.
  - now injection H as <-.
  - inv_bind H as s1 H1. apply (IH s1); [|exact H].
    rewrite stamp_body_decision in H1. inv_bind H1 as d Hd.
    destruct d; [eapply stamp_insn_wf; eauto | now injection H1 as <-].
Qed.

Lemma eh_update_body_wf (dwarf : EhProgramInstruction_t)
  (s s' : StackStamp_t) (p : InsnPtr) :
  wf s -> eh_update_body dwarf s p = Ok s' -> wf s'.
Proof.
  intros Hwf H. unfold eh_update_body in H. inv_bind H as i Hi.
  destruct (getEhProgram i) as [h|]; [|now injection H as <-].
  inv_bind H as orig Ho.
  destruct (map_find _ _) as [reuse|] eqn:Hfind.
  - injection H as <-. destruct Hwf as [Hf Hi' Hc]. constructor; simpl.
    + now rewrite length_alter.
    + apply Forall_alter; [exact Hi'|]. intros j _.
      unfold instruction_ok. simpl. rewrite !andb_true_iff. intros [H1 _].
      split; [exact H1|]. apply Nat.ltb_lt.
      destruct (map_find_Some _ _ _ Hfind) as (k' & Hin & _).
      exact (proj1 (Forall_forall _ _) Hc _ Hin).
    + exact Hc.
  - unfold addEhProgram in H. injection H as <-.
    destruct Hwf as [Hf Hi' Hc]. constructor; simpl.
    + now rewrite length_alter.
    + rewrite length_alter, length_app. simpl. apply Forall_alter.
      * eapply Forall_impl; [exact Hi'|]. intros j. apply instruction_ok_mono; lia.
      * intros j _. unfold instruction_ok. simpl. rewrite !andb_true_iff.
        intros [H1 _]. split; [exact H1|]. apply Nat.ltb_lt. lia.
    + rewrite length_alter, length_app. simpl.
      rewrite (map_assign_new _ _ _ Hfind). apply Forall_app. split.
      * eapply Forall_impl; [exact Hc|]. intros kv. simpl. lia.
      * constructor; [simpl; lia | constructor].
Qed.

Lemma eh_update_loop_wf (dwarf : EhProgramInstruction_t) (l : list InsnPtr) :
  forall s s', wf s -> eh_update_loop dwarf s l = Ok s' -> wf s'.
Proof.
  induction l as [|p l IH]; intros s s' Hwf H; simpl in H.
  - now injection H as <-.
  - inv_bind H as s1 H1. apply (IH s1); [|exact H].
    eapply eh_update_body_wf; eauto.
Qed.

Lemma stamp_wf (s s' : StackStamp_t) (f : FuncPtr) :
  wf s -> stamp s f = Ok s' -> wf s'.
Proof.
  intros Hwf H. unfold stamp in H. inv_bind H as ok Hok. destruct ok; simpl in H.
  - inv_bind H as fn Hfn. inv_bind H as u Hu. inv_bind H as n Hn.
    inv_bind H as s1 H1. inv_bind H as fn1 Hfn1. inv_bind H as s2 H2.
    inv_bind H as s3 H3.
    unfold eh_update in H. inv_bind H as u1 Hu1. inv_bind H as u2 Hu2.
    inv_bind H as fn3 Hfn3.
    refine (eh_update_loop_wf _ _ s3 _ _ H).
    refine (skip_stamp_loop_wf f _ s2 _ _ H3).
    refine (stamp_insn_wf s1 _ f _ _ H2).
    refine (stamp_loop_wf f _ (set_functions_transformed n s) _ _ H1).
    destruct Hwf. now constructor.
  - inv_bind H as n Hn. injection H as <-. destruct Hwf. now constructor.
Qed.

Lemma execute_loop_wf (env : option string) (funcs : list FuncPtr) :
  forall s s', wf s -> execute_loop env s funcs = Ok s' -> wf s'.
Proof.
  induction funcs as [|func funcs IH]; intros s s' Hwf H; simpl in H.
  - now injection H as <-.
  - inv_bind H as s1 H1. apply (IH s1); [|exact H].
    unfold execute_body in H1. destruct env as [str|]; [|eapply stamp_wf; eauto].
    inv_bind H1 as cap Hcap.
    destruct (m_functions_transformed s >? cap)%Z; [|eapply stamp_wf; eauto].
    now injection H1 as <-.
Qed.

(** X19.  The transform keeps the pointers of the IR well formed: when
    every function's instructions and entry, every instruction's function
    and unwind program and every program of the cache exist before a run of
    [execute], they do after it, new instructions and programs included. *)
Theorem execute_keeps_well_formed (env : option string)
  (s s' : StackStamp_t) (b : bool) :
  well_formed s = true ->
  execute env s = Ok (s', b) ->
  well_formed s' = true.
Proof.
  rewrite !well_formed_wf. intros Hwf H. unfold execute in H.
  inv_bind H as s1 H1. injection H as <- _.
  apply (execute_loop_wf _ _ _ _ Hwf) in H1. destruct H1. now constructor.
Qed.

Lemma execute_keeps_well_formed_witness :
  exists s' b,
    execute None (StackStamp_new eh_example_fixed 0xbeef false) = Ok (s', b) /\
    well_formed s' = true.
Proof.
  eexists _, _. split; [vm_compute; reflexivity|].
  eapply (execute_keeps_well_formed None
            (StackStamp_new eh_example_fixed 0xbeef false)).
  - vm_compute. reflexivity.
  - vm_compute. reflexivity.
Defined.

(** ** can_stamp against the loop of stamp *)

Lemma find_if_res_not_assert {A} (p : A -> res bool) (l : list A) :
  (forall x, p x <> AssertFail) -> find_if_res p l <> AssertFail.
Proof.
  intros Hp. induction l as [|x l IH]; simpl; [discriminate|].
  specialize (Hp x). destruct (p x) as [[|]| |]; simpl; try congruence.
  destruct (find_if_res p l); simpl; congruence.
Qed.

Lemma target_leaves_not_assert (ir : FileIR_t) (f : FuncPtr) (t : InsnPtr) :
  target_leaves ir f t <> AssertFail.
Proof. unfold target_leaves, deref. destruct (_ !! _); discriminate. Qed.

Lemma target_stays_not_assert (ir : FileIR_t) (f : FuncPtr) (t : InsnPtr) :
  target_stays ir f t <> AssertFail.
Proof. unfold target_stays, deref. destruct (_ !! _); discriminate. Qed.

(** X20.  The last assertion of [can_stamp], the one that checks its own
    logic, never fires: an assertion of [can_stamp] fails on an instruction
    only when that is an unconditional branch with indirect targets that has
    a fallthrough or whose target set is empty. *)
Theorem can_stamp_body_assertions (ir : FileIR_t) (f : FuncPtr) (p : InsnPtr) :
  can_stamp_body ir f p = AssertFail ->
  exists i targets,
    ir_instructions ir !! p = Some i /\
    isUnconditionalBranch (decoded i) = true /\
    getIBTargets i = Some targets /\
    (getFallthrough i <> None \/ icfs_targets targets = []).
Proof.
  unfold can_stamp_body, deref. destruct (ir_instructions ir !! p) as [i|]; [|discriminate].
  simpl. intros H. exists i.
  destruct (findRelocation i fix_call_fallthrough_string) as [reloc| |] eqn:Hr;
    simpl in H; [| exfalso | discriminate].
  2:{ destruct (has_relocation_dec i fix_call_fallthrough_string) as [Hy | Hn].
      - rewrite (findRelocation_found _ _ Hy) in Hr. discriminate.
      - rewrite (findRelocation_not_found _ _ Hn) in Hr. discriminate. }
  destruct (isReturn (decoded i)); [discriminate|].
  destruct (isCall (decoded i) || bool_decide (reloc <> None)); [discriminate|].
  destruct (exits_function ir f (getTarget i)) as [exits| |] eqn:He; simpl in H;
    try discriminate.
  - destruct exits; [destruct (bool_decide _); discriminate|].
    destruct (getIBTargets i) as [targets|]; [|discriminate]. exists targets.
    destruct (isUnconditionalBranch (decoded i)); [|discriminate].
    split; [reflexivity|]. split; [reflexivity|]. split; [reflexivity|].
    case_bool_decide as Hft; simpl in H; [|now left].
    destruct (length (icfs_targets targets)) as [|n] eqn:Hlen; simpl in H.
    { right. now destruct (icfs_targets targets). }
    exfalso. rewrite <- Hlen in H.
    pose proof (find_if_res_not_assert (target_leaves ir f) (icfs_targets targets)
                  (target_leaves_not_assert ir f)) as Hl.
    pose proof (find_if_res_not_assert (target_stays ir f) (icfs_targets targets)
                  (target_stays_not_assert ir f)) as Hs.
    destruct (find_if_res (target_leaves ir f) _) as [leaver| |]; simpl in H;
      try congruence.
    destruct (find_if_res (target_stays ir f) _) as [stayer| |]; simpl in H;
      try congruence.
    destruct (leaver =? _), (stayer =? _); simpl in H; discriminate.
  - exfalso. destruct (getTarget i) as [t|]; simpl in He; [|discriminate].
    now apply target_leaves_not_assert in He.
Qed.

Lemma can_stamp_body_assertions_witness :
  exists i targets,
    ir_instructions indirect_branch_with_fallthrough !! 1 = Some i /\
    isUnconditionalBranch (decoded i) = true /\
    getIBTargets i = Some targets /\
    (getFallthrough i <> None \/ icfs_targets targets = []).
Proof.
  apply (can_stamp_body_assertions indirect_branch_with_fallthrough 0 1).
  vm_compute. reflexivity.
Defined.

Lemma can_stamp_body_decides (ir : FileIR_t) (f : FuncPtr) (fn : Function_t)
  (p : InsnPtr) :
  ir_functions ir !! f = Some fn ->
  can_stamp_body ir f p = Ok true ->
  exists i d,
    ir_instructions ir !! p = Some i /\
    stamp_decision ir f p = Ok d /\
    (d = true <->
     isReturn (decoded i) = true \/
     (isCall (decoded i) = false /\
      (exits_function ir f (getTarget i) = Ok true \/
       (isUnconditionalBranch (decoded i) = true /\
        exists targets, getIBTargets i = Some targets /\
          (Some p = getEntryPoint fn \/
           find_if_res (target_stays ir f) (icfs_targets targets) =
             Ok (length (icfs_targets targets))))))).
Proof.
  intros Hf. unfold can_stamp_body, stamp_decision, deref.
  destruct (ir_instructions ir !! p) as [i|]; [|discriminate]. simpl.
  intros H. exists i.
  destruct (findRelocation i fix_call_fallthrough_string) as [reloc| |] eqn:Hr;
    simpl in *; try discriminate.
  apply findRelocation_Ok in Hr as [-> _].
  destruct (isReturn (decoded i)) eqn:Hret.
  { exists true. repeat split; auto. }
  rewrite bool_decide_eq_false_2 in * by congruence. rewrite orb_false_r in *.
  destruct (isCall (decoded i)) eqn:Hcall.
  { exists false. repeat split; try discriminate.
    intros [? | [? _]]; discriminate. }
  destruct (exits_function ir f (getTarget i)) as [exits| |] eqn:He; simpl in *;
    try discriminate.
  destruct exits.
  { case_bool_decide as Hft; [discriminate|].
    rewrite bool_decide_eq_true_2 by (destruct (getFallthrough i); congruence).
    simpl. exists true. repeat split; auto. }
  destruct (getIBTargets i) as [targets|] eqn:Hib.
  2:{ exists false. repeat split; try discriminate.
      intros [? | [_ [? | (_ & t & ? & _)]]]; discriminate. }
  destruct (isUnconditionalBranch (decoded i)) eqn:Hunc.
  2:{ exists false. repeat split; try discriminate.
      intros [? | [_ [? | (? & _)]]]; discriminate. }
  destruct (assert (bool_decide (getFallthrough i = None))) as [[]| |]; simpl in *;
    try discriminate.
  destruct (assert (negb (length (icfs_targets targets) =? 0))) as [[]| |]; simpl in *;
    try discriminate.
  destruct (find_if_res (target_leaves ir f) (icfs_targets targets)) as [leaver| |];
    simpl in *; try discriminate.
  destruct (find_if_res (target_stays ir f) (icfs_targets targets)) as [stayer| |]
    eqn:Hstay; simpl in *; try discriminate.
  rewrite Hf. simpl. eexists. split; [reflexivity|]. split; [reflexivity|].
  destruct (Nat.eqb_spec stayer (length (icfs_targets targets))) as [-> | Hne];
    simpl in *.
  - rewrite orb_true_r. split; [|reflexivity]. intros _. right. split; [reflexivity|].
    right. split; [reflexivity|]. exists targets. auto.
  - destruct (leaver =? length (icfs_targets targets)); simpl in H; [|discriminate].
    simpl. rewrite !orb_false_r. rewrite bool_decide_eq_true. split.
    + intros Hentry. right. split; [reflexivity|]. right. split; [reflexivity|].
      exists targets. auto.
    + intros [? | [_ [? | (_ & t & Ht & [Hentry | Hall])]]]; try discriminate.
      * exact Hentry.
      * congruence.
Qed.

(** X21.  On an instruction that [can_stamp] accepts, the loop of [stamp]
    takes a defined decision: none of its assertions fires.  It stamps
    exactly a return, or a non-call whose direct target leaves the function
    or that is an unconditional branch with indirect targets at the entry
    or with no target inside the function; the test on incomplete target
    sets never decides. *)
Theorem accepted_instruction_is_decided (ir : FileIR_t) (f : FuncPtr)
  (fn : Function_t) (p : InsnPtr) :
  ir_functions ir !! f = Some fn ->
  can_stamp_body ir f p = Ok true ->
  exists i d,
    ir_instructions ir !! p = Some i /\
    stamp_decision ir f p = Ok d /\
    (d = true <->
     isReturn (decoded i) = true \/
     (isCall (decoded i) = false /\
      (exits_function ir f (getTarget i) = Ok true \/
       (isUnconditionalBranch (decoded i) = true /\
        exists targets, getIBTargets i = Some targets /\
          (Some p = getEntryPoint fn \/
           find_if_res (target_stays ir f) (icfs_targets targets) =
             Ok (length (icfs_targets targets))))))).
Proof. exact (can_stamp_body_decides ir f fn p). Qed.

Lemma accepted_instruction_is_decided_witness :
  exists i d,
    ir_instructions two_functions !! 3 = Some i /\
    stamp_decision two_functions 0 3 = Ok d /\
    (d = true <->
     isReturn (decoded i) = true \/
     (isCall (decoded i) = false /\
      (exits_function two_functions 0 (getTarget i) = Ok true \/
       (isUnconditionalBranch (decoded i) = true /\
        exists targets, getIBTargets i = Some targets /\
          (Some 3 = getEntryPoint
                      {| getName := "zeta"; getEntryPoint := Some 0;
                         getInstructions := [0; 1; 2; 3] |} \/
           find_if_res (target_stays two_functions 0) (icfs_targets targets) =
             Ok (length (icfs_targets targets))))))).
Proof.
  apply (accepted_instruction_is_decided two_functions 0
           {| getName := "zeta"; getEntryPoint := Some 0;
              getInstructions := [0; 1; 2; 3] |} 3).
  - reflexivity.
  - vm_compute. reflexivity.
Defined.

(** ** The pass over an accepted function completes *)

Lemma extends_length (s s' : StackStamp_t) :
  extends s s' ->
  length (ir_instructions (getFileIR s)) <= length (ir_instructions (getFileIR s')).
Proof. intros []. lia. Qed.

Lemma wf_instruction (s : StackStamp_t) (p : InsnPtr) (i : Instruction_t) :
  wf s -> ir_instructions (getFileIR s) !! p = Some i ->
  (forall g, getFunction i = Some g -> g < length (ir_functions (getFileIR s))) /\
  (forall h, getEhProgram i = Some h -> h < length (ir_eh_programs (getFileIR s))).
Proof.
  intros [_ Hi _] Hp. pose proof (proj1 (Forall_lookup _ _) Hi _ _ Hp) as H.
  unfold instruction_ok in H. apply andb_true_iff in H as [H1 H2].
  split; intros x Hx; [rewrite Hx in H1 | rewrite Hx in H2]; simpl in *;
    now apply Nat.ltb_lt.
Qed.

Lemma wf_function (s : StackStamp_t) (f : FuncPtr) (fn : Function_t) :
  wf s -> ir_functions (getFileIR s) !! f = Some fn ->
  Forall (fun p => p < length (ir_instructions (getFileIR s))) (getInstructions fn) /\
  (forall e, getEntryPoint fn = Some e -> e < length (ir_instructions (getFileIR s))).
Proof.
  intros [Hf _ _] Hfn. pose proof (proj1 (Forall_lookup _ _) Hf _ _ Hfn) as H.
  unfold function_ok in H. apply andb_true_iff in H as [H1 H2]. split.
  - apply forallb_Forall in H1. eapply Forall_impl; [exact H1|].
    intros p. apply Nat.ltb_lt.
  - intros e He. rewrite He in H2. now apply Nat.ltb_lt.
Qed.

Lemma stamp_insn_total (s : StackStamp_t) (f : FuncPtr) (p : InsnPtr) :
  wf s -> p < length (ir_instructions (getFileIR s)) ->
  (m_instructions_added s < INT_MAX)%Z ->
  exists s', stamp_insn s f (Some p) = Ok s'.
Proof.
  intros Hwf Hp Hmax. destruct (lookup_lt_is_Some_2 _ _ Hp) as [old Hold].
  unfold stamp_insn, insertAssemblyBefore.
  rewrite (proj2 (deref_Ok _ _ _) Hold). simpl.
  unfold int_incr. rewrite (proj2 (Z.ltb_lt _ _) Hmax).
  destruct (getFunction old) as [g|] eqn:Hg; simpl; [|eauto].
  destruct (lookup_lt_is_Some_2 _ _ (proj1 (wf_instruction _ _ _ Hwf Hold) g Hg))
    as [fng Hfng].
  rewrite (proj2 (deref_Ok _ _ _) Hfng). simpl. eauto.
Qed.

Lemma stamp_loop_total (f : FuncPtr) (l : list InsnPtr) :
  forall s,
    wf s -> NoDup l ->
    Forall (fun p => p < length (ir_instructions (getFileIR s))) l ->
    (forall p, p ∈ l -> exists d, stamp_decision (getFileIR s) f p = Ok d) ->
    (m_instructions_added s + Z.of_nat (length l) <= INT_MAX)%Z ->
    exists s', stamp_loop f s l = Ok s' /\
      (m_instructions_added s' <= m_instructions_added s + Z.of_nat (length l))%Z.
Proof.
  induction l as [|p l IH]; intros s Hwf Hnd Hval Hdec Hmax.
  - exists s. simpl. split; [reflexivity | lia].
  - apply NoDup_cons in Hnd as [Hp Hnd]. apply Forall_cons in Hval as [Hpv Hval].
    change (length (p :: l)) with (S (length l)) in *.
    cbn [stamp_loop]. rewrite stamp_body_decision.
    destruct (Hdec p) as [d Hd]; [left|]. rewrite Hd. cbn [bind]. destruct d.
    + destruct (stamp_insn_total s f p Hwf Hpv) as [s1 H1]; [lia|].
      rewrite H1. simpl.
      pose proof (stamp_insn_counters _ _ _ _ H1) as Hc. unfold counters in Hc.
      injection Hc as Hc _ _.
      destruct (IH s1) as (s' & Hrun & Hle).
      * eapply stamp_insn_wf; eauto.
      * exact Hnd.
      * eapply Forall_impl; [exact Hval|]. intros q Hq. simpl in Hq.
        pose proof (extends_length _ _ (stamp_insn_extends _ _ _ _ H1)). lia.
      * intros q Hq. destruct (Hdec q) as [dq Hdq]; [now right|]. exists dq.
        eapply stamp_decision_frame; [eapply stamp_insn_frame; eauto | | exact Hdq].
        intros ->. contradiction.
      * lia.
      * exists s'. split; [exact Hrun | lia].
    + destruct (IH s Hwf Hnd Hval) as (s' & Hrun & Hle).
      * intros q Hq. apply Hdec. now right.
      * lia.
      * exists s'. split; [exact Hrun | lia].
Qed.

Lemma skip_stamp_loop_total (f : FuncPtr) (fn : Function_t) (e : InsnPtr)
  (l : list InsnPtr) :
  getEntryPoint fn = Some e ->
  forall s,
    ir_functions (getFileIR s) !! f = Some fn ->
    e < length (ir_instructions (getFileIR s)) ->
    Forall (fun p => p < length (ir_instructions (getFileIR s))) l ->
    exists s', skip_stamp_loop f s l = Ok s'.
Proof.
  intros He. induction l as [|p l IH]; intros s Hf Hev Hval; simpl; [eauto|].
  apply Forall_cons in Hval as [Hpv Hval].
  destruct (lookup_lt_is_Some_2 _ _ Hpv) as [i Hi].
  destruct (lookup_lt_is_Some_2 _ _ Hev) as [entry Hentry].
  unfold skip_stamp_body. rewrite (proj2 (deref_Ok _ _ _) Hi). simpl.
  rewrite (proj2 (deref_Ok _ _ _) Hf). simpl. rewrite He.
  destruct (bool_decide (getTarget i = Some e) && negb (isCall (decoded i))) eqn:Hb.
  - apply andb_true_iff in Hb as [-> ->]. simpl.
    rewrite (proj2 (deref_Ok _ _ _) Hentry). simpl. apply IH; simpl.
    + exact Hf.
    + now rewrite length_alter.
    + now rewrite length_alter.
  - assert (Hs : (if bool_decide (getTarget i = Some e)
                  then if negb (isCall (decoded i))
                       then entry <~ deref (ir_instructions (getFileIR s)) e ;;
                            Ok (set_ir (set_instructions
                                  (alter (setTarget (getFallthrough entry)) p
                                     (ir_instructions (getFileIR s))) (getFileIR s)) s)
                       else Ok s
                  else Ok s) = Ok s).
    { destruct (bool_decide _); [|reflexivity].
      destruct (negb _); [discriminate | reflexivity]. }
    rewrite Hs. simpl. now apply IH.
Qed.

Lemma eh_update_loop_total (dwarf : EhProgramInstruction_t) (l : list InsnPtr) :
  forall s,
    wf s ->
    Forall (fun p => p < length (ir_instructions (getFileIR s))) l ->
    exists s', eh_update_loop dwarf s l = Ok s'.
Proof.
  induction l as [|p l IH]; intros s Hwf Hval; simpl; [eauto|].
  apply Forall_cons in Hval as [Hpv Hval].
  assert (Hbody : exists s1, eh_update_body dwarf s p = Ok s1).
  { destruct (lookup_lt_is_Some_2 _ _ Hpv) as [i Hi].
    unfold eh_update_body. rewrite (proj2 (deref_Ok _ _ _) Hi). simpl.
    destruct (getEhProgram i) as [h|] eqn:Hh; [|eauto].
    destruct (lookup_lt_is_Some_2 _ _ (proj2 (wf_instruction _ _ _ Hwf Hi) h Hh))
      as [orig Ho].
    rewrite (proj2 (deref_Ok _ _ _) Ho). simpl.
    destruct (map_find _ _); [eauto|]. unfold addEhProgram. eauto. }
  destruct Hbody as [s1 H1]. rewrite H1. simpl. apply IH.
  - eapply eh_update_body_wf; eauto.
  - eapply Forall_impl; [exact Hval|]. intros q Hq. simpl in Hq.
    pose proof (extends_length _ _ (eh_update_body_extends _ _ _ _ H1)). lia.
Qed.

Lemma stamp_total (s : StackStamp_t) (f : FuncPtr) (fn : Function_t) :
  wf s ->
  ir_functions (getFileIR s) !! f = Some fn ->
  NoDup (getInstructions fn) ->
  can_stamp s f = Ok true ->
  getArchitectureBitWidth (getFileIR s) = 32%N \/
  getArchitectureBitWidth (getFileIR s) = 64%N ->
  (m_functions_transformed s < INT_MAX)%Z ->
  (m_instructions_added s + Z.of_nat (length (getInstructions fn)) < INT_MAX)%Z ->
  exists s', stamp s f = Ok s'.
Proof.
  intros Hwf Hf Hnd Hcan Hbits Ht Ha.
  assert (Hacc : forall p, p ∈ getInstructions fn ->
            can_stamp_body (getFileIR s) f p = Ok true /\ getEntryPoint fn <> None).
  { unfold can_stamp in Hcan. rewrite (proj2 (deref_Ok _ _ _) Hf) in Hcan.
    simpl in Hcan. case_bool_decide as He; [discriminate|].
    destruct (String.eqb _ _); [discriminate|].
    destruct (Nat.leb _ _); [discriminate|].
    intros p Hp. split; [|exact He].
    now apply (proj1 (can_stamp_loop_accept _ _ _) Hcan). }
  assert (He : exists e, getEntryPoint fn = Some e).
  { unfold can_stamp in Hcan. rewrite (proj2 (deref_Ok _ _ _) Hf) in Hcan.
    simpl in Hcan. case_bool_decide as He; [discriminate|].
    destruct (getEntryPoint fn) as [e|]; [eauto | contradiction]. }
  destruct He as [e He].
  destruct (wf_function _ _ _ Hwf Hf) as [Hval Hentry]. specialize (Hentry e He).
  unfold stamp. rewrite Hcan. simpl. rewrite (proj2 (deref_Ok _ _ _) Hf). simpl.
  rewrite bool_decide_eq_true_2 by congruence. simpl.
  unfold int_incr at 1. rewrite (proj2 (Z.ltb_lt _ _) Ht). simpl.
  set (s0 := set_functions_transformed (m_functions_transformed s + 1) s).
  destruct (stamp_loop_total f (getInstructions fn) s0) as (s1 & H1 & Hle1).
  { destruct Hwf. now constructor. }
  { exact Hnd. }
  { exact Hval. }
  { intros p Hp. destruct (can_stamp_body_decides _ f fn p Hf (proj1 (Hacc p Hp)))
      as (i & d & _ & Hd & _). eauto. }
  { simpl. lia. }
  rewrite H1. simpl.
  pose proof (stamp_loop_extends _ _ _ _ H1) as Hext1.
  assert (Hwf1 : wf s1).
  { refine (stamp_loop_wf f _ s0 _ _ H1). destruct Hwf. now constructor. }
  destruct (Forall2_lookup_l _ _ _ _ _ (ext_functions _ _ Hext1) Hf)
    as (fn1 & Hfn1 & _ & He1 & _).
  rewrite (proj2 (deref_Ok _ _ _) Hfn1). simpl. rewrite He1, He.
  pose proof (extends_length _ _ Hext1) as Hlen1. simpl in Hlen1.
  destruct (stamp_insn_total s1 f e Hwf1) as [s2 H2]; [lia | simpl in Hle1; lia |].
  rewrite H2. simpl.
  pose proof (stamp_insn_extends _ _ _ _ H2) as Hext2.
  pose proof (stamp_insn_wf _ _ _ _ Hwf1 H2) as Hwf2.
  pose proof (extends_length _ _ Hext2) as Hlen2.
  destruct (Forall2_lookup_l _ _ _ _ _ (ext_functions _ _ Hext2) Hfn1)
    as (fn2 & Hfn2 & _ & He2 & _).
  destruct (skip_stamp_loop_total f fn2 e (getInstructions fn)) with (s := s2)
    as [s3 H3].
  { congruence. }
  { exact Hfn2. }
  { lia. }
  { eapply Forall_impl; [exact Hval|]. intros q Hq. simpl in Hq. lia. }
  rewrite H3. simpl.
  pose proof (skip_stamp_loop_extends _ _ _ _ H3) as Hext3.
  pose proof (skip_stamp_loop_wf _ _ _ _ Hwf2 H3) as Hwf3.
  destruct (Forall2_lookup_l _ _ _ _ _ (ext_functions _ _ Hext3) Hfn2)
    as (fn3 & Hfn3 & _).
  unfold eh_update.
  assert (Hb3 : getArchitectureBitWidth (getFileIR s3) =
                getArchitectureBitWidth (getFileIR s)).
  { rewrite (ext_bits _ _ Hext3), (ext_bits _ _ Hext2), (ext_bits _ _ Hext1).
    reflexivity. }
  rewrite Hb3.
  assert (Hassert : assert (N.eqb (getArchitectureBitWidth (getFileIR s) / 8) 4
                            || N.eqb (getArchitectureBitWidth (getFileIR s) / 8) 8)
                    = Ok tt /\
                    assert (N.leb (getArchitectureBitWidth (getFileIR s) / 8) 8)
                    = Ok tt).
  { destruct Hbits as [-> | ->]; split; reflexivity. }
  destruct Hassert as [-> ->]. simpl.
  rewrite (proj2 (deref_Ok _ _ _) Hfn3). simpl.
  apply eh_update_loop_total; [exact Hwf3|].
  exact (proj1 (wf_function _ _ _ Hwf3 Hfn3)).
Qed.

(** X22.  [can_stamp] and [stamp] agree: on a well-formed IR for a 32-bit
    or a 64-bit target, the pass over a function that [can_stamp] accepts
    runs to completion when the counters have room.  No assertion of
    [stamp], of [stamp(f, i)] or of [eh_update] fires, and no pointer that
    the pass follows is invalid. *)
Theorem stamp_completes (s : StackStamp_t) (f : FuncPtr) (fn : Function_t) :
  well_formed s = true ->
  ir_functions (getFileIR s) !! f = Some fn ->
  NoDup (getInstructions fn) ->
  can_stamp s f = Ok true ->
  getArchitectureBitWidth (getFileIR s) = 32%N \/
  getArchitectureBitWidth (getFileIR s) = 64%N ->
  (m_functions_transformed s < INT_MAX)%Z ->
  (m_instructions_added s + Z.of_nat (length (getInstructions fn)) < INT_MAX)%Z ->
  exists s', stamp s f = Ok s' /\ well_formed s' = true.
Proof.
  intros Hwf Hf Hnd Hcan Hbits Ht Ha. apply well_formed_wf in Hwf.
  destruct (stamp_total s f fn Hwf Hf Hnd Hcan Hbits Ht Ha) as [s' H].
  exists s'. split; [exact H|]. apply well_formed_wf. eapply stamp_wf; eauto.
Qed.

Lemma stamp_completes_witness :
  exists s',
    stamp (StackStamp_new eh_example_fixed 0xbeef false) 0 = Ok s' /\
    well_formed s' = true.
Proof.
  apply (stamp_completes (StackStamp_new eh_example_fixed 0xbeef false) 0
           {| getName := "f"; getEntryPoint := Some 0; getInstructions := [0; 1; 2; 3] |}).
  - vm_compute. reflexivity.
  - reflexivity.
  - apply (bool_decide_unpack _). vm_compute. exact I.
  - vm_compute. reflexivity.
  - right. reflexivity.
  - vm_compute. reflexivity.
  - vm_compute. reflexivity.
Defined.

(** ** The text of the stamp *)

Lemma hex_string_reads_back (v : N) :
  NilZero.uint_of_string (hex_string v) = Some (N.to_hex_uint v) /\
  N.of_hex_uint (N.to_hex_uint v) = v.
Proof.
  split; [|apply HexadecimalN.Unsigned.of_to].
  unfold hex_string. apply NilZero.usu. destruct v as [|p]; [discriminate|].
  apply HexadecimalPos.Unsigned.to_uint_nonnil.
Qed.

(** X23.  The immediate operand in the text that [stamp(f, i)] assembles
    reads back, as a hexadecimal number, as the stamp value: the inserted
    instruction XORs with the value that the unwind instruction holds. *)
Theorem stamp_text_holds_the_stamp (bits : N) (stamp_value : StampValue_t) :
  exists digits,
    stamp_text bits stamp_value =
      " xor dword [" +:+ (if N.eqb bits 64 then "rsp" else "esp") +:+ "], 0x"
      +:+ digits /\
    (N.of_hex_uint <$> NilZero.uint_of_string digits) = Some stamp_value.
Proof.
  exists (hex_string stamp_value). split; [reflexivity|].
  destruct (hex_string_reads_back stamp_value) as [-> H]. simpl. now rewrite H.
Qed.

(** ** The result of the step *)

(** X24.  The step returns 0 or 2 and nothing else: 0 when [execute]
    transformed at least one function, 2 when it transformed none. *)
Theorem executeStep_result (env : option string) (firp : FileIR_t)
  (stamp_value : N) (verbose : bool) (r : Z) :
  executeStep env firp stamp_value verbose = Ok r ->
  exists s' b,
    execute env (StackStamp_new firp stamp_value verbose) = Ok (s', b) /\
    ((r = 0%Z /\ (0 < m_functions_transformed s')%Z) \/
     (r = 2%Z /\ m_functions_transformed s' = 0%Z)).
Proof.
  intros H. unfold executeStep in H. inv_bind H as sb Hsb. destruct sb as [s' b].
  exists s', b. split; [exact Hsb|]. simpl in H. injection H as <-.
  unfold execute in Hsb. inv_bind Hsb as s1 H1. injection Hsb as <- <-.
  apply execute_loop_counts in H1 as (Hge & _). simpl in *.
  destruct (Z.ltb_spec 0 (m_functions_transformed s1)); [left | right]; split;
    try reflexivity; lia.
Qed.

Lemma executeStep_result_witness :
  exists s' b,
    execute None (StackStamp_new two_functions 0xbeef false) = Ok (s', b) /\
    ((0%Z = 0%Z /\ (0 < m_functions_transformed s')%Z) \/
     (0%Z = 2%Z /\ m_functions_transformed s' = 0%Z)).
Proof.
  apply (executeStep_result None two_functions 0xbeef false 0).
  vm_compute. reflexivity.
Defined.

(** X25.  With the cap set in the environment, a run of [execute] on a new
    transform object transforms at most one function more than the number
    that [atoi] reads from it, and none when that number is negative. *)
Theorem execute_transforms_at_most_cap_plus_one (str : string) (cap : Z)
  (firp : FileIR_t) (stamp_value : N) (verbose : bool)
  (s' : StackStamp_t) (b : bool) :
  atoi str = Ok cap ->
  execute (Some str) (StackStamp_new firp stamp_value verbose) = Ok (s', b) ->
  (m_functions_transformed s' <= Z.max 0 (cap + 1))%Z.
Proof.
  intros Hcap H. unfold execute in H. inv_bind H as s1 H1. injection H as <- _.
  apply (execute_loop_cap str cap _ Hcap) in H1. exact H1.
Qed.

Lemma execute_transforms_at_most_cap_plus_one_witness :
  exists s' b,
    execute (Some "0") (StackStamp_new two_functions 0xbeef false) = Ok (s', b) /\
    (m_functions_transformed s' <= Z.max 0 (0 + 1))%Z.
Proof.
  eexists _, _. split; [vm_compute; reflexivity|].
  eapply (execute_transforms_at_most_cap_plus_one "0" 0 two_functions 0xbeef false).
  - reflexivity.
  - vm_compute. reflexivity.
Defined.

(** ** The stamps that a pass leaves *)

Lemma stamp_insn_stamped (s s' : StackStamp_t) (f : FuncPtr) (p : InsnPtr) :
  stamp_insn s f (Some p) = Ok s' ->
  exists old x,
    ir_instructions (getFileIR s) !! p = Some old /\
    ir_instructions (getFileIR s') !! p = Some x /\
    stamped (getArchitectureBitWidth (getFileIR s)) (m_stamp_value s)
      (length (ir_instructions (getFileIR s))) old x /\
    ir_instructions (getFileIR s') !! length (ir_instructions (getFileIR s)) = Some old.
Proof.
  intros H. unfold stamp_insn, insertAssemblyBefore in H.
  inv_bind H as r Hr. inv_bind H as n Hn. injection H as <-.
  inv_bind Hr as old Hold. apply deref_Ok in Hold.
  assert (Hlen : p < length (ir_instructions (getFileIR s)))
    by (eapply lookup_lt_Some; eauto).
  exists old. eexists. split; [exact Hold|].
  assert (Hr' : ir_instructions (fst r) =
            <[p := {| decoded := KOther;
                      getDisassembly :=
                        " xor dword [" +:+
                        (if N.eqb (getArchitectureBitWidth (getFileIR s)) 64
                         then "rsp" else "esp") +:+ "], 0x" +:+
                        hex_string (get_stamp s f);
                      getTarget := None;
                      getFallthrough := Some (length (ir_instructions (getFileIR s)));
                      getIBTargets := None; getRelocations := [];
                      getEhProgram := getEhProgram old;
                      getFunction := getFunction old |}]>
              (ir_instructions (getFileIR s)) ++ [old]).
  { destruct (getFunction old) as [g|].
    - inv_bind Hr as fg Hfg. now injection Hr as <-.
    - now injection Hr as <-. }
  simpl. rewrite Hr'. split; [|split].
  - rewrite lookup_app_l by (now rewrite length_insert).
    now apply list_lookup_insert_eq.
  - repeat split.
  - rewrite lookup_app_r by (rewrite length_insert; lia).
    rewrite length_insert. now rewrite Nat.sub_diag.
Qed.

Lemma stamp_all_extends (f : FuncPtr) (sites : list InsnPtr) :
  forall s s', stamp_all f s sites = Ok s' -> extends s s'.
Proof.
  induction sites as [|p sites IH]; intros s s' H; cbn [stamp_all] in H.
  - injection H as <-. apply extends_refl.
  - inv_bind H as s1 H1. apply stamp_insn_extends in H1. apply IH in H.
    eapply extends_trans; eauto.
Qed.

Lemma stamp_all_stamped (f : FuncPtr) (sites : list InsnPtr) :
  forall s s', stamp_all f s sites = Ok s' ->
    NoDup sites ->
    Forall (fun p => p < length (ir_instructions (getFileIR s))) sites ->
    forall y i, y ∈ sites -> ir_instructions (getFileIR s) !! y = Some i ->
      exists n x,
        ir_instructions (getFileIR s') !! y = Some x /\
        stamped (getArchitectureBitWidth (getFileIR s)) (m_stamp_value s) n i x /\
        length (ir_instructions (getFileIR s)) <= n /\
        ir_instructions (getFileIR s') !! n = Some i.
Proof.
  induction sites as [|p sites IH]; intros s s' H Hnd Hval y i Hy Hi.
  - inversion Hy.
  - cbn [stamp_all] in H. inv_bind H as s1 H1.
    apply NoDup_cons in Hnd as [Hp Hnd]. apply Forall_cons in Hval as [Hpv Hval].
    pose proof (stamp_insn_extends _ _ _ _ H1) as Hext.
    pose proof (extends_length _ _ Hext) as Hlen.
    apply elem_of_cons in Hy as [-> | Hy].
    + destruct (stamp_insn_stamped _ _ _ _ H1) as (old & x & Hold & Hx & Hst & Hn).
      assert (old = i) as -> by congruence.
      exists (length (ir_instructions (getFileIR s))), x.
      split; [|split; [exact Hst|split; [lia|]]].
      * eapply (stamp_all_frame _ _ _ _ H); eauto.
      * eapply (stamp_all_frame _ _ _ _ H); eauto.
        intros Hin. pose proof (proj1 (Forall_forall _ _) Hval _ Hin) as Hlt.
        simpl in Hlt. lia.
    + assert (Hi1 : ir_instructions (getFileIR s1) !! y = Some i).
      { destruct (proj1 (stamp_insn_frame _ _ _ _ H1) _ _ Hi) as (i' & Hi' & _ & Heq).
        rewrite Heq in Hi' by (intros ->; contradiction). exact Hi'. }
      destruct (IH s1 s' H Hnd) with (y := y) (i := i) as (n & x & Hx & Hst & Hn & Hc);
        [|exact Hy|exact Hi1|].
      * eapply Forall_impl; [exact Hval|]. intros q Hq. simpl in Hq. lia.
      * exists n, x. rewrite <- (ext_bits _ _ Hext), <- (ext_stamp _ _ Hext).
        split; [exact Hx|]. split; [exact Hst|]. split; [lia | exact Hc].
Qed.

Lemma stamped_setEhProgram (bits : N) (v : StampValue_t) (n : InsnPtr)
  (old x : Instruction_t) (h : option EhPtr) :
  stamped bits v n old x -> stamped bits v n old (setEhProgram h x).
Proof. unfold stamped. simpl. tauto. Qed.

(** X26.  When the pass over an eligible function completes, every
    instruction that the loop decided to stamp, and the entry, is now the
    XOR of the stamp value: it falls through to a new instruction that
    holds what the protected instruction was (its unwind program apart,
    which [eh_update] replaces).  The entry is left out here when the loop
    stamped it too. *)
Theorem stamp_puts_xor_before_sites (s s' : StackStamp_t) (f : FuncPtr)
  (fn : Function_t) (e : InsnPtr) :
  ir_functions (getFileIR s) !! f = Some fn ->
  NoDup (getInstructions fn) ->
  getEntryPoint fn = Some e ->
  e ∈ getInstructions fn ->
  can_stamp s f = Ok true ->
  stamp s f = Ok s' ->
  exists sites : list InsnPtr,
    sites `sublist_of` getInstructions fn /\
    (forall y d, y ∈ getInstructions fn ->
       stamp_decision (getFileIR s) f y = Ok d -> (y ∈ sites <-> d = true)) /\
    forall y i,
      insn_at s y = Some i ->
      (y ∈ sites /\ y <> e) \/ (y = e /\ e ∉ sites) ->
      exists (n : InsnPtr) x c,
        insn_at s' y = Some x /\
        stamped (getArchitectureBitWidth (getFileIR s)) (m_stamp_value s) n i x /\
        (n ∉ getInstructions fn) /\
        insn_at s' n = Some c /\
        c = setEhProgram (getEhProgram c) i.
Proof.
  intros Hf Hnd He Hein Hcan H.
  assert (Hval : Forall (fun p => p < length (ir_instructions (getFileIR s)))
                   (getInstructions fn)).
  { unfold can_stamp in Hcan. rewrite (proj2 (deref_Ok _ _ _) Hf) in Hcan.
    simpl in Hcan. destruct (bool_decide _); [discriminate|].
    destruct (String.eqb _ _); [discriminate|].
    destruct (Nat.leb _ _); [discriminate|].
    apply Forall_forall. intros p Hp.
    pose proof (proj1 (can_stamp_loop_accept _ _ _) Hcan p Hp) as Hb.
    unfold can_stamp_body in Hb. inv_bind Hb as i Hi. apply deref_Ok in Hi.
    eapply lookup_lt_Some; eauto. }
  unfold stamp in H. rewrite Hcan in H. simpl in H.
  rewrite (proj2 (deref_Ok _ _ _) Hf) in H. simpl in H.
  inv_bind H as u Hu. inv_bind H as t Ht. inv_bind H as s1 Hloop.
  inv_bind H as fn1 Hfn1. inv_bind H as s2 Hentry. inv_bind H as s3 Hskip.
  destruct (stamp_loop_sites _ _ _ _ Hloop Hnd) as (sites & Hsub & Hall & Hdec).
  destruct (stamp_all_entry _ _ _ _ Hall f fn Hf) as (fn1' & Hfn1' & He1).
  apply deref_Ok in Hfn1. assert (fn1' = fn1) as -> by congruence.
  rewrite He1, He in Hentry.
  destruct (stamp_insn_stamped _ _ _ _ Hentry) as (old & before & Hold & Hbefore & Hst & Hcopy).
  destruct (proj2 (stamp_insn_frame _ _ _ _ Hentry) _ _ Hfn1) as (fn2 & Hfn2 & He2).
  rewrite He1, He in He2.
  assert (Hft : getFallthrough before = Some (length (ir_instructions (getFileIR s1))))
    by apply Hst.
  destruct (skip_stamp_loop_patched f fn2 e _ _ He2 Hnd s2 s3 before Hfn2 Hbefore Hft Hskip)
    as [Hin Hout].
  pose proof (stamp_all_extends _ _ _ _ Hall) as Hext1.
  pose proof (extends_length _ _ Hext1) as Hlen1. simpl in Hlen1.
  assert (Hsites : Forall (fun p => p < length (ir_instructions (getFileIR s))) sites).
  { apply Forall_forall. intros p Hp. apply (proj1 (Forall_forall _ _) Hval).
    eapply elem_of_sublist; eauto. }
  assert (Hnew : forall n, length (ir_instructions (getFileIR s)) <= n ->
            n ∉ getInstructions fn).
  { intros n Hn Hin'. pose proof (proj1 (Forall_forall _ _) Hval _ Hin') as Hlt.
    simpl in Hlt. lia. }
  assert (Hafter : forall y n i x,
            y ∈ getInstructions fn -> n ∉ getInstructions fn ->
            ir_instructions (getFileIR s2) !! y = Some x ->
            stamped (getArchitectureBitWidth (getFileIR s)) (m_stamp_value s) n i x ->
            ir_instructions (getFileIR s2) !! n = Some i ->
            exists x' c,
              insn_at s' y = Some x' /\
              stamped (getArchitectureBitWidth (getFileIR s)) (m_stamp_value s) n i x' /\
              insn_at s' n = Some c /\ c = setEhProgram (getEhProgram c) i).
  { intros y n i x Hy Hn Hx Hstx Hc.
    assert (Hx3 : ir_instructions (getFileIR s3) !! y = Some x).
    { rewrite (Hin y x Hy Hx). unfold patched.
      destruct Hstx as (_ & _ & -> & _). reflexivity. }
    assert (Hc3 : ir_instructions (getFileIR s3) !! n = Some i).
    { now rewrite (Hout n Hn). }
    unfold eh_update in H. inv_bind H as u1 Hu1. inv_bind H as u2 Hu2.
    inv_bind H as fn3 Hfn3. apply eh_update_loop_fields in H as (_ & _ & Hfields).
    destruct (Hfields y x Hx3) as (x' & Hx' & Ex & _).
    destruct (Hfields n i Hc3) as (c & Hc' & Ec & _).
    exists x', c. unfold insn_at. split; [exact Hx'|]. split; [|split; assumption].
    rewrite Ex. now apply stamped_setEhProgram. }
  exists sites. split; [exact Hsub|]. split; [exact Hdec|].
  intros y i Hi [[Hy Hne] | [-> Hnot]]; unfold insn_at in Hi.
  - destruct (stamp_all_stamped _ _ _ _ Hall (sublist_NoDup _ _ Hnd Hsub) Hsites
                y i Hy Hi) as (n & x & Hx & Hstx & Hn & Hc).
    simpl in Hn, Hstx.
    assert (Hx2 : ir_instructions (getFileIR s2) !! y = Some x).
    { destruct (proj1 (stamp_insn_frame _ _ _ _ Hentry) _ _ Hx) as (x' & Hx' & _ & Heq).
      now rewrite (Heq Hne) in Hx'. }
    assert (Hc2 : ir_instructions (getFileIR s2) !! n = Some i).
    { destruct (proj1 (stamp_insn_frame _ _ _ _ Hentry) _ _ Hc) as (c' & Hc' & _ & Heq).
      rewrite Heq in Hc'; [exact Hc'|]. intros ->.
      pose proof (proj1 (Forall_forall _ _) Hval _ Hein) as Hlt. simpl in Hlt. lia. }
    destruct (Hafter y n i x) as (x' & c & Hx' & Hstx' & Hc' & Ec); auto.
    { eapply elem_of_sublist; eauto. }
    exists n, x', c. split; [exact Hx'|]. split; [exact Hstx'|].
    split; [now apply Hnew|]. split; assumption.
  - assert (Hi1 : ir_instructions (getFileIR s1) !! e = Some i).
    { eapply (stamp_all_frame _ _ _ _ Hall); eauto. }
    assert (old = i) as -> by congruence.
    assert (Hb1 : getArchitectureBitWidth (getFileIR s1) =
                  getArchitectureBitWidth (getFileIR s)) by exact (ext_bits _ _ Hext1).
    assert (Hv1 : m_stamp_value s1 = m_stamp_value s) by exact (ext_stamp _ _ Hext1).
    rewrite Hb1, Hv1 in Hst.
    destruct (Hafter e (length (ir_instructions (getFileIR s1))) i before)
      as (x' & c & Hx' & Hstx' & Hc' & Ec); auto.
    exists (length (ir_instructions (getFileIR s1))), x', c.
    split; [exact Hx'|]. split; [exact Hstx'|].
    split; [apply Hnew; lia|]. split; assumption.
Qed.

Lemma stamp_puts_xor_before_sites_witness :
  exists s',
    stamp (StackStamp_new two_functions 0xbeef false) 0 = Ok s' /\
    exists sites : list InsnPtr,
      sites `sublist_of` [0; 1; 2; 3] /\
      (forall y d, y ∈ [0; 1; 2; 3] ->
         stamp_decision two_functions 0 y = Ok d -> (y ∈ sites <-> d = true)) /\
      forall y i,
        insn_at (StackStamp_new two_functions 0xbeef false) y = Some i ->
        (y ∈ sites /\ y <> 0) \/ (y = 0 /\ 0 ∉ sites) ->
        exists (n : InsnPtr) x c,
          insn_at s' y = Some x /\
          stamped 32 0xbeef n i x /\
          (n ∉ [0; 1; 2; 3]) /\
          insn_at s' n = Some c /\
          c = setEhProgram (getEhProgram c) i.
Proof.
  eexists. split; [vm_compute; reflexivity|].
  apply (stamp_puts_xor_before_sites
           (StackStamp_new two_functions 0xbeef false) _ 0
           {| getName := "zeta"; getEntryPoint := Some 0;
              getInstructions := [0; 1; 2; 3] |} 0).
  - reflexivity.
  - apply (bool_decide_unpack _). vm_compute. exact I.
  - reflexivity.
  - left.
  - vm_compute. reflexivity.
  - vm_compute. reflexivity.
Defined.
